(** * UnarySim kernels: a shallow embedding of the cycle-level simulators

    The development embeds the per-cycle [forward] methods of the unary
    computing kernels ([kernel/add.py], [kernel/mul.py], [kernel/linear.py],
    [sw/kernel/relu.py], [sw/kernel/linear.py]) and proves the properties the
    design document states about them.

    Conventions of the embedding.
    - A [torch.float] tensor is a list of rationals ([Q]); the floats that
      the cycles compute with (bits, counts, half-integers) are exactly
      representable as long as they stay below 2^24, and the arithmetic is
      taken to be exact.  A [torch.long] or [torch.int8] tensor is a list of
      integers ([Z]); [int8] arithmetic wraps.  The registers of the
      rate-coded [UnaryReLU] grow with [2^depth] and have the type [btype]
      of the caller's choice: there the rounding of float32 ([f32]) and the
      wrap-around of the integer types are written out ([store]).
    - A register or an element-wise tensor is a 1-D tensor, a list.  Shape
      [[1]] broadcasts against any other length; two lengths that differ and
      are both not 1 raise torch's [RuntimeError].  An input that is reduced
      along an axis is a tensor of rank 2 ([Tensor2]).
    - The Python object [self] is a record threaded through a state monad in
      which the state survives a raised exception, as the attributes of a
      Python object do. *)

From Stdlib Require Import String Ascii Bool ZArith QArith Qround Qpower Qminmax Qabs
  Qreduction Lqa Lia List.
Import ListNotations.
Local Open Scope Q_scope.
Local Open Scope string_scope.

(* ===================================================================== *)
(** ** Exceptions and the state monad                                      *)
(* ===================================================================== *)

Inductive exn : Type :=
| ValueError (msg : string)
| AssertionError (msg : string)
| RuntimeError
| IndexError
| TypeError
| AttributeError
| OverflowError.

Inductive result (A : Type) : Type :=
| Ok (a : A)
| Raise (e : exn).
Arguments Ok {A} a.
Arguments Raise {A} e.

Definition rbind {A B} (r : result A) (k : A -> result B) : result B :=
  match r with
  | Ok a => k a
  | Raise e => Raise e
  end.

(** [M S A]: a method of an object whose attributes are [S], returning [A]
    or raising; the attributes written before a [raise] stay written. *)
Definition M (S A : Type) : Type := S -> result A * S.

Definition ret {S A} (a : A) : M S A := fun s => (Ok a, s).

Definition bind {S A B} (c : M S A) (k : A -> M S B) : M S B :=
  fun s =>
    match c s with
    | (Ok a, s') => k a s'
    | (Raise e, s') => (Raise e, s')
    end.

Definition get {S} : M S S := fun s => (Ok s, s).
Definition gets {S A} (f : S -> A) : M S A := fun s => (Ok (f s), s).
Definition modify {S} (f : S -> S) : M S unit := fun s => (Ok tt, f s).
Definition raise {S A} (e : exn) : M S A := fun s => (Raise e, s).
Definition lift {S A} (r : result A) : M S A := fun s => (r, s).

Declare Scope monad_scope.
Delimit Scope monad_scope with monad.
Notation "x <- c ;; k" := (bind c (fun x => k))
  (at level 61, c at next level, right associativity) : monad_scope.
Notation "c ;; k" := (bind c (fun _ => k))
  (at level 61, right associativity) : monad_scope.
Notation "x <-! r ;; k" := (rbind r (fun x => k))
  (at level 61, r at next level, right associativity) : monad_scope.
Local Open Scope monad_scope.

(* ===================================================================== *)
(** ** Scalars, dtypes and comparisons                                     *)
(* ===================================================================== *)

Inductive dtype : Type := torch_float | torch_int8 | torch_long.

(** Conversion of a float to an integer dtype truncates toward zero. *)
Definition Qtrunc (x : Q) : Z :=
  if Qle_bool 0 x then Qfloor x else Qceiling x.

(** Two's-complement wrap-around of an [int8]. *)
Definition wrap8 (z : Z) : Z := ((z + 128) mod 256 - 128)%Z.

Definition to_long (x : Q) : Z := Qtrunc x.
Definition to_int8 (x : Q) : Z := wrap8 (Qtrunc x).
Definition to_float (z : Z) : Q := inject_Z z.

(** [x.type(t)] on a value held as a float. *)
Definition astype (t : dtype) (x : Q) : Q :=
  match t with
  | torch_float => x
  | torch_int8 => to_float (to_int8 x)
  | torch_long => to_float (to_long x)
  end.

(** Round to the nearest integer, ties to the even one. *)
Definition round_half_even (x : Q) : Z :=
  let f := Qfloor x in
  match Qcompare (x - inject_Z f) (1 # 2) with
  | Lt => f
  | Gt => (f + 1)%Z
  | Eq => if Z.even f then f else (f + 1)%Z
  end.

(** [floor (log2 |x|)] for [x <> 0]. *)
Definition ilog2 (x : Q) : Z :=
  let k := (Z.log2 (Z.abs (Qnum x)) - Z.log2 (Zpos (Qden x)))%Z in
  if Qle_bool (Qpower 2 k) (Qabs x) then k else (k - 1)%Z.

(** The float32 nearest to [x], ties to even: 24 significant bits, the
    exponent of the leading bit not below -126 (below, the subnormal numbers
    keep the spacing [2^-149]).  A float32 overflows to infinity from
    [2^128] on; the numbers rounded here stay below [2^65]. *)
Definition f32 (x : Q) : Q :=
  if Qeq_bool x 0 then 0
  else
    let e := Z.max (ilog2 x) (-126) in
    let ulp := Qpower 2 (e - 23) in
    Qred (inject_Z (round_half_even (x / ulp)) * ulp).

(** Two's-complement wrap-around of an [int64]. *)
Definition wrap64 (z : Z) : Z := ((z + 2 ^ 63) mod 2 ^ 64 - 2 ^ 63)%Z.

(** The value an element of type [t] holds for the exact result [x] of an
    arithmetic operation in that type: a float32 rounds, an integer type
    wraps around. *)
Definition store (t : dtype) (x : Q) : Q :=
  match t with
  | torch_float => f32 x
  | torch_int8 => to_float (wrap8 (Qtrunc x))
  | torch_long => to_float (wrap64 (Qtrunc x))
  end.

(** A count of calls or of bits in a register of type [t]: an integer type
    wraps around; a float32 holds every count below [2^24] as it is, and
    the count is taken to stay below. *)
Definition count_in (t : dtype) (x : Q) : Q :=
  match t with
  | torch_float => x
  | _ => store t x
  end.

(** [torch.ge], [torch.gt], [torch.lt] on floats, as 0/1 flags. *)
Definition ge (a b : Q) : bool := Qle_bool b a.
Definition gt (a b : Q) : bool := negb (Qle_bool a b).
Definition lt (a b : Q) : bool := negb (Qle_bool b a).

Definition flagQ (b : bool) : Q := if b then 1 else 0.
Definition flagZ (b : bool) : Z := if b then 1%Z else 0%Z.

Definition is_bit (x : Q) : Prop := x == 0 \/ x == 1.
Definition is_bitZ (z : Z) : Prop := z = 0%Z \/ z = 1%Z.

Definition Qsum (l : list Q) : Q := fold_right Qplus 0 l.
Definition Zsum (l : list Z) : Z := fold_right Z.add 0%Z l.

(* ===================================================================== *)
(** ** 1-D tensors and broadcasting                                        *)
(* ===================================================================== *)

Fixpoint map2 {A B C} (f : A -> B -> C) (a : list A) (b : list B) : list C :=
  match a, b with
  | x :: a', y :: b' => f x y :: map2 f a' b'
  | _, _ => []
  end.

(** Out-of-place binary operation [f(a, b)] on two 1-D tensors, with
    torch's broadcasting: a tensor of one element is expanded to the length
    of the other one, two lengths that differ and are both not 1 raise
    [RuntimeError]. *)
Definition bmap2 {A B C} (f : A -> B -> C) (a : list A) (b : list B)
  : result (list C) :=
  match a, b with
  | [x], _ => Ok (map (f x) b)
  | _, [y] => Ok (map (fun u => f u y) a)
  | _, _ => if Nat.eqb (length a) (length b) then Ok (map2 f a b)
            else Raise RuntimeError
  end.

(** In-place operation [a.f_(b)]: [b] is broadcast to the shape of [a],
    which cannot change. *)
Definition bmap2_ {A B} (f : A -> B -> A) (a : list A) (b : list B)
  : result (list A) :=
  match b with
  | [y] => Ok (map (fun u => f u y) a)
  | _ => if Nat.eqb (length a) (length b) then Ok (map2 f a b)
         else Raise RuntimeError
  end.

(** Element [j] of a tensor seen through broadcasting. *)
Definition bget {A} (v : list A) (j : nat) (d : A) : A :=
  match v with
  | [x] => x
  | _ => nth j v d
  end.

(** Length of the broadcast of two compatible shapes. *)
Definition blen (la lb : nat) : nat := if Nat.eqb la 1 then lb else la.

(** A tensor of rank 2 that is reduced along its axis [acc_dim], given by
    its output positions: [input = [lanes_0; lanes_1; ...]] where [lanes_j]
    lists, for the j-th position of the other axis, the entries along
    [acc_dim]; the sum along [acc_dim] is then a 1-D tensor with one entry
    per position.  A 1-D tensor of four lanes, whose sum is a scalar that
    broadcasts like a tensor of one element, is [[[a; b; c; d]]], the 1-D
    tensor without entries is [[[]]].  Tensors without any output position
    (an other axis of size 0) are not represented.  A tensor of higher rank
    can be read as the list of its output positions as long as every tensor
    of a run has the same shape; broadcasting between sums of different
    rank is not represented. *)
Definition Tensor2 : Type := list (list Q).

(** [input.size()[acc_dim]]. *)
Definition size_acc (input : Tensor2) : nat :=
  match input with
  | [] => 0%nat
  | lanes :: _ => length lanes
  end.

(** [torch.sum(input, acc_dim)]. *)
Definition sum_acc (input : Tensor2) : list Q := map Qsum input.

(** All positions have [n] lanes (the tensor is rectangular). *)
Definition rect (n : nat) (input : Tensor2) : Prop :=
  Forall (fun lanes => length lanes = n) input.

Definition bits2 (input : Tensor2) : Prop :=
  Forall (Forall is_bit) input.

(* ===================================================================== *)
(** ** kernel/add.py: UnaryAdd                                             *)
(* ===================================================================== *)

Module UnaryAdd.

Record t : Type := mk {
  mode : string;
  scaled : bool;
  acc_dim : Z;
  stype : dtype;
  acc_bound : Q;
  offset : Q;
  accumulator : list Q;
  (** exists only when [scaled] is [False] *)
  out_accumulator : option (list Q)
}.

Definition set_acc_bound (v : Q) (self : t) : t :=
  mk (mode self) (scaled self) (acc_dim self) (stype self)
     v (offset self) (accumulator self) (out_accumulator self).
Definition set_offset (v : Q) (self : t) : t :=
  mk (mode self) (scaled self) (acc_dim self) (stype self)
     (acc_bound self) v (accumulator self) (out_accumulator self).
Definition set_accumulator (v : list Q) (self : t) : t :=
  mk (mode self) (scaled self) (acc_dim self) (stype self)
     (acc_bound self) (offset self) v (out_accumulator self).
Definition set_out_accumulator (v : list Q) (self : t) : t :=
  mk (mode self) (scaled self) (acc_dim self) (stype self)
     (acc_bound self) (offset self) (accumulator self) (Some v).

(** [UnaryAdd.__init__] *)
Definition init (mode : string) (scaled : bool) (acc_dim : Z) (stype : dtype) : t :=
  mk mode scaled acc_dim stype 0 0 [0]
     (if scaled then None else Some [0]).

(** The threshold of line 41, [torch.ge(self.accumulator, self.acc_bound)],
    read off the registers of [self]. *)
Definition threshold (self : t) : list Q :=
  map (fun a => flagQ (ge a (acc_bound self))) (accumulator self).

(** The comparison of line 45,
    [torch.gt(self.accumulator, self.out_accumulator)], read off the registers
    of [self]. *)
Definition compare (self : t) : result (list Q) :=
  match out_accumulator self with
  | None => Raise AttributeError
  | Some out_acc => bmap2 (fun a o => flagQ (gt a o)) (accumulator self) out_acc
  end.

(** [UnaryAdd.forward] *)
Definition forward (input : Tensor2) : M t (list Q) :=
  modify (set_acc_bound (inject_Z (Z.of_nat (size_acc input)))) ;;
  self <- get ;;
  (if mode self =? "bipolar"
   then modify (set_offset ((acc_bound self - 1) / 2))
   else ret tt) ;;
  self <- get ;;
  acc <- lift (bmap2 Qplus (accumulator self) (sum_acc input)) ;;
  modify (set_accumulator acc) ;;
  self <- get ;;
  if scaled self then
    let output := threshold self in
    modify (set_accumulator
              (map2 (fun a o => a - o * acc_bound self) (accumulator self) output)) ;;
    ret (map (astype (stype self)) output)
  else
    modify (set_accumulator (map (fun a => a - offset self) (accumulator self))) ;;
    self <- get ;;
    output <- lift (compare self) ;;
    match out_accumulator self with
    | None => raise AttributeError
    | Some out_acc =>
        out_acc' <- lift (bmap2 Qplus out_acc output) ;;
        modify (set_out_accumulator out_acc') ;;
        ret (map (astype (stype self)) output)
    end.

End UnaryAdd.

(* ===================================================================== *)
(** ** kernel/add.py: GainesAdd                                            *)
(* ===================================================================== *)

(** [seq[i]] for a Python integer index [i]: a negative index counts from the
    end, an index outside the sequence raises [IndexError]. *)
Definition py_getitem {A} (seq : list A) (i : Z) : result A :=
  let n := Z.of_nat (length seq) in
  let k := if (i <? 0)%Z then (i + n)%Z else i in
  if ((0 <=? k) && (k <? n))%Z%bool
  then match nth_error seq (Z.to_nat k) with
       | Some x => Ok x
       | None => Raise IndexError
       end
  else Raise IndexError.

Module GainesAdd.

Record t : Type := mk {
  mode : string;
  scaled : bool;
  acc_dim : Z;
  stype : dtype;
  rng : list Q;
  rng_idx : Z
}.

Definition set_rng_idx (v : Z) (self : t) : t :=
  mk (mode self) (scaled self) (acc_dim self) (stype self) (rng self) v.

Section Init.

(** The index-sequence source [RNG(bitwidth, dim, rng, rtype)()] of
    [UnarySim.stream.gen], an external collaborator. *)
Variable RNG : Z -> Z -> string -> list Q.

(** [GainesAdd.__init__].  The [acc_dim] register is created as zero and the
    constructor argument is not written to it. *)
Definition init (mode : string) (scaled : bool) (acc_dim : Z) (rng : string)
  (rng_dim rng_width : Z) (stype : dtype) : result t :=
  if (mode =? "bipolar") && negb scaled
  then Raise (ValueError
    "Non-scaled addition for biploar data is not supported in Gaines approach.")
  else Ok (mk mode scaled 0 stype (RNG rng_width rng_dim rng) 0).

End Init.

(** The MUX of line 85: the lane [idx] of every output position. *)
Definition index_select (input : Tensor2) (idx : Z) : result (list Q) :=
  if ((0 <=? idx) && (idx <? Z.of_nat (size_acc input)))%Z%bool
  then Ok (map (fun lanes => nth (Z.to_nat idx) lanes 0) input)
  else Raise IndexError.

(** [GainesAdd.forward] *)
Definition forward (input : Tensor2) : M t (list Q) :=
  self <- get ;;
  if scaled self then
    randNum <- lift (py_getitem (rng self) (rng_idx self)) ;;
    if negb (lt randNum (inject_Z (Z.of_nat (size_acc input))))
    then raise (AssertionError
      "randNum should be smaller than the dimension size of addition.")
    else
      output <- lift (index_select input (to_long randNum)) ;;
      modify (set_rng_idx ((rng_idx self + 1) mod Z.of_nat (length (rng self)))%Z) ;;
      ret (map (astype (stype self)) output)
  else
    let output := map (fun s => flagQ (gt s 0)) (sum_acc input) in
    ret (map (astype (stype self)) output).

End GainesAdd.

(* ===================================================================== *)
(** ** The bitstream generator                                             *)
(* ===================================================================== *)

(** Modelled from the spec: the class [BSGen] of [UnarySim.stream.gen] is not
    among the sources.  Section 4.1 of the design document: the generator
    emits 1 if [sequence[counter mod period] < scaled_magnitude] and 0
    otherwise; it is a pure function of the magnitude, the counter and the
    sequence.  [BSGen_bit] is one lane. *)
Definition BSGen_bit (rng_seq : list Q) (source : Q) (rng_idx : Z) : Z :=
  let period := Z.of_nat (length rng_seq) in
  flagZ (lt (nth (Z.to_nat (rng_idx mod period)) rng_seq 0) source).

(** Modelled from the spec: [BSGen(source, rng_seq, stype)(rng_idx)] on a
    magnitude tensor and an index tensor that broadcast against each other. *)
Definition BSGen (source : list Q) (rng_seq : list Q) (rng_idx : list Z)
  : result (list Z) :=
  bmap2 (BSGen_bit rng_seq) source rng_idx.

(** Modelled from the spec: the generator on a weight matrix and an index
    matrix of the same shape. *)
Definition BSGen2 (source : list (list Q)) (rng_seq : list Q)
  (rng_idx : list (list Z)) : list (list Z) :=
  map2 (map2 (BSGen_bit rng_seq)) source rng_idx.

(* ===================================================================== *)
(** ** kernel/mul.py: FSUMul and GainesMul                                 *)
(* ===================================================================== *)

Module FSUMul.

Record t : Type := mk {
  bitwidth : Z;
  mode : string;
  static : bool;
  stype : dtype;
  rng : list Q;
  (** the magnitude held by the generators [bs] and [bs_inv] *)
  source_gen : list Q;
  rng_idx : list Z;
  (** exists only in bipolar mode *)
  rng_idx_inv : option (list Z)
}.

Definition set_rng_idx (v : list Z) (self : t) : t :=
  mk (bitwidth self) (mode self) (static self) (stype self) (rng self)
     (source_gen self) v (rng_idx_inv self).
Definition set_rng_idx_inv (v : list Z) (self : t) : t :=
  mk (bitwidth self) (mode self) (static self) (stype self) (rng self)
     (source_gen self) (rng_idx self) (Some v).

Section Init.

Variable RNG : Z -> Z -> string -> list Q.
(** [SourceGen(prob, bitwidth, mode, rtype)()], the conversion of a
    probability to a scaled magnitude, element by element; an external
    collaborator, of which only the result for the modes ["unipolar"] and
    ["bipolar"] is used below.  What it does with another mode string,
    which line 37 hands to it unchecked, is not known from the sources. *)
Variable SourceGen : Q -> Z -> string -> Q.

(** [FSUMul.__init__] *)
Definition init (bitwidth : Z) (mode : string) (static : bool)
  (input_prob_1 : list Q) (stype : dtype) : result t :=
  let rng := RNG bitwidth 1 "Sobol" in
  if static then
    let source_gen := map (fun p => SourceGen p bitwidth mode) input_prob_1 in
    Ok (mk bitwidth mode static stype rng source_gen [0%Z]
           (if mode =? "bipolar" then Some [0%Z] else None))
  else Raise (ValueError "FSUMul in-stream mode is not implemented.").

End Init.

(** The product bit of the cycle, read off the registers of [self]:
    [path_0] in unipolar mode, [path_0 | path_1] in bipolar mode. *)
Definition path_0 (self : t) (input_0 : list Q) : result (list Z) :=
  bs <-! BSGen (source_gen self) (rng self) (rng_idx self) ;;
  bmap2 Z.land (map to_int8 input_0) bs.

Definition path_1 (self : t) (input_0 : list Q) : result (list Z) :=
  match rng_idx_inv self with
  | None => Raise AttributeError
  | Some idx_inv =>
      bs_inv <-! BSGen (source_gen self) (rng self) idx_inv ;;
      bmap2 Z.land (map (fun x => wrap8 (1 - to_int8 x)) input_0)
                   (map (fun b => wrap8 (1 - b)) bs_inv)
  end.

(** [FSUMul.FSUMul_forward].  When [static] is not [True] the method returns
    [None], on which [forward] raises [AttributeError]; the constructor rejects
    that configuration. *)
Definition FSUMul_forward (input_0 : list Q) : M t (list Z) :=
  self <- get ;;
  if static self then
    p0 <- lift (path_0 self input_0) ;;
    idx <- lift (bmap2 Z.add (rng_idx self) (map to_long input_0)) ;;
    modify (set_rng_idx idx) ;;
    if mode self =? "unipolar" then ret p0
    else if mode self =? "bipolar" then
      self <- get ;;
      p1 <- lift (path_1 self input_0) ;;
      match rng_idx_inv self with
      | None => raise AttributeError
      | Some idx_inv =>
          idx_inv' <- lift (bmap2 Z.add idx_inv
                              (map (fun x => (1 - to_long x)%Z) input_0)) ;;
          modify (set_rng_idx_inv idx_inv') ;;
          lift (bmap2 Z.lor p0 p1)
      end
    else raise (ValueError "FSUMul mode is not implemented.")
  else raise AttributeError.

(** [FSUMul.forward] *)
Definition forward (input_0 : list Q) : M t (list Q) :=
  out <- FSUMul_forward input_0 ;;
  self <- get ;;
  ret (map (fun b => astype (stype self) (to_float b)) out).

End FSUMul.

Module GainesMul.

(** [GainesMul.GainesMul_forward] for a mode string. *)
Definition GainesMul_forward (mode : string) (input_0 input_1 : list Q)
  : result (list Z) :=
  if mode =? "unipolar" then
    bmap2 Z.land (map to_int8 input_0) (map to_int8 input_1)
  else if mode =? "bipolar" then
    bmap2 (fun a b => wrap8 (1 - Z.lxor a b)) (map to_int8 input_0) (map to_int8 input_1)
  else Raise (ValueError "GainesMul mode is not implemented.").

(** [GainesMul.forward] *)
Definition forward (mode : string) (stype : dtype) (input_0 input_1 : list Q)
  : result (list Q) :=
  out <-! GainesMul_forward mode input_0 input_1 ;;
  Ok (map (fun b => astype stype (to_float b)) out).

End GainesMul.

(* ===================================================================== *)
(** ** The shift register                                                  *)
(* ===================================================================== *)

Module ShiftReg.

(** Modelled from the spec: the class [ShiftReg] of
    [UnarySim.sw.kernel.shiftreg] is not among the sources.  Sections 3 and
    4.5 of the design document: a fixed-capacity ring buffer of the last
    [depth] emitted output bits, created with zero contents, and a population
    count that always equals the number of 1s held in the buffer.  One ring
    buffer per element, newest bit first; a single buffer is expanded to the
    batch on first use. *)
Record t : Type := mk {
  depth : Z;
  sr : list (list Q)
}.

(** Modelled from the spec: the register is created empty (all zero). *)
Definition init (depth : Z) : t :=
  mk depth [repeat 0 (Z.to_nat depth)].

(** Modelled from the spec: push a bit, evicting the oldest one. *)
Definition push (buf : list Q) (bit : Q) : list Q :=
  removelast (bit :: buf).

(** Modelled from the spec: [ShiftReg.forward(input)] pushes the input into
    the ring buffer and returns the evicted bit (unused by the caller) and the
    population count after the push. *)
Definition forward (input : list Q) : M t (list Q * list Q) :=
  self <- get ;;
  sr' <- lift (bmap2 push (sr self) input) ;;
  modify (fun self => mk (depth self) sr') ;;
  evicted <- lift (bmap2 (fun buf bit => last (bit :: buf) 0) (sr self) input) ;;
  ret (evicted, map Qsum sr').

End ShiftReg.

(* ===================================================================== *)
(** ** sw/kernel/relu.py: UnaryReLU                                        *)
(* ===================================================================== *)

(** [torch.clamp(x, lo, hi)]. *)
Definition clamp (lo hi x : Q) : Q := Qmin (Qmax x lo) hi.

Module UnaryReLU.

(** Attributes that a given configuration does not create ([shiftreg],
    [depth_half], [sr_cnt], [init] without a shift register; [buf_max],
    [buf_half] under TC; [threshold], [cycle] under RC) are held at a default
    here; the dispatch of [forward] never reads them. *)
Record t : Type := mk {
  depth : Z;
  encode : string;
  sr : bool;
  stype : dtype;
  btype : dtype;
  shiftreg : ShiftReg.t;
  depth_half : Q;
  sr_cnt : list Q;
  init_ : bool;
  buf_max : Q;
  buf_half : Q;
  acc : list Q;
  threshold : Q;
  cycle : Q
}.

Definition set_shiftreg (v : ShiftReg.t) (self : t) : t :=
  mk (depth self) (encode self) (sr self) (stype self) (btype self) v
     (depth_half self) (sr_cnt self) (init_ self) (buf_max self) (buf_half self)
     (acc self) (threshold self) (cycle self).
Definition set_sr_cnt (v : list Q) (self : t) : t :=
  mk (depth self) (encode self) (sr self) (stype self) (btype self) (shiftreg self)
     (depth_half self) v (init_ self) (buf_max self) (buf_half self)
     (acc self) (threshold self) (cycle self).
Definition set_init (v : bool) (self : t) : t :=
  mk (depth self) (encode self) (sr self) (stype self) (btype self) (shiftreg self)
     (depth_half self) (sr_cnt self) v (buf_max self) (buf_half self)
     (acc self) (threshold self) (cycle self).
Definition set_acc (v : list Q) (self : t) : t :=
  mk (depth self) (encode self) (sr self) (stype self) (btype self) (shiftreg self)
     (depth_half self) (sr_cnt self) (init_ self) (buf_max self) (buf_half self)
     v (threshold self) (cycle self).
Definition set_cycle (v : Q) (self : t) : t :=
  mk (depth self) (encode self) (sr self) (stype self) (btype self) (shiftreg self)
     (depth_half self) (sr_cnt self) (init_ self) (buf_max self) (buf_half self)
     (acc self) (threshold self) v.

(** [torch.zeros(1).fill_(v)] for a Python number [v]: an [int] that does
    not fit in 64 bits raises [OverflowError]; the float32 tensor holds the
    float32 nearest to [v]. *)
Definition fill_ (is_int : bool) (v : Q) : result Q :=
  if is_int && (Qle_bool (Qpower 2 64) v || negb (Qle_bool (- Qpower 2 63) v))
  then Raise OverflowError
  else Ok (f32 v).

(** [torch.zeros(1).fill_(2**(bitwidth - 1))], the threshold of the
    temporal-coded ReLU: [2**e] is an [int] for [e >= 0], which has to fit
    in 64 bits, and a [float] otherwise; a power of two in the exponent
    range of float32 ([e >= -149]) is a float32, and is written as it
    is. *)
Definition fill_pow2 (e : Z) : result Q :=
  if (64 <=? e)%Z then Raise OverflowError else Ok (Qpower 2 e).

(** [UnaryReLU.__init__] *)
Definition init (depth bitwidth : Z) (encode : string) (shiftreg : bool)
  (btype stype : dtype) : result t :=
  sreg <-! (if shiftreg then
              if (depth <=? 127)%Z
              then
                dhalf <-! fill_ false (inject_Z depth / 2) ;;
                Ok (ShiftReg.init depth, astype btype dhalf,
                    [astype stype 0], true)
              else Raise (AssertionError
                "When using shift register implementation, buffer depth should be less than 127.")
            else Ok (ShiftReg.init 0, 0, [], false)) ;;
  let '(reg, dhalf, cnt, ini) := sreg in
  if encode =? "RC" then
    bmax <-! fill_ (0 <=? depth)%Z (Qpower 2 depth - 1) ;;
    bhalf <-! fill_ (0 <=? depth - 1)%Z (Qpower 2 (depth - 1)) ;;
    acc0 <-! fill_ (0 <=? depth - 1)%Z (Qpower 2 (depth - 1)) ;;
    Ok (mk depth encode shiftreg stype btype reg dhalf cnt ini
           (astype btype bmax)
           (astype btype bhalf)
           [astype btype acc0]
           0 0)
  else if encode =? "TC" then
    thr <-! fill_pow2 (bitwidth - 1) ;;
    Ok (mk depth encode shiftreg stype btype reg dhalf cnt ini
           0 0
           [astype btype 0]
           (astype btype thr)
           (astype btype 0))
  else Raise (ValueError "UnaryReLU encode other than RC, TC is illegal.").

(** The output of the rate-coded ReLU (line 44), read off [self]. *)
Definition rc_output (self : t) (input : list Q) : result (list Z) :=
  let half_prob_flag := map (fun a => flagZ (ge a (buf_half self))) (acc self) in
  bmap2 (fun i f => Z.lor i (wrap8 (1 - f))) (map to_int8 input) half_prob_flag.

(** The accumulator of line 46 for an accumulator [a] and an output bit
    [o]: [a] plus or minus one, as the type [btype] holds the sum, clamped
    to [[0, buf_max]]. *)
Definition rc_acc (self : t) (a : Q) (o : Z) : Q :=
  clamp 0 (buf_max self)
    (store (btype self)
       (a + astype (btype self) (to_float (wrap8 (wrap8 (o * 2) - 1))))).

(** [UnaryReLU.UnaryReLU_forward_rc] *)
Definition UnaryReLU_forward_rc (input : list Q) : M t (list Q) :=
  self <- get ;;
  output <- lift (rc_output self input) ;;
  acc' <- lift (bmap2 (rc_acc self) (acc self) output) ;;
  modify (set_acc acc') ;;
  ret (map (fun o => astype (stype self) (to_float o)) output).

(** The output of the smoothed ReLU (lines 51-55), read off [self]. *)
Definition rc_sr_output (self : t) (input : list Q) : result (list Q) :=
  if init_ self then
    Ok (map (fun _ => astype (stype self) 1) input)
  else
    bmap2 (fun c i => astype (stype self)
                        (to_float (Z.lor (flagZ (lt c (depth_half self))) i)))
          (sr_cnt self) (map to_int8 input).

(** [UnaryReLU.UnaryReLU_forward_rc_sr] *)
Definition UnaryReLU_forward_rc_sr (input : list Q) : M t (list Q) :=
  self <- get ;;
  output <- lift (rc_sr_output self input) ;;
  (if init_ self then modify (set_init false) else ret tt) ;;
  cnt <- (fun self : t =>
            match ShiftReg.forward output (shiftreg self) with
            | (Ok (_, cnt), reg) => (Ok cnt, set_shiftreg reg self)
            | (Raise e, reg) => (Raise e, set_shiftreg reg self)
            end) ;;
  modify (set_sr_cnt cnt) ;;
  self <- get ;;
  ret (map (astype (stype self)) output).

(** The output of the temporal-coded ReLU (line 68), read off [self]. *)
Definition tc_output (self : t) (input : list Q) : result (list Q) :=
  let bt := astype (btype self) in
  let half_cycle_flag := bt (flagQ (gt (cycle self) (threshold self))) in
  let half_prob_flag := map (fun a => bt (flagQ (gt a (threshold self)))) (acc self) in
  let first := map (fun a => (1 - half_cycle_flag) * bt (flagQ (ge (cycle self) a)))
                   (acc self) in
  second <-! bmap2 (fun p i => half_cycle_flag * p * bt i) half_prob_flag input ;;
  bmap2 Qplus first second.

(** [UnaryReLU.UnaryReLU_forward_tc] *)
Definition UnaryReLU_forward_tc (input : list Q) : M t (list Q) :=
  modify (fun self => set_cycle (count_in (btype self) (cycle self + 1)) self) ;;
  self <- get ;;
  acc' <- lift (bmap2 (fun a i => count_in (btype self) (a + i))
                      (acc self) (map (astype (btype self)) input)) ;;
  modify (set_acc acc') ;;
  self <- get ;;
  output <- lift (tc_output self input) ;;
  ret (map (astype (stype self)) output).

(** [UnaryReLU.forward].  With an [encode] that is neither ["RC"] nor ["TC"]
    the method falls through and returns [None]; the constructor rejects such
    an [encode], and the case is written here as an exception. *)
Definition forward (input : list Q) : M t (list Q) :=
  self <- get ;;
  if encode self =? "RC" then
    if negb (sr self) then UnaryReLU_forward_rc input
    else UnaryReLU_forward_rc_sr input
  else if encode self =? "TC" then UnaryReLU_forward_tc input
  else raise AttributeError.

End UnaryReLU.

(* ===================================================================== *)
(** ** Matrices                                                            *)
(* ===================================================================== *)

(** Run a fallible function over a list, stopping at the first exception. *)
Fixpoint rmapM {A B} (f : A -> result B) (l : list A) : result (list B) :=
  match l with
  | [] => Ok []
  | x :: l' => y <-! f x ;; ys <-! rmapM f l' ;; Ok (y :: ys)
  end.

(** One output of [torch.nn.functional.linear]: the dot product of the input
    vector with a weight row; the lengths have to agree. *)
Definition dot (x w : list Q) : result Q :=
  if Nat.eqb (length x) (length w) then Ok (Qsum (map2 Qmult x w))
  else Raise RuntimeError.

(** [torch.nn.functional.linear(x, weight, bias)] for one input vector. *)
Definition linear (weight : list (list Q)) (bias : option (list Q)) (x : list Q)
  : result (list Q) :=
  out <-! rmapM (dot x) weight ;;
  match bias with
  | None => Ok out
  | Some b => bmap2_ Qplus out b
  end.

Definition zeros2 {A} (z : A) (rows cols : nat) : list (list A) :=
  repeat (repeat z cols) rows.

(* ===================================================================== *)
(** ** sw/kernel/linear.py: UnaryLinear                                    *)
(* ===================================================================== *)

Module UnaryLinear.

(** The weights and bias of [kernel] and [kernel_inv] are written by every
    cycle before they are read; their random initial values are not kept. *)
Record t : Type := mk {
  in_features : nat;
  out_features : nat;
  stype : dtype;
  acc_bound : Q;
  mode : string;
  scaled : bool;
  offset : Q;
  has_bias : bool;
  bitwidth : Z;
  rng : list Q;
  buf_wght : list (list Q);
  buf_bias : list Q;
  kernel_weight : list (list Q);
  kernel_bias : list Q;
  rng_wght_idx : list (list Z);
  rng_bias_idx : list Z;
  kernel_inv_weight : list (list Q);
  rng_wght_idx_inv : list (list Z);
  accumulator : list Q;
  (** exists only when [scaled] is [False] *)
  out_accumulator : option (list Q)
}.

Definition set_kernel_weight (v : list (list Q)) (s : t) : t :=
  mk (in_features s) (out_features s) (stype s) (acc_bound s) (mode s) (scaled s)
     (offset s) (has_bias s) (bitwidth s) (rng s) (buf_wght s) (buf_bias s)
     v (kernel_bias s) (rng_wght_idx s) (rng_bias_idx s)
     (kernel_inv_weight s) (rng_wght_idx_inv s) (accumulator s) (out_accumulator s).
Definition set_kernel_bias (v : list Q) (s : t) : t :=
  mk (in_features s) (out_features s) (stype s) (acc_bound s) (mode s) (scaled s)
     (offset s) (has_bias s) (bitwidth s) (rng s) (buf_wght s) (buf_bias s)
     (kernel_weight s) v (rng_wght_idx s) (rng_bias_idx s)
     (kernel_inv_weight s) (rng_wght_idx_inv s) (accumulator s) (out_accumulator s).
Definition set_rng_wght_idx (v : list (list Z)) (s : t) : t :=
  mk (in_features s) (out_features s) (stype s) (acc_bound s) (mode s) (scaled s)
     (offset s) (has_bias s) (bitwidth s) (rng s) (buf_wght s) (buf_bias s)
     (kernel_weight s) (kernel_bias s) v (rng_bias_idx s)
     (kernel_inv_weight s) (rng_wght_idx_inv s) (accumulator s) (out_accumulator s).
Definition set_rng_bias_idx (v : list Z) (s : t) : t :=
  mk (in_features s) (out_features s) (stype s) (acc_bound s) (mode s) (scaled s)
     (offset s) (has_bias s) (bitwidth s) (rng s) (buf_wght s) (buf_bias s)
     (kernel_weight s) (kernel_bias s) (rng_wght_idx s) v
     (kernel_inv_weight s) (rng_wght_idx_inv s) (accumulator s) (out_accumulator s).
Definition set_kernel_inv_weight (v : list (list Q)) (s : t) : t :=
  mk (in_features s) (out_features s) (stype s) (acc_bound s) (mode s) (scaled s)
     (offset s) (has_bias s) (bitwidth s) (rng s) (buf_wght s) (buf_bias s)
     (kernel_weight s) (kernel_bias s) (rng_wght_idx s) (rng_bias_idx s)
     v (rng_wght_idx_inv s) (accumulator s) (out_accumulator s).
Definition set_rng_wght_idx_inv (v : list (list Z)) (s : t) : t :=
  mk (in_features s) (out_features s) (stype s) (acc_bound s) (mode s) (scaled s)
     (offset s) (has_bias s) (bitwidth s) (rng s) (buf_wght s) (buf_bias s)
     (kernel_weight s) (kernel_bias s) (rng_wght_idx s) (rng_bias_idx s)
     (kernel_inv_weight s) v (accumulator s) (out_accumulator s).
Definition set_accumulator (v : list Q) (s : t) : t :=
  mk (in_features s) (out_features s) (stype s) (acc_bound s) (mode s) (scaled s)
     (offset s) (has_bias s) (bitwidth s) (rng s) (buf_wght s) (buf_bias s)
     (kernel_weight s) (kernel_bias s) (rng_wght_idx s) (rng_bias_idx s)
     (kernel_inv_weight s) (rng_wght_idx_inv s) v (out_accumulator s).
Definition set_out_accumulator (v : list Q) (s : t) : t :=
  mk (in_features s) (out_features s) (stype s) (acc_bound s) (mode s) (scaled s)
     (offset s) (has_bias s) (bitwidth s) (rng s) (buf_wght s) (buf_bias s)
     (kernel_weight s) (kernel_bias s) (rng_wght_idx s) (rng_bias_idx s)
     (kernel_inv_weight s) (rng_wght_idx_inv s) (accumulator s) (Some v).

Section Init.

Variable RNG : Z -> Z -> string -> list Q.
Variable SourceGen : Q -> Z -> string -> Q.

(** [UnaryLinear.__init__] *)
Definition init (in_features out_features : nat)
  (binary_weight : list (list Q)) (binary_bias : list Q)
  (bitwidth : Z) (bias : bool) (mode : string) (scaled : bool) (stype : dtype)
  : result t :=
  let acc_bound := 0 + inject_Z (Z.of_nat in_features) in
  let acc_bound := if bias then acc_bound + 1 else acc_bound in
  offset <-! (if mode =? "unipolar" then Ok 0
              else if mode =? "bipolar" then
                let offset := 0 + (inject_Z (Z.of_nat in_features) - 1) / 2 in
                Ok (if bias then offset + 1 / 2 else offset)
              else Raise (ValueError "UnaryLinear mode is not implemented.")) ;;
  let src p := SourceGen p bitwidth mode in
  Ok (mk in_features out_features stype acc_bound mode scaled offset bias bitwidth
         (RNG bitwidth 1 "Sobol")
         (map (map src) binary_weight)
         (if bias then map src binary_bias else [])
         (zeros2 0 out_features in_features)
         (if bias then repeat 0 out_features else [])
         (zeros2 0%Z out_features in_features)
         (if bias then repeat 0%Z out_features else [])
         (if mode =? "bipolar" then zeros2 0 out_features in_features else [])
         (if mode =? "bipolar" then zeros2 0%Z out_features in_features else [])
         [0]
         (if scaled then None else Some [0])).

End Init.

(** [UnaryLinear.UnaryKernel_accumulation] for one input vector (a 1-D
    tensor of [in_features] bits).  With a mode that is neither ["unipolar"]
    nor ["bipolar"] the method returns [None] and the addition of line 107
    raises [TypeError]; the constructor rejects such a mode. *)
Definition UnaryKernel_accumulation (input : list Q) : M t (list Q) :=
  self <- get ;;
  modify (set_kernel_weight
            (map (map to_float) (BSGen2 (buf_wght self) (rng self) (rng_wght_idx self)))) ;;
  idx <- lift (rmapM (fun row => bmap2_ Z.add row (map to_long input))
                     (rng_wght_idx self)) ;;
  modify (set_rng_wght_idx idx) ;;
  (if has_bias self then
     bbit <- lift (BSGen (buf_bias self) (rng self) (rng_bias_idx self)) ;;
     modify (set_kernel_bias (map to_float bbit)) ;;
     modify (set_rng_bias_idx (map (fun i => (i + 1)%Z) (rng_bias_idx self)))
   else ret tt) ;;
  self <- get ;;
  kernel_out <- lift (linear (kernel_weight self)
                        (if has_bias self then Some (kernel_bias self) else None)
                        input) ;;
  if mode self =? "unipolar" then ret kernel_out
  else if mode self =? "bipolar" then
    modify (set_kernel_inv_weight
              (map (map (fun b => 1 - to_float b))
                   (BSGen2 (buf_wght self) (rng self) (rng_wght_idx_inv self)))) ;;
    idx_inv <- lift (rmapM (fun row => bmap2_ Z.add row
                                         (map (fun x => (1 - to_long x)%Z) input))
                           (rng_wght_idx_inv self)) ;;
    modify (set_rng_wght_idx_inv idx_inv) ;;
    self <- get ;;
    kernel_out_inv <- lift (linear (kernel_inv_weight self) None
                              (map (fun x => 1 - x) input)) ;;
    lift (bmap2 Qplus kernel_out kernel_out_inv)
  else raise TypeError.

(** The threshold of line 109, read off the registers of [self]. *)
Definition threshold (self : t) : list Q :=
  map (fun a => flagQ (ge a (acc_bound self))) (accumulator self).

(** The comparison of line 113,
    [torch.gt(self.accumulator, self.out_accumulator)], read off the registers
    of [self]. *)
Definition compare (self : t) : result (list Q) :=
  match out_accumulator self with
  | None => Raise AttributeError
  | Some out_acc => bmap2 (fun a o => flagQ (gt a o)) (accumulator self) out_acc
  end.

(** [UnaryLinear.forward] *)
Definition forward (input : list Q) : M t (list Q) :=
  kernel_out_total <- UnaryKernel_accumulation input ;;
  self <- get ;;
  acc <- lift (bmap2 Qplus (accumulator self) kernel_out_total) ;;
  modify (set_accumulator acc) ;;
  self <- get ;;
  if scaled self then
    let output := threshold self in
    modify (set_accumulator
              (map2 (fun a o => a - o * acc_bound self) (accumulator self) output)) ;;
    ret (map (astype (stype self)) output)
  else
    modify (set_accumulator (map (fun a => a - offset self) (accumulator self))) ;;
    self <- get ;;
    output <- lift (compare self) ;;
    match out_accumulator self with
    | None => raise AttributeError
    | Some out_acc =>
        out_acc' <- lift (bmap2 Qplus out_acc output) ;;
        modify (set_out_accumulator out_acc') ;;
        ret (map (astype (stype self)) output)
    end.

End UnaryLinear.

(* ===================================================================== *)
(** ** kernel/linear.py: FSULinearPC                                       *)
(* ===================================================================== *)

(** [str.lower()] on ASCII letters. *)
Definition lower_ascii (c : ascii) : ascii :=
  let n := nat_of_ascii c in
  if (Nat.leb 65 n && Nat.leb n 90)%bool then ascii_of_nat (n + 32) else c.

Fixpoint lower (s : string) : string :=
  match s with
  | EmptyString => EmptyString
  | String c s' => String (lower_ascii c) (lower s')
  end.

(** Truth value of a Python string used as a condition: only the empty
    string is falsy. *)
Definition truthy (s : string) : bool := negb (s =? "").

(** Broadcasting binary operation whose element function can raise. *)
Definition bmapM2 {A B C} (f : A -> B -> result C) (a : list A) (b : list B)
  : result (list C) :=
  r <-! bmap2 f a b ;; rmapM (fun x => x) r.

(** [torch.cat(batch*[x], 0)]; concatenating an empty list of tensors
    raises. *)
Definition cat_batch {A} (batch : nat) (x : list A) : result (list A) :=
  if Nat.eqb batch 0 then Raise RuntimeError else Ok (concat (repeat x batch)).

Module FSULinearPC.

Record t : Type := mk {
  width : Z;
  mode : string;
  stype : dtype;
  has_bias : bool;
  wrng : list Q;
  (** exists only when a bias and an external bias are given *)
  brng : option (list Q);
  wtc : bool;
  weight : list (list Q);
  bias : list Q;
  (** batch x out_features x in_features *)
  wrdx_i1 : list (list (list Z));
  brdx : list Z;
  (** exists only in bipolar mode with [wtc] false *)
  wrdx_i0 : option (list (list (list Z)))
}.

Definition set_wrdx_i1 (v : list (list (list Z))) (s : t) : t :=
  mk (width s) (mode s) (stype s) (has_bias s) (wrng s) (brng s) (wtc s)
     (weight s) (bias s) v (brdx s) (wrdx_i0 s).
Definition set_brdx (v : list Z) (s : t) : t :=
  mk (width s) (mode s) (stype s) (has_bias s) (wrng s) (brng s) (wtc s)
     (weight s) (bias s) (wrdx_i1 s) v (wrdx_i0 s).
Definition set_wrdx_i0 (v : list (list (list Z))) (s : t) : t :=
  mk (width s) (mode s) (stype s) (has_bias s) (wrng s) (brng s) (wtc s)
     (weight s) (bias s) (wrdx_i1 s) (brdx s) (Some v).

Section Init.

(** [RNG(hwcfg, swcfg)()], given the width, the dimension and the kind. *)
Variable RNG : Z -> Z -> string -> list Q.
(** [BinGen(data, hwcfg, swcfg)()], element by element. *)
Variable BinGen : Q -> Z -> string -> Q.
(** The weight ([out_features] x [in_features]) and bias that
    [torch.nn.Linear.__init__] draws. *)
Variable weight_init : list (list Q).
Variable bias_init : list Q.

(** [FSULinearPC.__init__].  The message of each [assert] concatenates a
    string with [self], so a failing assertion surfaces as [TypeError]. *)
Definition init (in_features out_features : nat) (bias : bool)
  (weight_ext : option (list (list Q))) (bias_ext : option (list Q))
  (hw_width : Z) (hw_mode hw_rng : string) (hw_dimr : Z) (stype : dtype)
  : result t :=
  let mode := lower hw_mode in
  if negb ((mode =? "unipolar") || (mode =? "bipolar")) then Raise TypeError else
  let wrng := RNG hw_width hw_dimr hw_rng in
  let wtc := if (lower hw_rng =? "race") || truthy "tc" then true else false in
  weight <-! match weight_ext with
             | Some w =>
                 if (Nat.eqb (length w) out_features
                     && Nat.eqb (size_acc w) in_features)%bool
                 then Ok (map (map (fun x => BinGen x hw_width mode)) w)
                 else Raise TypeError
             | None => Ok weight_init
             end ;;
  bb <-! match bias, bias_ext with
         | true, Some b =>
             if Nat.eqb (length b) out_features
             then Ok (map (fun x => BinGen x hw_width mode) b,
                      Some (RNG hw_width hw_dimr "sobol"))
             else Raise TypeError
         | _, _ => Ok (if bias then bias_init else [], None)
         end ;;
  let '(bias_data, brng) := bb in
  brdx <-! (if bias then
              match brng with
              | Some _ => Ok (map (fun _ => 0%Z) bias_data)
              | None => Raise AttributeError
              end
            else Ok []) ;;
  let wrdx := [map (map (fun _ => 0%Z)) weight] in
  Ok (mk hw_width mode stype bias wrng brng wtc weight bias_data wrdx brdx
         (if (mode =? "bipolar") && negb wtc then Some wrdx else None)).

End Init.

(** [wbsg(wrdx)]: the weight bits of every batch entry, as floats. *)
Definition wbits (self : t) (wrdx : list (list (list Z))) : list (list (list Q)) :=
  map (fun idx => map (map to_float) (BSGen2 (weight self) (wrng self) idx)) wrdx.

(** [torch.add(wrdx, step.unsqueeze(1), out=wrdx)]: every row of the counters
    of batch entry [b] advances by the vector [step[b]]. *)
Definition advance (wrdx : list (list (list Z))) (step : list (list Z))
  : result (list (list (list Z))) :=
  bmapM2 (fun w x => rmapM (fun row => bmap2_ Z.add row x) w) wrdx step.

(** [torch.matmul(x.unsqueeze(1), wbit.transpose(1, 2)).squeeze_(1)] *)
Definition matmul (x : list (list Q)) (wbit : list (list (list Q)))
  : result (list (list Q)) :=
  bmapM2 (fun xb wb => rmapM (dot xb) wb) x wbit.

(** Lines 200-203 and 238-241: the bias bit and its counter. *)
Definition add_bias (out_i1 : list (list Q)) : M t (list (list Q)) :=
  self <- get ;;
  if has_bias self then
    match brng self with
    | None => raise AttributeError
    | Some brng =>
        bbit <- lift (BSGen (bias self) brng (brdx self)) ;;
        modify (set_brdx (map (fun i => (i + 1)%Z) (brdx self))) ;;
        lift (rmapM (fun row => bmap2_ Qplus row (map to_float bbit)) out_i1)
    end
  else ret out_i1.

(** [FSULinearPC.FSULinear_PC_wrc]: weight with rate coding. *)
Definition FSULinear_PC_wrc (input : list (list Q)) : M t (list (list Q)) :=
  self <- get ;;
  let batch := length input in
  let wbit_i1 := wbits self (wrdx_i1 self) in
  wbit_i1 <- (if negb (Nat.eqb (length wbit_i1) batch) then
                w <- lift (cat_batch batch wbit_i1) ;;
                r <- lift (cat_batch batch (wrdx_i1 self)) ;;
                modify (set_wrdx_i1 r) ;;
                ret w
              else ret wbit_i1) ;;
  self <- get ;;
  wrdx <- lift (advance (wrdx_i1 self) (map (map to_long) input)) ;;
  modify (set_wrdx_i1 wrdx) ;;
  out_i1 <- lift (matmul input wbit_i1) ;;
  out_i1 <- add_bias out_i1 ;;
  self <- get ;;
  if mode self =? "unipolar" then ret out_i1
  else if mode self =? "bipolar" then
    match wrdx_i0 self with
    | None => raise AttributeError
    | Some wrdx_i0 =>
        let wbit_i0 := map (map (map (fun b => 1 - b))) (wbits self wrdx_i0) in
        wbit_i0 <- (if negb (Nat.eqb (length wbit_i0) batch) then
                      w <- lift (cat_batch batch wbit_i0) ;;
                      r <- lift (cat_batch batch wrdx_i0) ;;
                      modify (set_wrdx_i0 r) ;;
                      ret w
                    else ret wbit_i0) ;;
        self <- get ;;
        match FSULinearPC.wrdx_i0 self with
        | None => raise AttributeError
        | Some wrdx_i0 =>
            wrdx <- lift (advance wrdx_i0
                            (map (map (fun x => (1 - to_long x)%Z)) input)) ;;
            modify (set_wrdx_i0 wrdx) ;;
            out_i0 <- lift (matmul (map (map (fun x => 1 - x)) input) wbit_i0) ;;
            lift (bmapM2 (bmap2 Qplus) out_i1 out_i0)
        end
    end
  else raise AttributeError.

(** [FSULinearPC.FSULinear_PC_wtc]: weight with temporal coding. *)
Definition FSULinear_PC_wtc (input : list (list Q)) : M t (list (list Q)) :=
  self <- get ;;
  let batch := length input in
  let wbit_i1 := wbits self (wrdx_i1 self) in
  wbit_i1 <- (if negb (Nat.eqb (length wbit_i1) batch) then
                w <- lift (cat_batch batch wbit_i1) ;;
                r <- lift (cat_batch batch (wrdx_i1 self)) ;;
                modify (set_wrdx_i1 r) ;;
                ret w
              else ret wbit_i1) ;;
  self <- get ;;
  wrdx <- lift (advance (wrdx_i1 self) (map (map (fun _ => 1%Z)) input)) ;;
  modify (set_wrdx_i1 wrdx) ;;
  out_i1 <- lift (matmul input wbit_i1) ;;
  out_i1 <- add_bias out_i1 ;;
  self <- get ;;
  if mode self =? "unipolar" then ret out_i1
  else if mode self =? "bipolar" then
    let wbit_i0 := map (map (map (fun b => 1 - b))) wbit_i1 in
    out_i0 <- lift (matmul (map (map (fun x => 1 - x)) input) wbit_i0) ;;
    lift (bmapM2 (bmap2 Qplus) out_i1 out_i0)
  else raise AttributeError.

(** [FSULinearPC.forward] *)
Definition forward (input : list (list Q)) : M t (list (list Q)) :=
  self <- get ;;
  out <- (if wtc self then FSULinear_PC_wtc input else FSULinear_PC_wrc input) ;;
  ret (map (map (astype (stype self))) out).

End FSULinearPC.

(* ===================================================================== *)
(** ** kernel/linear.py: the constructor of FXPLinear                      *)
(* ===================================================================== *)

Module FXPLinear.

(** The [bitwidth] argument: an integer or a pair. *)
Inductive bitwidth_arg : Type :=
| BwInt (bitwidth : Z)
| BwTuple (bw_input bw_wght : Z).

Record t : Type := mk {
  weight : list (list Q);
  bias : list Q;
  bw_input : Z;
  bw_wght : Z;
  max_abs_input : Q;
  max_abs_wght : Q;
  rounding : string;
  rshift_input : option Q;
  rshift_wght : option Q;
  rshift_output : option Q
}.

(** [int(x)] of a Python float. *)
Definition py_int (x : Q) : Z := Qtrunc x.

Section Init.

Variable weight_init : list (list Q).
Variable bias_init : list Q.

(** [FXPLinear.__init__] *)
Definition init (bias : bool)
  (weight_ext : option (list (list Q))) (bias_ext : option (list Q))
  (bitwidth : bitwidth_arg) (keep_res more_res rounding : string) : result t :=
  let weight := match weight_ext with Some w => w | None => weight_init end in
  let bias_data := match bias, bias_ext with
                   | true, Some b => b
                   | true, None => bias_init
                   | false, _ => []
                   end in
  bw <-! match bitwidth with
         | BwTuple b0 b1 => Ok ((b0 - 1)%Z, (b1 - 1)%Z)
         | BwInt bitwidth =>
             if keep_res =? "input" then Ok ((bitwidth - 1)%Z, (bitwidth - 1)%Z)
             else if keep_res =? "output" then
               if (bitwidth mod 2 =? 0)%Z then
                 Ok (py_int (inject_Z bitwidth / 2 - 1),
                     py_int (inject_Z bitwidth / 2 - 1))
               else if more_res =? "input" then
                 Ok (py_int ((inject_Z bitwidth + 1) / 2 - 1),
                     py_int ((inject_Z bitwidth - 1) / 2 - 1))
               else if more_res =? "weight" then
                 Ok (py_int ((inject_Z bitwidth - 1) / 2 - 1),
                     py_int ((inject_Z bitwidth + 1) / 2 - 1))
               else Raise (ValueError
                 "more_res should be either 'input' or 'weight' when bitwidth is not a tuple and keep_res is 'output'.")
             else Raise (ValueError
               "keep_res should be either 'input' or 'output' when bitwidth is not a tuple.")
         end ;;
  let '(bw_input, bw_wght) := bw in
  Ok (mk weight bias_data bw_input bw_wght
         (Qpower 2 bw_input) (Qpower 2 bw_wght) rounding None None None).

End Init.

End FXPLinear.

(* ===================================================================== *)
(** ** Vocabulary of the statements                                        *)
(* ===================================================================== *)

(** Two shapes broadcast against each other. *)
Definition compat (la lb : nat) : Prop := la = 1%nat \/ lb = 1%nat \/ la = lb.

(** The offset register after line 37. *)
Definition UnaryAdd_offset' (self : UnaryAdd.t) (n : Q) : Q :=
  if UnaryAdd.mode self =? "bipolar" then (n - 1) / 2 else UnaryAdd.offset self.

(** A small linear layer for concrete runs: two inputs, one output, no bias,
    magnitudes 2 and 4 against the index sequence 0, 2, 1, 3. *)
Definition rng4 : Z -> Z -> string -> list Q := fun _ _ _ => [0; 2; 1; 3].
Definition src_id : Q -> Z -> string -> Q := fun p _ _ => p.

Definition linear21 : UnaryLinear.t :=
  match UnaryLinear.init rng4 src_id 2 1 [[2; 4]] [] 2 false "unipolar" true torch_float with
  | Ok s => s
  | Raise _ => UnaryLinear.mk 0 0 torch_float 0 "" true 0 false 0 [] [] [] [] [] [] [] [] [] [] None
  end.

(** *** Runs of the scaled adder *)

(** One cycle of a run: the registers before the call, the input, the output
    and the registers after the call. *)
Record cycle : Type := mk_cycle {
  c_pre : UnaryAdd.t;
  c_input : Tensor2;
  c_out : list Q;
  c_post : UnaryAdd.t
}.

(** The cycles of feeding [inputs] to an adder, in order; an exception of a
    call ends the run with that exception. *)
Fixpoint UnaryAdd_run (self : UnaryAdd.t) (inputs : list Tensor2)
  : result (list cycle) :=
  match inputs with
  | [] => Ok []
  | x :: xs =>
      match UnaryAdd.forward x self with
      | (Ok out, self') =>
          rest <-! UnaryAdd_run self' xs ;;
          Ok (mk_cycle self x out self' :: rest)
      | (Raise e, _) => Raise e
      end
  end.

(** A window of [len] consecutive cycles starting at cycle [start]. *)
Definition window {A} (start len : nat) (l : list A) : list A :=
  firstn len (skipn start l).

(** In lane [j] of a cycle: the accumulator delta plus bound times output,
    and the exact number of input bits. *)
Definition carried (j : nat) (c : cycle) : Q :=
  (bget (UnaryAdd.accumulator (c_post c)) j 0
   - bget (UnaryAdd.accumulator (c_pre c)) j 0)
  + UnaryAdd.acc_bound (c_post c) * bget (c_out c) j 0.

Definition input_bits (j : nat) (c : cycle) : Q :=
  Qsum (bget (c_input c) j []).

(** A bit tensor with [m] output positions and [n] lanes along the reduction
    axis. *)
Definition bit_tensor (n m : nat) (x : Tensor2) : Prop :=
  length x = m /\ rect n x /\ bits2 x.

(** A tensor of shape [(m, n)], reduced along its axis of size [n]: [m]
    output positions of [n] lanes each. *)
Definition shape2 (m n : nat) (x : Tensor2) : Prop :=
  length x = m /\ rect n x.

(** Every lane of the accumulator lies in [[0, bound)]. *)
Definition in_range (bound : Q) (acc : list Q) : Prop :=
  Forall (fun a => 0 <= a /\ a < bound) acc.

(** The range property of the scaled adder for inputs of any fixed shape,
    an empty reduction axis included. *)
Definition scaled_range_any_shape : Prop :=
  forall mode acc_dim stype (n m : nat) (inputs : list Tensor2) cycles,
    Forall (bit_tensor n m) inputs ->
    UnaryAdd_run (UnaryAdd.init mode true acc_dim stype) inputs = Ok cycles ->
    Forall (fun c => in_range (inject_Z (Z.of_nat n))
                       (UnaryAdd.accumulator (c_post c))) cycles.

(** The registers an adder can hold during a run on tensors with [m] output
    positions: scaled, and an accumulator of shape [[1]] or of [m] lanes. *)
Definition run_state (m : nat) (self : UnaryAdd.t) : Prop :=
  UnaryAdd.scaled self = true /\
  (length (UnaryAdd.accumulator self) = 1%nat \/
   length (UnaryAdd.accumulator self) = m).

(** What one cycle of a run looks like. *)
Definition cycle_ok (m : nat) (c : cycle) : Prop :=
  run_state m (c_pre c) /\ run_state m (c_post c) /\
  length (c_input c) = m /\
  UnaryAdd.forward (c_input c) (c_pre c) = (Ok (c_out c), c_post c).

(** Consecutive cycles hand the registers over. *)
Fixpoint chained (self : UnaryAdd.t) (cycles : list cycle) : Prop :=
  match cycles with
  | [] => True
  | c :: rest => c_pre c = self /\ chained (c_post c) rest
  end.

(** *** The Gaines MUX *)

(** Lane [idx] along the reduction axis, at every output position. *)
Definition select_lane (input : Tensor2) (idx : nat) : list Q :=
  map (fun lanes => nth idx lanes 0) input.

(** The registers of a [GainesAdd] built over an index sequence that honours
    the contract of the index-sequence source (values not below 0), with the
    position register inside the sequence. *)
Definition GainesAdd_wf (self : GainesAdd.t) : Prop :=
  (0 <= GainesAdd.rng_idx self < Z.of_nat (length (GainesAdd.rng self)))%Z /\
  Forall (fun r => 0 <= r) (GainesAdd.rng self).

(** The random index the sequence supplies for the cycle. *)
Definition randNum (self : GainesAdd.t) : Q :=
  nth (Z.to_nat (GainesAdd.rng_idx self)) (GainesAdd.rng self) 0.

(** *** Lanes under broadcasting *)

(** A register seen by [m] lanes: of shape [[1]] or of [m] elements. *)
Definition lanes {A} (m : nat) (v : list A) : Prop :=
  length v = 1%nat \/ length v = m.

(** *** Runs of the static multiplier *)

(** The registers after each call of feeding [inputs] to a multiplier; the
    list ends early at a call that raises. *)
Fixpoint FSUMul_states (inputs : list (list Q)) (self : FSUMul.t) : list FSUMul.t :=
  match inputs with
  | [] => []
  | x :: xs =>
      match FSUMul.forward x self with
      | (Ok _, self') => self' :: FSUMul_states xs self'
      | (Raise _, _) => []
      end
  end.

(** A scalar bit tensor. *)
Definition scalar_bit (x : list Q) : Prop := exists b, x = [b] /\ is_bit b.

(** The two counters of a bipolar multiplier are the scalars [a] and [b]. *)
Definition counters (self : FSUMul.t) (a b : Z) : Prop :=
  FSUMul.rng_idx self = [a] /\ FSUMul.rng_idx_inv self = Some [b].

(** The integer value of a 0/1 float. *)
Definition bitZ (x : Q) : Z := Qfloor x.

(** The two path bits of lane [j] for a live input value [x], computed from
    the counters [idx] and [idx_inv]. *)
Definition path0_lane (self : FSUMul.t) (idx : list Z) (x : Q) (j : nat) : Z :=
  Z.land (to_int8 x)
         (BSGen_bit (FSUMul.rng self) (bget (FSUMul.source_gen self) j 0)
                    (bget idx j 0%Z)).

Definition path1_lane (self : FSUMul.t) (idx_inv : list Z) (x : Q) (j : nat) : Z :=
  Z.land (wrap8 (1 - to_int8 x))
         (wrap8 (1 - BSGen_bit (FSUMul.rng self) (bget (FSUMul.source_gen self) j 0)
                               (bget idx_inv j 0%Z))).

(** The bit the generator of a multiplier emits in lane [j] at the counter
    position [idx]. *)
Definition gen_bit (self : FSUMul.t) (idx : list Z) (j : nat) : Z :=
  BSGen_bit (FSUMul.rng self) (bget (FSUMul.source_gen self) j 0) (bget idx j 0%Z).

(** A small static multiplier for concrete runs: magnitude 2 against the
    index sequence 0, 2, 1, 3. *)
Definition mul_unipolar : FSUMul.t :=
  FSUMul.mk 2 "unipolar" true torch_float [0; 2; 1; 3] [2] [0%Z] None.

Definition mul_bipolar : FSUMul.t :=
  FSUMul.mk 2 "bipolar" true torch_float [0; 2; 1; 3] [2] [0%Z] (Some [0%Z]).

(** *** The order of output and register update *)

(** A cycle emits before it updates: whenever the call completes, its output
    is what the output rule of the component gives on the registers as the
    previous cycle left them. *)
Definition emits_before_update {S I O}
  (forward : I -> M S O) (rule : S -> I -> result O) : Prop :=
  forall self input out self',
    forward input self = (Ok out, self') -> rule self input = Ok out.

(** A cycle updates before it emits: whenever the call completes, its output
    is what the output rule gives on the registers after [update]. *)
Definition updates_before_emit {S I O}
  (forward : I -> M S O) (update : I -> S -> result S)
  (rule : S -> I -> result O) : Prop :=
  forall self input out self',
    forward input self = (Ok out, self') ->
    exists mid, update input self = Ok mid /\ rule mid input = Ok out.

(** The output rule of [UnaryAdd]: the threshold of line 41 or the comparison
    of line 45, cast to [stype]. *)
Definition UnaryAdd_rule (self : UnaryAdd.t) (_ : Tensor2) : result (list Q) :=
  out <-! (if UnaryAdd.scaled self then Ok (UnaryAdd.threshold self)
           else UnaryAdd.compare self) ;;
  Ok (map (astype (UnaryAdd.stype self)) out).

(** The registers of [UnaryAdd] after lines 35-38 (and line 44 in the
    non-scaled mode). *)
Definition UnaryAdd_update (input : Tensor2) (self : UnaryAdd.t)
  : result UnaryAdd.t :=
  let s := UnaryAdd.set_acc_bound (inject_Z (Z.of_nat (size_acc input))) self in
  let s := if UnaryAdd.mode s =? "bipolar"
           then UnaryAdd.set_offset ((UnaryAdd.acc_bound s - 1) / 2) s else s in
  acc <-! bmap2 Qplus (UnaryAdd.accumulator s) (sum_acc input) ;;
  let s := UnaryAdd.set_accumulator acc s in
  Ok (if UnaryAdd.scaled s then s
      else UnaryAdd.set_accumulator
             (map (fun a => a - UnaryAdd.offset s) (UnaryAdd.accumulator s)) s).

(** The output rule of [GainesAdd]: the MUX of line 85 at the current random
    index, or the OR of line 89. *)
Definition GainesAdd_rule (self : GainesAdd.t) (input : Tensor2)
  : result (list Q) :=
  if GainesAdd.scaled self then
    randNum <-! py_getitem (GainesAdd.rng self) (GainesAdd.rng_idx self) ;;
    if negb (lt randNum (inject_Z (Z.of_nat (size_acc input))))
    then Raise (AssertionError
      "randNum should be smaller than the dimension size of addition.")
    else
      output <-! GainesAdd.index_select input (to_long randNum) ;;
      Ok (map (astype (GainesAdd.stype self)) output)
  else
    Ok (map (astype (GainesAdd.stype self))
          (map (fun s => flagQ (gt s 0)) (sum_acc input))).

(** The output rule of [FSUMul]: [path_0], or [path_0 | path_1]. *)
Definition FSUMul_rule (self : FSUMul.t) (input_0 : list Q) : result (list Q) :=
  p0 <-! FSUMul.path_0 self input_0 ;;
  out <-! (if FSUMul.mode self =? "unipolar" then Ok p0
           else if FSUMul.mode self =? "bipolar" then
             p1 <-! FSUMul.path_1 self input_0 ;;
             bmap2 Z.lor p0 p1
           else Raise (ValueError "FSUMul mode is not implemented.")) ;;
  Ok (map (fun b => astype (FSUMul.stype self) (to_float b)) out).

(** The output rule of [UnaryLinear], and its registers after the kernel and
    the accumulation of lines 106-107 (and line 112). *)
Definition UnaryLinear_rule (self : UnaryLinear.t) (_ : list Q) : result (list Q) :=
  out <-! (if UnaryLinear.scaled self then Ok (UnaryLinear.threshold self)
           else UnaryLinear.compare self) ;;
  Ok (map (astype (UnaryLinear.stype self)) out).

Definition UnaryLinear_update (input : list Q) (self : UnaryLinear.t)
  : result UnaryLinear.t :=
  match UnaryLinear.UnaryKernel_accumulation input self with
  | (Ok kernel_out_total, s) =>
      acc <-! bmap2 Qplus (UnaryLinear.accumulator s) kernel_out_total ;;
      let s := UnaryLinear.set_accumulator acc s in
      Ok (if UnaryLinear.scaled s then s
          else UnaryLinear.set_accumulator
                 (map (fun a => a - UnaryLinear.offset s) (UnaryLinear.accumulator s)) s)
  | (Raise e, _) => Raise e
  end.

(** The output rules of the three paths of [UnaryReLU], cast to [stype]. *)
Definition UnaryReLU_rc_rule (self : UnaryReLU.t) (input : list Q) : result (list Q) :=
  out <-! UnaryReLU.rc_output self input ;;
  Ok (map (fun o => astype (UnaryReLU.stype self) (to_float o)) out).

Definition UnaryReLU_rc_sr_rule (self : UnaryReLU.t) (input : list Q) : result (list Q) :=
  out <-! UnaryReLU.rc_sr_output self input ;;
  Ok (map (astype (UnaryReLU.stype self)) out).

Definition UnaryReLU_tc_rule (self : UnaryReLU.t) (input : list Q) : result (list Q) :=
  out <-! UnaryReLU.tc_output self input ;;
  Ok (map (astype (UnaryReLU.stype self)) out).

Definition UnaryReLU_rule (self : UnaryReLU.t) (input : list Q) : result (list Q) :=
  if UnaryReLU.encode self =? "RC" then
    if negb (UnaryReLU.sr self) then UnaryReLU_rc_rule self input
    else UnaryReLU_rc_sr_rule self input
  else if UnaryReLU.encode self =? "TC" then UnaryReLU_tc_rule self input
  else Raise AttributeError.

(** The registers of the temporal-coded [UnaryReLU] after lines 62 and 65. *)
Definition UnaryReLU_tc_update (input : list Q) (self : UnaryReLU.t)
  : result UnaryReLU.t :=
  let s := UnaryReLU.set_cycle
             (count_in (UnaryReLU.btype self) (UnaryReLU.cycle self + 1)) self in
  acc <-! bmap2 (fun a i => count_in (UnaryReLU.btype s) (a + i))
                (UnaryReLU.acc s) (map (astype (UnaryReLU.btype s)) input) ;;
  Ok (UnaryReLU.set_acc acc s).

(** A component that reads only what the previous cycle left: whenever a
    call completes, its output is the output rule on the registers the call
    started from, and the registers it leaves are [next] of the registers it
    started from and the input. *)
Definition emits_from_previous_state {S I O}
  (forward : I -> M S O) (rule : S -> I -> result O)
  (next : I -> S -> result S) : Prop :=
  forall self input out self',
    forward input self = (Ok out, self') ->
    rule self input = Ok out /\ next input self = Ok self'.

(** A component that accumulates first: whenever a call completes, its
    output is the output rule on the registers after [update], and the
    registers it leaves are [carry] of those registers. *)
Definition emits_from_updated_state {S I O}
  (forward : I -> M S O) (update : I -> S -> result S)
  (rule : S -> I -> result O) (carry : S -> result S) : Prop :=
  forall self input out self',
    forward input self = (Ok out, self') ->
    exists mid,
      update input self = Ok mid /\ rule mid input = Ok out /\
      carry mid = Ok self'.

(** The registers a scaled [GainesAdd] leaves: the position in the index
    sequence advanced by one, modulo the length of the sequence; the
    non-scaled adder writes nothing. *)
Definition GainesAdd_next (_ : Tensor2) (self : GainesAdd.t) : result GainesAdd.t :=
  Ok (if GainesAdd.scaled self
      then GainesAdd.set_rng_idx
             ((GainesAdd.rng_idx self + 1)
                mod Z.of_nat (length (GainesAdd.rng self)))%Z self
      else self).

(** The registers [FSUMul] leaves: [rng_idx] advanced by the input bit and,
    in bipolar mode, [rng_idx_inv] by its complement. *)
Definition FSUMul_next (input_0 : list Q) (self : FSUMul.t) : result FSUMul.t :=
  idx <-! bmap2 Z.add (FSUMul.rng_idx self) (map to_long input_0) ;;
  let s := FSUMul.set_rng_idx idx self in
  if FSUMul.mode self =? "unipolar" then Ok s
  else
    match FSUMul.rng_idx_inv self with
    | None => Raise AttributeError
    | Some idx_inv =>
        idx_inv' <-! bmap2 Z.add idx_inv
                       (map (fun x => (1 - to_long x)%Z) input_0) ;;
        Ok (FSUMul.set_rng_idx_inv idx_inv' s)
    end.

(** The registers the rate-coded [UnaryReLU] leaves: the accumulator moved
    by the output bit of the cycle ([rc_acc]). *)
Definition UnaryReLU_rc_next (input : list Q) (self : UnaryReLU.t)
  : result UnaryReLU.t :=
  out <-! UnaryReLU.rc_output self input ;;
  acc <-! bmap2 (UnaryReLU.rc_acc self) (UnaryReLU.acc self) out ;;
  Ok (UnaryReLU.set_acc acc self).

(** The registers the smoothed [UnaryReLU] leaves: the first-call flag
    cleared, the output of the cycle pushed into the shift register, and the
    population count of the register so obtained. *)
Definition UnaryReLU_rc_sr_next (input : list Q) (self : UnaryReLU.t)
  : result UnaryReLU.t :=
  out <-! UnaryReLU.rc_sr_output self input ;;
  let s := if UnaryReLU.init_ self then UnaryReLU.set_init false self else self in
  match ShiftReg.forward out (UnaryReLU.shiftreg self) with
  | (Ok (_, cnt), reg) =>
      Ok (UnaryReLU.set_sr_cnt cnt (UnaryReLU.set_shiftreg reg s))
  | (Raise e, _) => Raise e
  end.

(** What [UnaryAdd] writes after its output: the carry [bound * output]
    taken off the accumulator in scaled mode, the output counted in
    [out_accumulator] otherwise. *)
Definition UnaryAdd_carry (mid : UnaryAdd.t) : result UnaryAdd.t :=
  if UnaryAdd.scaled mid then
    Ok (UnaryAdd.set_accumulator
          (map2 (fun a o => a - o * UnaryAdd.acc_bound mid)
                (UnaryAdd.accumulator mid) (UnaryAdd.threshold mid)) mid)
  else
    out <-! UnaryAdd.compare mid ;;
    match UnaryAdd.out_accumulator mid with
    | None => Raise AttributeError
    | Some out_acc =>
        out_acc' <-! bmap2 Qplus out_acc out ;;
        Ok (UnaryAdd.set_out_accumulator out_acc' mid)
    end.

(** What [UnaryLinear] writes after its output, likewise. *)
Definition UnaryLinear_carry (mid : UnaryLinear.t) : result UnaryLinear.t :=
  if UnaryLinear.scaled mid then
    Ok (UnaryLinear.set_accumulator
          (map2 (fun a o => a - o * UnaryLinear.acc_bound mid)
                (UnaryLinear.accumulator mid) (UnaryLinear.threshold mid)) mid)
  else
    out <-! UnaryLinear.compare mid ;;
    match UnaryLinear.out_accumulator mid with
    | None => Raise AttributeError
    | Some out_acc =>
        out_acc' <-! bmap2 Qplus out_acc out ;;
        Ok (UnaryLinear.set_out_accumulator out_acc' mid)
    end.

(** The temporal-coded [UnaryReLU] writes nothing after its output. *)
Definition UnaryReLU_tc_carry (mid : UnaryReLU.t) : result UnaryReLU.t := Ok mid.

(** The ordering as the design document states it: every component emits
    before it updates. *)
Definition mutation_strictly_after_output : Prop :=
  emits_before_update UnaryAdd.forward UnaryAdd_rule /\
  emits_before_update GainesAdd.forward GainesAdd_rule /\
  emits_before_update FSUMul.forward FSUMul_rule /\
  emits_before_update UnaryLinear.forward UnaryLinear_rule /\
  emits_before_update UnaryReLU.forward UnaryReLU_rule.

(** The adder of the scenario after a first cycle on the lanes 1, 1, 0, 0:
    accumulator 2, bound 4. *)
Definition adder_after_one_cycle : UnaryAdd.t :=
  snd (UnaryAdd.forward [[1; 1; 0; 0]] (UnaryAdd.init "unipolar" true 0 torch_float)).

(** *** Runs of a component *)

(** The calls of feeding [inputs] to a component, in order: the output and
    the registers after each completed call; the list ends at the first call
    that raises. *)
Fixpoint run_calls {S I O} (forward : I -> M S O) (inputs : list I) (self : S)
  : list (O * S) :=
  match inputs with
  | [] => []
  | x :: xs =>
      match forward x self with
      | (Ok out, self') => (out, self') :: run_calls forward xs self'
      | (Raise _, _) => []
      end
  end.

(** The registers after call number [k] (counted from 0) of a run. *)
Definition state_after {S I O} (forward : I -> M S O) (inputs : list I)
  (self : S) (k : nat) : S :=
  nth k (map snd (run_calls forward inputs self)) self.

(** The output of call number [k] of a run ([d] if the run ended before). *)
Definition output_of {S I O} (forward : I -> M S O) (inputs : list I)
  (self : S) (k : nat) (d : O) : O :=
  nth k (map fst (run_calls forward inputs self)) d.

(** *** The rate-coded (non-scaled) adder *)

(** A float that holds an integer. *)
Definition is_int (q : Q) : Prop := exists z : Z, q == inject_Z z.


(** *** The smoothed ReLU *)

(** [depth/2] as a register of type [btype] holds it: the half itself in a
    float, its integer part in an integer type. *)
Definition depth_half_in (btype : dtype) (depth : Z) : Q :=
  match btype with
  | torch_float => inject_Z depth / 2
  | _ => inject_Z (depth / 2)
  end.

(** The smoothed ReLU as the design document states it, whatever the type
    of its registers: in a run from the constructor, every call after the
    first one outputs the input bit OR (population count < depth/2), the
    count being the one the call before left. *)
Definition smoothed_relu_any_btype : Prop :=
  forall depth bitwidth btype stype (self0 : UnaryReLU.t)
         (inputs : list (list Q)) (k : nat),
    (depth <= 127)%Z ->
    UnaryReLU.init depth bitwidth "RC" true btype stype = Ok self0 ->
    Forall (Forall is_bit) inputs ->
    (0 < k < length (run_calls UnaryReLU.forward inputs self0))%nat ->
    let before := state_after UnaryReLU.forward inputs self0 (k - 1) in
    let out := output_of UnaryReLU.forward inputs self0 k [] in
    forall j, (j < length out)%nat ->
      nth j out 0 ==
      to_float (Z.lor (flagZ (lt (bget (UnaryReLU.sr_cnt before) j 0)
                                 (inject_Z depth / 2)))
                      (bitZ (nth j (nth k inputs []) 0))).

(** *** The linear layer *)

(** A matrix of [rows] rows and [cols] columns. *)
Definition matrix {A} (rows cols : nat) (m : list (list A)) : Prop :=
  length m = rows /\ Forall (fun r => length r = cols) m.

(** The number of products one output of the layer adds up in a cycle: one
    per input feature, and one more for the bias. *)
Definition UnaryLinear_terms (self : UnaryLinear.t) : Q :=
  inject_Z (Z.of_nat (UnaryLinear.in_features self)) +
  (if UnaryLinear.has_bias self then 1 else 0).

(** The registers of a layer have the shapes the constructor gives them:
    the weights and their counters are [out_features] by [in_features], the
    bias and its counter hold [out_features] entries. *)
Definition UnaryLinear_shapes (self : UnaryLinear.t) : Prop :=
  let o := UnaryLinear.out_features self in
  let i := UnaryLinear.in_features self in
  matrix o i (UnaryLinear.buf_wght self) /\
  matrix o i (UnaryLinear.rng_wght_idx self) /\
  (UnaryLinear.has_bias self = true ->
   length (UnaryLinear.buf_bias self) = o /\
   length (UnaryLinear.rng_bias_idx self) = o) /\
  (UnaryLinear.mode self = "unipolar" \/
   (UnaryLinear.mode self = "bipolar" /\
    matrix o i (UnaryLinear.rng_wght_idx_inv self))).

(** The bit sum of output [j] of the layer in a cycle: the products of the
    input bits with the weight bits that the generators of row [j] emit at
    their counters, plus the bias bit if there is a bias, plus, in bipolar
    mode, the products of the complemented input bits with the complemented
    bits that the generators emit at the inverse counters. *)
Definition UnaryLinear_bit_sum (self : UnaryLinear.t) (input : list Q) (j : nat)
  : Q :=
  let bits idx :=
    map2 (BSGen_bit (UnaryLinear.rng self))
         (nth j (UnaryLinear.buf_wght self) []) (nth j idx []) in
  let k := Qsum (map2 Qmult input
                   (map to_float (bits (UnaryLinear.rng_wght_idx self)))) in
  let k := if UnaryLinear.has_bias self
           then k + to_float (BSGen_bit (UnaryLinear.rng self)
                                (nth j (UnaryLinear.buf_bias self) 0)
                                (nth j (UnaryLinear.rng_bias_idx self) 0%Z))
           else k in
  if UnaryLinear.mode self =? "unipolar" then k
  else k + Qsum (map2 Qmult (map (fun x => 1 - x) input)
                   (map (fun b => 1 - to_float b)
                        (bits (UnaryLinear.rng_wght_idx_inv self)))).

(** The registers of a scaled layer during a run: shapes as above, the bound
    is the number of terms, and every lane of the accumulator is in
    [[0, bound)]. *)
Definition UnaryLinear_run_state (self : UnaryLinear.t) : Prop :=
  UnaryLinear_shapes self /\
  UnaryLinear.scaled self = true /\
  UnaryLinear.acc_bound self == UnaryLinear_terms self /\
  lanes (UnaryLinear.out_features self) (UnaryLinear.accumulator self) /\
  in_range (UnaryLinear.acc_bound self) (UnaryLinear.accumulator self).

(** An input vector of the layer: [n] bits. *)
Definition bit_vector (n : nat) (x : list Q) : Prop :=
  length x = n /\ Forall is_bit x.

(** *** Tactics *)

(** Unfolding of the monad's operations. *)
Ltac munfold :=
  unfold bind, modify, get, gets, lift, ret, raise in *; simpl in *.

(** Case analysis on every test a monadic run went through, innermost
    scrutinee first. *)
Ltac minv :=
  repeat (match goal with
          | H : (_, _) = (_, _) |- _ => inversion H; subst; clear H
          | H : Ok _ = Ok _ |- _ => inversion H; subst; clear H
          | H : Ok _ = Raise _ |- _ => discriminate H
          | H : Raise _ = Ok _ |- _ => discriminate H
          | H : context [match ?x with _ => _ end] |- _ =>
              lazymatch x with
              | context [match _ with _ => _ end] => fail
              | _ => let E := fresh "E" in destruct x eqn:E
              end
          end; simpl in *).

(** Concrete bit tensors of a given shape. *)
Ltac bit_tensors :=
  unfold bit_tensor, rect, bits2;
  repeat match goal with
         | |- Forall _ _ => constructor
         | |- _ /\ _ => split
         | |- is_bit _ => (left; reflexivity) || (right; reflexivity)
         | |- length _ = _ => reflexivity
         end.

(** Replay in the goal the tests a run went through. *)
Ltac replay :=
  repeat match goal with
         | E : ?x = _ |- context [?x] => rewrite E; simpl
         end.

(* ===================================================================== *)
(** * Properties                                                           *)
(* ===================================================================== *)

(** Arithmetic stays folded under [simpl]. *)
#[local] Arguments Z.add : simpl never.
#[local] Arguments Z.sub : simpl never.
#[local] Arguments Z.mul : simpl never.
#[local] Arguments Z.opp : simpl never.
#[local] Arguments Z.modulo : simpl never.
#[local] Arguments Z.land : simpl never.
#[local] Arguments Z.lor : simpl never.
#[local] Arguments Z.of_nat : simpl never.
#[local] Arguments Z.to_nat : simpl never.
#[local] Arguments Qplus : simpl never.
#[local] Arguments Qminus : simpl never.
#[local] Arguments Qmult : simpl never.
#[local] Arguments Qdiv : simpl never.
#[local] Arguments Qopp : simpl never.
#[local] Arguments Qpower : simpl never.
#[local] Arguments inject_Z : simpl never.
#[local] Arguments String.eqb : simpl never.

(** ** Lists and broadcasting *)

Lemma map2_length {A B C} (f : A -> B -> C) (a : list A) (b : list B) :
  length a = length b -> length (map2 f a b) = length a.
Proof.
  revert b; induction a as [|x a IH]; intros [|y b] H; simpl in *;
    try discriminate; auto.
Qed.

Lemma nth_map2 {A B C} (f : A -> B -> C) (a : list A) (b : list B) j da db dc :
  length a = length b -> (j < length a)%nat ->
  nth j (map2 f a b) dc = f (nth j a da) (nth j b db).
Proof.
  revert b j; induction a as [|x a IH]; intros [|y b] j H Hj; simpl in *;
    try discriminate; try lia.
  destruct j as [|j]; [reflexivity|]. apply IH; lia.
Qed.

Lemma nth_map_in {A B} (f : A -> B) (l : list A) j da db :
  (j < length l)%nat -> nth j (map f l) db = f (nth j l da).
Proof.
  intros Hj. rewrite (nth_indep _ db (f da)) by (rewrite length_map; exact Hj).
  apply map_nth.
Qed.

Lemma bget_single {A} (x : A) j d : bget [x] j d = x.
Proof. reflexivity. Qed.

Lemma bget_nth {A} (v : list A) j d :
  (j < length v)%nat -> bget v j d = nth j v d.
Proof.
  destruct v as [|x [|y v]]; simpl; intros Hj; try reflexivity.
  destruct j; [reflexivity | lia].
Qed.

Lemma bmap2_Ok {A B C} (f : A -> B -> C) (a : list A) (b : list B) :
  compat (length a) (length b) ->
  exists c, bmap2 f a b = Ok c.
Proof.
  unfold compat, bmap2. intros H.
  destruct a as [|x [|x' a]]; destruct b as [|y [|y' b]]; simpl in *;
    try (eexists; reflexivity);
    try (exfalso; destruct H as [H|[H|H]]; discriminate).
  destruct H as [H|[H|H]]; try discriminate.
  injection H as H. rewrite H, Nat.eqb_refl. eexists; reflexivity.
Qed.

Lemma bmap2_left {A B C} (f : A -> B -> C) x b :
  bmap2 f [x] b = Ok (map (f x) b).
Proof. reflexivity. Qed.

Lemma bmap2_right {A B C} (f : A -> B -> C) a y :
  length a <> 1%nat -> bmap2 f a [y] = Ok (map (fun u => f u y) a).
Proof. destruct a as [|x [|x' a]]; simpl; intros H; congruence. Qed.

Lemma bmap2_same {A B C} (f : A -> B -> C) a b :
  length a <> 1%nat -> length b <> 1%nat ->
  bmap2 f a b = if Nat.eqb (length a) (length b) then Ok (map2 f a b)
                else Raise RuntimeError.
Proof.
  destruct a as [|x [|x' a]]; destruct b as [|y [|y' b]]; simpl; intros Ha Hb;
    congruence.
Qed.

Lemma length_one {A} (l : list A) : length l = 1%nat -> exists x, l = [x].
Proof. destruct l as [|x [|y l]]; simpl; intros H; try discriminate. now exists x. Qed.

Lemma bmap2_spec {A B C} (f : A -> B -> C) (a : list A) (b : list B) c :
  bmap2 f a b = Ok c ->
  length c = blen (length a) (length b) /\
  forall j da db dc, (j < length c)%nat ->
    nth j c dc = f (bget a j da) (bget b j db).
Proof.
  intros H. unfold blen.
  destruct (Nat.eq_dec (length a) 1) as [Ha|Ha].
  - destruct (length_one _ Ha) as [x ->]. rewrite bmap2_left in H.
    injection H as <-. simpl. split; [apply length_map|].
    intros j da db dc Hj. rewrite length_map in Hj.
    rewrite (nth_map_in _ _ _ db _) by exact Hj.
    rewrite bget_nth by exact Hj. reflexivity.
  - apply Nat.eqb_neq in Ha as Ha'. rewrite Ha'.
    destruct (Nat.eq_dec (length b) 1) as [Hb|Hb].
    + destruct (length_one _ Hb) as [y ->]. rewrite bmap2_right in H by exact Ha.
      injection H as <-. split; [apply length_map|].
      intros j da db dc Hj. rewrite length_map in Hj.
      rewrite (nth_map_in _ _ _ da _) by exact Hj.
      rewrite bget_nth by exact Hj. reflexivity.
    + rewrite bmap2_same in H by assumption.
      destruct (Nat.eqb (length a) (length b)) eqn:E; [|discriminate].
      apply Nat.eqb_eq in E. injection H as <-.
      rewrite map2_length by exact E. split; [reflexivity|].
      intros j da db dc Hj.
      rewrite (nth_map2 _ _ _ _ da db _) by (auto; lia).
      rewrite !bget_nth by lia. reflexivity.
Qed.

Lemma astype_flagQ t b : astype t (flagQ b) = flagQ b.
Proof. destruct t, b; reflexivity. Qed.

Lemma ge_spec a b : ge a b = true <-> b <= a.
Proof. unfold ge. apply Qle_bool_iff. Qed.

Lemma gt_spec a b : gt a b = true <-> b < a.
Proof.
  unfold gt. rewrite negb_true_iff. split.
  - intros H. apply Qnot_le_lt. intros Hle. apply Qle_bool_iff in Hle. congruence.
  - intros H. destruct (Qle_bool a b) eqn:E; [|reflexivity].
    apply Qle_bool_iff in E. exfalso. apply (Qlt_not_le _ _ H E).
Qed.

Lemma lt_spec a b : lt a b = true <-> a < b.
Proof. unfold lt. apply (gt_spec b a). Qed.

Lemma map2_map_diag {A B C} (f : A -> B -> C) (g : A -> B) (l : list A) :
  map2 f l (map g l) = map (fun a => f a (g a)) l.
Proof. induction l as [|x l IH]; simpl; [reflexivity | now rewrite IH]. Qed.

(** ** UnaryAdd: one scaled cycle *)

Lemma UnaryAdd_forward_scaled (self : UnaryAdd.t) (input : Tensor2) acc1 :
  UnaryAdd.scaled self = true ->
  bmap2 Qplus (UnaryAdd.accumulator self) (sum_acc input) = Ok acc1 ->
  let n := inject_Z (Z.of_nat (size_acc input)) in
  UnaryAdd.forward input self =
  (Ok (map (fun a => flagQ (ge a n)) acc1),
   UnaryAdd.mk (UnaryAdd.mode self) true (UnaryAdd.acc_dim self) (UnaryAdd.stype self)
     n (UnaryAdd_offset' self n)
     (map (fun a => a - flagQ (ge a n) * n) acc1)
     (UnaryAdd.out_accumulator self)).
Proof.
  intros Hs Hacc n. unfold UnaryAdd.forward, UnaryAdd_offset'. munfold.
  destruct (UnaryAdd.mode self =? "bipolar"); simpl; rewrite Hacc; simpl;
    rewrite Hs; simpl; unfold UnaryAdd.threshold; simpl;
    rewrite map2_map_diag, map_map;
    (f_equal;
     [ f_equal; apply map_ext; intros a; apply astype_flagQ
     | unfold UnaryAdd.set_accumulator, UnaryAdd.set_offset, UnaryAdd.set_acc_bound;
       simpl; rewrite Hs; reflexivity ]).
Qed.

(** ** UnaryLinear: the kernel leaves the accumulator registers alone *)

Lemma UnaryKernel_accumulation_frame input self r self' :
  UnaryLinear.UnaryKernel_accumulation input self = (r, self') ->
  UnaryLinear.accumulator self' = UnaryLinear.accumulator self /\
  UnaryLinear.acc_bound self' = UnaryLinear.acc_bound self /\
  UnaryLinear.scaled self' = UnaryLinear.scaled self /\
  UnaryLinear.stype self' = UnaryLinear.stype self /\
  UnaryLinear.offset self' = UnaryLinear.offset self /\
  UnaryLinear.out_accumulator self' = UnaryLinear.out_accumulator self.
Proof.
  unfold UnaryLinear.UnaryKernel_accumulation. munfold. intros H.
  minv; auto 10.
Qed.

Lemma UnaryLinear_forward_scaled input (self : UnaryLinear.t) k self1 acc1 :
  UnaryLinear.scaled self = true ->
  UnaryLinear.UnaryKernel_accumulation input self = (Ok k, self1) ->
  bmap2 Qplus (UnaryLinear.accumulator self) k = Ok acc1 ->
  let n := UnaryLinear.acc_bound self in
  UnaryLinear.forward input self =
  (Ok (map (fun a => flagQ (ge a n)) acc1),
   UnaryLinear.set_accumulator (map (fun a => a - flagQ (ge a n) * n) acc1) self1).
Proof.
  intros Hs Hk Hacc n.
  destruct (UnaryKernel_accumulation_frame _ _ _ _ Hk) as (Fa & Fb & Fs & Ft & _).
  unfold UnaryLinear.forward. munfold. rewrite Hk, Fa, Hacc. simpl.
  rewrite Fs, Hs. simpl. unfold UnaryLinear.threshold. simpl.
  rewrite Fb, map2_map_diag, map_map. fold n.
  f_equal. f_equal. apply map_ext. intros a. apply astype_flagQ.
Qed.

Lemma bget_map {A B} (f : A -> B) (l : list A) j d :
  bget (map f l) j (f d) = f (bget l j d).
Proof.
  destruct l as [|x [|y l]];
    [ destruct j; reflexivity | reflexivity | apply (map_nth f (x :: y :: l) d j) ].
Qed.

(** The arithmetic of one scaled cycle on an accumulate-then-threshold
    register, lane by lane. *)
Lemma scaled_lanes (acc k acc1 : list Q) (n : Q) :
  bmap2 Qplus acc k = Ok acc1 ->
  let out := map (fun a => flagQ (ge a n)) acc1 in
  let acc' := map (fun a => a - flagQ (ge a n) * n) acc1 in
  let L := blen (length acc) (length k) in
  length out = L /\ length acc' = L /\
  forall j, (j < L)%nat ->
    let A := bget acc j 0 + bget k j 0 in
    nth j out 0 = (if Qle_bool n A then 1 else 0) /\
    nth j acc' 0 = A - nth j out 0 * n.
Proof.
  intros H out acc' L. destruct (bmap2_spec _ _ _ _ H) as [Hlen Hnth].
  subst out acc' L. rewrite !length_map. repeat split; auto.
  - rewrite (nth_map_in _ _ _ 0 _) by lia. rewrite (Hnth j 0 0 0) by lia. reflexivity.
  - rewrite !(nth_map_in _ _ _ 0 _) by lia. rewrite (Hnth j 0 0 0) by lia. reflexivity.
Qed.

(** One scaled cycle of [UnaryAdd], lane by lane. *)
Lemma UnaryAdd_scaled_lanes (self : UnaryAdd.t) (input : Tensor2) :
  UnaryAdd.scaled self = true ->
  compat (length (UnaryAdd.accumulator self)) (length input) ->
  exists out self',
    UnaryAdd.forward input self = (Ok out, self') /\
    let n := inject_Z (Z.of_nat (size_acc input)) in
    let L := blen (length (UnaryAdd.accumulator self)) (length input) in
    UnaryAdd.scaled self' = true /\
    UnaryAdd.acc_bound self' = n /\
    length out = L /\ length (UnaryAdd.accumulator self') = L /\
    forall j, (j < L)%nat ->
      let A := bget (UnaryAdd.accumulator self) j 0 + Qsum (bget input j []) in
      nth j out 0 = (if Qle_bool n A then 1 else 0) /\
      nth j (UnaryAdd.accumulator self') 0 = A - nth j out 0 * n.
Proof.
  intros Hs Hc.
  destruct (bmap2_Ok Qplus (UnaryAdd.accumulator self) (sum_acc input)) as [acc1 Hacc].
  { unfold sum_acc. rewrite length_map. exact Hc. }
  eexists. eexists. split; [apply (UnaryAdd_forward_scaled _ _ _ Hs Hacc)|].
  simpl. split; [reflexivity|]. split; [reflexivity|].
  destruct (@scaled_lanes _ _ _ (inject_Z (Z.of_nat (size_acc input))) Hacc) as (H1 & H2 & H3).
  unfold sum_acc in H1, H2, H3. rewrite (length_map Qsum input) in H1, H2, H3.
  split; [exact H1|]. split; [exact H2|].
  intros j Hj. specialize (H3 j Hj). simpl in H3.
  change (bget (map Qsum input) j 0) with (bget (map Qsum input) j (Qsum [])) in H3.
  rewrite bget_map in H3. exact H3.
Qed.

(** ** Bit sums *)

Lemma Qsum_bits_range (l : list Q) :
  Forall is_bit l -> 0 <= Qsum l /\ Qsum l <= inject_Z (Z.of_nat (length l)).
Proof.
  induction 1 as [|x l Hx _ IH]; simpl.
  - split; apply Qle_refl.
  - rewrite Nat2Z.inj_succ. unfold Z.succ. rewrite inject_Z_plus.
    change (inject_Z 1) with 1. destruct IH as [IH1 IH2].
    destruct Hx as [Hx|Hx]; rewrite Hx; split; lra.
Qed.

Lemma BSGen_bit_is_bit rng_seq source idx : is_bitZ (BSGen_bit rng_seq source idx).
Proof. unfold BSGen_bit, is_bitZ, flagZ. destruct (lt _ _); auto. Qed.

(** ** Matrices *)

Lemma rmapM_pure {A B} (f : A -> result B) (g : A -> B) (l : list A) :
  Forall (fun x => f x = Ok (g x)) l -> rmapM f l = Ok (map g l).
Proof.
  induction 1 as [|x l Hx _ IH]; simpl; [reflexivity|]. now rewrite Hx, IH.
Qed.

Lemma bmap2__same {A B} (f : A -> B -> A) (a : list A) (b : list B) :
  length a = length b -> bmap2_ f a b = Ok (map2 f a b).
Proof.
  intros H. unfold bmap2_. destruct b as [|y [|y' b]].
  - rewrite H. reflexivity.
  - destruct (length_one _ H) as [x ->]. reflexivity.
  - rewrite H, Nat.eqb_refl. reflexivity.
Qed.

Lemma map2_Forall {A B C} (PA : A -> Prop) (PB : B -> Prop) (PC : C -> Prop)
  (f : A -> B -> C) (a : list A) (b : list B) :
  (forall x y, PA x -> PB y -> PC (f x y)) ->
  Forall PA a -> Forall PB b -> Forall PC (map2 f a b).
Proof.
  intros Hf Ha. revert b. induction Ha as [|x a Hx _ IH]; intros b Hb; simpl;
    [constructor|].
  destruct b as [|y b]; [constructor|]. inversion Hb; subst.
  constructor; auto.
Qed.

(** A matrix of [rows] rows and [cols] columns. *)
Lemma map2_shape {A B C} (f : A -> B -> C) (rows cols : nat)
  (a : list (list A)) (b : list (list B)) :
  length a = rows -> Forall (fun r => length r = cols) a ->
  length b = rows -> Forall (fun r => length r = cols) b ->
  length (map2 (map2 f) a b) = rows /\
  Forall (fun r => length r = cols) (map2 (map2 f) a b).
Proof.
  intros La Fa Lb Fb. split.
  - rewrite map2_length; congruence.
  - apply (map2_Forall (fun r => length r = cols) (fun r => length r = cols)); auto.
    intros x y Hx Hy. rewrite map2_length; congruence.
Qed.

Lemma bmap2_eqlen {A B C} (f : A -> B -> C) (a : list A) (b : list B) :
  length a = length b -> bmap2 f a b = Ok (map2 f a b).
Proof.
  destruct a as [|x [|x' a]]; destruct b as [|y [|y' b]]; simpl; intros H;
    try discriminate H; try reflexivity.
  injection H as H. rewrite H, Nat.eqb_refl. reflexivity.
Qed.

Lemma matrix_map {A B} (f : A -> B) rows cols (m : list (list A)) :
  matrix rows cols m -> matrix rows cols (map (map f) m).
Proof.
  intros [Hl Hr]. split; [now rewrite length_map|].
  apply Forall_map. revert Hr. apply Forall_impl. intros r Hr.
  now rewrite length_map.
Qed.

Lemma matrix_map2 {A B C} (f : A -> B -> C) rows cols a b :
  matrix rows cols a -> matrix rows cols b ->
  matrix rows cols (map2 (map2 f) a b).
Proof. intros [La Fa] [Lb Fb]. apply map2_shape; assumption. Qed.

Lemma matrix_zeros {A} (z : A) rows cols : matrix rows cols (zeros2 z rows cols).
Proof.
  unfold zeros2. split; [apply repeat_length|].
  apply Forall_forall. intros r Hr. apply repeat_spec in Hr. subst r.
  apply repeat_length.
Qed.

(** Adding a vector to every row of a matrix, in place. *)
Lemma add_rows (cols : nat) (m : list (list Z)) (v : list Z) rows :
  matrix rows cols m -> length v = cols ->
  rmapM (fun row => bmap2_ Z.add row v) m =
    Ok (map (fun row => map2 Z.add row v) m) /\
  matrix rows cols (map (fun row => map2 Z.add row v) m).
Proof.
  intros [Hl Hr] Hv. split.
  - apply rmapM_pure. revert Hr. apply Forall_impl. intros r Hr.
    apply bmap2__same. congruence.
  - split; [now rewrite length_map|].
    apply Forall_map. revert Hr. apply Forall_impl. intros r Hr.
    rewrite map2_length; congruence.
Qed.

(** The products of a bit vector with a row of bits add up to at most the
    number of 1s in the vector. *)
Lemma Qsum_products (x w : list Q) :
  Forall is_bit x -> Forall is_bit w ->
  0 <= Qsum (map2 Qmult x w) /\ Qsum (map2 Qmult x w) <= Qsum x.
Proof.
  intros Hx. revert w. induction Hx as [|a x Ha Hx IH]; intros w Hw; simpl.
  - split; apply Qle_refl.
  - destruct w as [|b w]; simpl.
    + destruct (Qsum_bits_range x Hx) as [H0 _].
      destruct Ha as [Ha|Ha]; rewrite Ha; split; lra.
    + inversion Hw as [|? ? Hb Hw']; subst.
      destruct (IH w Hw') as [I0 I1].
      destruct Ha as [Ha|Ha]; destruct Hb as [Hb|Hb]; rewrite Ha, Hb; split; lra.
Qed.

Lemma Qsum_complement (x : list Q) :
  Qsum (map (fun v => 1 - v) x) == inject_Z (Z.of_nat (length x)) - Qsum x.
Proof.
  induction x as [|a x IH]; simpl length; simpl map; simpl Qsum.
  - reflexivity.
  - rewrite Nat2Z.inj_succ. unfold Z.succ. rewrite inject_Z_plus.
    change (inject_Z 1) with 1. rewrite IH. ring.
Qed.

Lemma complement_bits (x : list Q) :
  Forall is_bit x -> Forall is_bit (map (fun v => 1 - v) x).
Proof.
  intros H. apply Forall_map. revert H. apply Forall_impl.
  intros a [Ha|Ha]; [right | left]; rewrite Ha; reflexivity.
Qed.

(** The weight bits the generators emit, as floats, and their complements. *)
Lemma weight_bits rng_seq (source : list (list Q)) (idx : list (list Z)) :
  Forall (Forall is_bit) (map (map to_float) (BSGen2 source rng_seq idx)) /\
  Forall (Forall is_bit)
         (map (map (fun b => 1 - to_float b)) (BSGen2 source rng_seq idx)).
Proof.
  unfold BSGen2.
  assert (H : Forall (Forall is_bitZ) (map2 (map2 (BSGen_bit rng_seq)) source idx)).
  { apply (map2_Forall (fun _ => True) (fun _ => True)).
    - intros r s _ _.
      apply (map2_Forall (fun _ => True) (fun _ => True)).
      + intros; apply BSGen_bit_is_bit.
      + apply Forall_forall; auto.
      + apply Forall_forall; auto.
    - apply Forall_forall; auto.
    - apply Forall_forall; auto. }
  split; apply Forall_map; revert H; apply Forall_impl; intros r Hr;
    apply Forall_map; revert Hr; apply Forall_impl;
    intros b [->| ->]; [left | right | right | left]; reflexivity.
Qed.

(** [linear] without bias on a matrix of bits and a bit vector. *)
Lemma linear_bits (rows cols : nat) (W : list (list Q)) (x : list Q) :
  matrix rows cols W -> Forall (Forall is_bit) W -> bit_vector cols x ->
  rmapM (dot x) W = Ok (map (fun w => Qsum (map2 Qmult x w)) W) /\
  Forall (fun v => 0 <= v /\ v <= Qsum x)
         (map (fun w => Qsum (map2 Qmult x w)) W).
Proof.
  intros [Hl Hr] Hb [Hx Hxb]. split.
  - apply rmapM_pure. revert Hr. apply Forall_impl. intros r Hr.
    unfold dot. rewrite Hx, Hr, Nat.eqb_refl. reflexivity.
  - apply Forall_map. revert Hb. apply Forall_impl. intros r Hrb.
    apply Qsum_products; assumption.
Qed.

Lemma nth_rows {A B C} (g : A -> B -> C) rows cols a b j :
  matrix rows cols a -> matrix rows cols b -> (j < rows)%nat ->
  nth j (map2 (map2 g) a b) [] = map2 g (nth j a []) (nth j b []).
Proof. intros [La _] [Lb _] Hj. apply nth_map2; lia. Qed.

(** ** UnaryLinear: one cycle of the kernel *)

Lemma UnaryKernel_accumulation_ok (self : UnaryLinear.t) (input : list Q) :
  UnaryLinear_shapes self ->
  bit_vector (UnaryLinear.in_features self) input ->
  exists k self1,
    UnaryLinear.UnaryKernel_accumulation input self = (Ok k, self1) /\
    length k = UnaryLinear.out_features self /\
    Forall (fun v => 0 <= v /\ v <= UnaryLinear_terms self) k /\
    UnaryLinear_shapes self1 /\
    UnaryLinear.in_features self1 = UnaryLinear.in_features self /\
    UnaryLinear.out_features self1 = UnaryLinear.out_features self /\
    UnaryLinear.has_bias self1 = UnaryLinear.has_bias self /\
    UnaryLinear.mode self1 = UnaryLinear.mode self /\
    UnaryLinear.rng_wght_idx self1 =
      map (fun row => map2 Z.add row (map to_long input))
          (UnaryLinear.rng_wght_idx self) /\
    UnaryLinear.rng_bias_idx self1 =
      (if UnaryLinear.has_bias self
       then map (fun i => (i + 1)%Z) (UnaryLinear.rng_bias_idx self)
       else UnaryLinear.rng_bias_idx self) /\
    UnaryLinear.rng_wght_idx_inv self1 =
      (if UnaryLinear.mode self =? "bipolar"
       then map (fun row => map2 Z.add row (map (fun x => (1 - to_long x)%Z) input))
                (UnaryLinear.rng_wght_idx_inv self)
       else UnaryLinear.rng_wght_idx_inv self) /\
    (forall j, (j < UnaryLinear.out_features self)%nat ->
       nth j k 0 = UnaryLinear_bit_sum self input j).
Proof.
  destruct self as [i o st bound md sc off hb bw rng bufw bufb kw kb idx bidx kiw iidx acc oacc].
  unfold UnaryLinear_shapes, UnaryLinear_terms, UnaryLinear_bit_sum. simpl.
  intros (Hbw & Hidx & Hbias & Hmode) Hin.
  destruct Hin as [Hx Hxb].
  destruct (add_rows i idx (map to_long input) o Hidx) as [E1 M1];
    [now rewrite length_map|].
  pose proof (matrix_map to_float o i _ (matrix_map2 (BSGen_bit rng) o i bufw idx Hbw Hidx)) as MW.
  fold (BSGen2 bufw rng idx) in MW.
  destruct (weight_bits rng bufw idx) as [BW _].
  destruct (linear_bits o i _ input MW BW (conj Hx Hxb)) as [EL RL].
  unfold UnaryLinear.UnaryKernel_accumulation. munfold.
  rewrite E1. simpl.
  destruct (Qsum_bits_range input Hxb) as [S0 S1]. rewrite Hx in S1.
  destruct (weight_bits rng bufw iidx) as [_ BW'].
  assert (Hbb : Forall is_bit (map to_float (map2 (BSGen_bit rng) bufb bidx))).
  { apply Forall_map.
    apply (map2_Forall (fun _ => True) (fun _ => True));
      try (apply Forall_forall; auto).
    intros x y _ _. destruct (BSGen_bit_is_bit rng x y) as [->| ->];
      [left | right]; reflexivity. }
  destruct MW as [LW RW]. rewrite length_map in LW.
  assert (NW : forall j, (j < o)%nat ->
            nth j (map (fun w => Qsum (map2 Qmult input w))
                       (map (map to_float) (BSGen2 bufw rng idx))) 0 =
            Qsum (map2 Qmult input
                    (map to_float (map2 (BSGen_bit rng) (nth j bufw []) (nth j idx []))))).
  { intros j Hj.
    rewrite (nth_map_in (fun w => Qsum (map2 Qmult input w)) _ j [] 0)
      by (rewrite length_map; lia).
    rewrite (nth_map_in (map to_float) _ j [] []) by lia.
    unfold BSGen2. rewrite (nth_rows _ o i bufw idx j Hbw Hidx Hj). reflexivity. }
  destruct hb;
    [ destruct (Hbias eq_refl) as [Lb Li];
      unfold BSGen; rewrite (bmap2_eqlen (BSGen_bit rng) bufb bidx) by congruence;
      simpl; unfold linear; rewrite EL; simpl;
      rewrite bmap2__same
        by (rewrite !length_map, LW, map2_length; congruence);
      match goal with
      | |- context [Ok (map2 Qplus ?a ?b)] => set (ko := map2 Qplus a b)
      end;
      assert (Lko : length ko = o)
        by (unfold ko; rewrite map2_length; rewrite !length_map, ?LW;
            [reflexivity | rewrite map2_length; congruence]);
      assert (Rko : Forall (fun v => 0 <= v /\ v <= Qsum input + 1) ko)
        by (unfold ko;
            eapply map2_Forall; [ | exact RL | exact Hbb];
            cbv beta; intros x y [? ?] [Hy|Hy]; rewrite Hy; split; lra);
      assert (Vko : forall j, (j < o)%nat ->
                nth j ko 0 =
                Qsum (map2 Qmult input
                        (map to_float
                           (map2 (BSGen_bit rng) (nth j bufw []) (nth j idx [])))) +
                to_float (BSGen_bit rng (nth j bufb 0) (nth j bidx 0%Z)))
        by (intros j Hj; unfold ko;
            rewrite (nth_map2 Qplus _ _ j 0 0 0)
              by (rewrite ?length_map, ?LW, ?map2_length by congruence; lia);
            rewrite (NW j Hj);
            rewrite (nth_map_in to_float _ j 0%Z 0)
              by (rewrite map2_length by congruence; lia);
            rewrite (nth_map2 (BSGen_bit rng) bufb bidx j 0 0%Z 0%Z) by lia;
            reflexivity)
    | simpl; unfold linear; simpl; rewrite EL; simpl;
      match goal with
      | |- context [Ok ?a] => set (ko := a)
      end;
      assert (Lko : length ko = o)
        by (unfold ko; rewrite !length_map, ?LW; reflexivity);
      assert (Rko : Forall (fun v => 0 <= v /\ v <= Qsum input + 0) ko)
        by (unfold ko; revert RL; apply Forall_impl; cbv beta;
            intros v [? ?]; split; lra);
      assert (Vko : forall j, (j < o)%nat ->
                nth j ko 0 =
                Qsum (map2 Qmult input
                        (map to_float
                           (map2 (BSGen_bit rng) (nth j bufw []) (nth j idx [])))))
        by (intros j Hj; unfold ko; apply (NW j Hj)) ].
  all: destruct Hmode as [-> | [-> Hiidx]].
  all: try change ("unipolar" =? "unipolar") with true;
       try change ("bipolar" =? "unipolar") with false;
       try change ("bipolar" =? "bipolar") with true;
       try change ("unipolar" =? "bipolar") with false; cbv iota beta.
  1,3: eexists; eexists; (split; [reflexivity|]); simpl;
       (split; [exact Lko|]);
       (split; [revert Rko; apply Forall_impl; cbv beta; intros v [? ?]; split; lra|]);
       (split; [split; [exact Hbw|]; split; [exact M1|]; split;
                  [intros Hf; try discriminate Hf; rewrite ?length_map; auto
                  | left; reflexivity]|]);
       repeat (split; [reflexivity|]); exact Vko.
  all: destruct (add_rows i iidx (map (fun x => (1 - to_long x)%Z) input) o Hiidx)
         as [E2 M2]; [now rewrite length_map|].
  all: pose proof (matrix_map (fun b => 1 - to_float b) o i _
                     (matrix_map2 (BSGen_bit rng) o i bufw iidx Hbw Hiidx)) as MW';
       fold (BSGen2 bufw rng iidx) in MW'.
  all: destruct (linear_bits o i _ (map (fun x => 1 - x) input) MW' BW')
         as [EL' RL'];
         [split; [now rewrite length_map | now apply complement_bits]|].
  all: rewrite E2, EL'; simpl.
  all: destruct MW' as [LW' _]; rewrite length_map in LW'.
  all: rewrite bmap2_eqlen by (rewrite !length_map, LW'; exact Lko).
  all: eexists; eexists; (split; [reflexivity|]); simpl.
  all: split; [rewrite map2_length; rewrite ?length_map, ?LW'; auto|].
  all: split;
         [eapply map2_Forall; [ | exact Rko | exact RL']; cbv beta;
          intros x y [? ?] [? Hy]; rewrite Qsum_complement, Hx in Hy; split; lra|].
  all: split;
         [split; [exact Hbw|]; split; [exact M1|]; split;
            [intros Hf; try discriminate Hf; rewrite ?length_map; auto
            | right; split; [reflexivity | exact M2]]|].
  all: do 7 (split; [reflexivity|]); intros j Hj.
  all: rewrite (nth_map2 Qplus _ _ j 0 0 0)
         by (rewrite ?length_map, ?LW', ?Lko; lia).
  all: rewrite (Vko j Hj).
  all: rewrite (nth_map_in (fun w => Qsum (map2 Qmult (map (fun x => 1 - x) input) w))
                  _ j [] 0) by (rewrite length_map; lia).
  all: rewrite (nth_map_in (map (fun b => 1 - to_float b)) _ j [] []) by lia.
  all: unfold BSGen2; rewrite (nth_rows _ o i bufw iidx j Hbw Hiidx Hj); reflexivity.
Qed.

(** ** C1: one cycle of the scaled adder *)

(** C1.  A scaled [UnaryAdd.forward] sets the bound to the size [n] of the
    reduction axis and, in every lane [j], adds the sum of the cycle's input
    bits along that axis to the accumulator, outputs 1 iff the sum [A] so
    obtained is at least [n], and leaves [A - n * output] in the accumulator.
    With four lanes carrying 1, 0, 1, 1 and the accumulator at 2 the call
    outputs 1 and leaves 1.  The scaled [UnaryLinear.forward], on a layer
    with the shapes of the constructor and an input vector of bits, does the
    same in every output [j] with its bound [acc_bound] and the bit sum of
    the cycle: the products of the input bits with the weight bits of row
    [j], the bias bit, and in bipolar mode the products of the complemented
    input bits with the complemented weight bits ([UnaryLinear_bit_sum]). *)
Theorem scaled_add_cycle :
  (forall (self : UnaryAdd.t) (input : Tensor2),
     UnaryAdd.scaled self = true ->
     compat (length (UnaryAdd.accumulator self)) (length input) ->
     exists out self',
       UnaryAdd.forward input self = (Ok out, self') /\
       let n := inject_Z (Z.of_nat (size_acc input)) in
       let L := blen (length (UnaryAdd.accumulator self)) (length input) in
       UnaryAdd.acc_bound self' = n /\
       length out = L /\ length (UnaryAdd.accumulator self') = L /\
       forall j, (j < L)%nat ->
         let A := bget (UnaryAdd.accumulator self) j 0 + Qsum (bget input j []) in
         nth j out 0 = (if Qle_bool n A then 1 else 0) /\
         nth j (UnaryAdd.accumulator self') 0 = A - nth j out 0 * n)
  /\
  (forall mode acc_dim stype,
     let self := UnaryAdd.set_accumulator [2] (UnaryAdd.init mode true acc_dim stype) in
     exists self',
       UnaryAdd.forward [[1; 0; 1; 1]] self = (Ok [1], self') /\
       UnaryAdd.acc_bound self' = 4 /\
       UnaryAdd.accumulator self' = [1])
  /\
  (forall (self : UnaryLinear.t) (input : list Q),
     UnaryLinear.scaled self = true ->
     UnaryLinear_shapes self ->
     bit_vector (UnaryLinear.in_features self) input ->
     lanes (UnaryLinear.out_features self) (UnaryLinear.accumulator self) ->
     exists out self',
       UnaryLinear.forward input self = (Ok out, self') /\
       let n := UnaryLinear.acc_bound self in
       let L := UnaryLinear.out_features self in
       UnaryLinear.acc_bound self' = n /\
       length out = L /\ length (UnaryLinear.accumulator self') = L /\
       forall j, (j < L)%nat ->
         let A := bget (UnaryLinear.accumulator self) j 0 +
                  UnaryLinear_bit_sum self input j in
         nth j out 0 = (if Qle_bool n A then 1 else 0) /\
         nth j (UnaryLinear.accumulator self') 0 = A - nth j out 0 * n).
Proof.
  split; [|split].
  - intros self input Hs Hc.
    destruct (UnaryAdd_scaled_lanes self input Hs Hc)
      as (out & self' & H & _ & Hb & Ho & Ha & Hl).
    exists out, self'. auto.
  - intros mode acc_dim stype self. subst self.
    eexists. split.
    + apply (@UnaryAdd_forward_scaled _ [[1; 0; 1; 1]] [5]); reflexivity.
    + split; reflexivity.
  - intros self input Hs Hsh Hin Hl.
    destruct (UnaryKernel_accumulation_ok self input Hsh Hin)
      as (k & self1 & Hk & Lk & _ & _ & _ & _ & _ & _ & _ & _ & _ & Hval).
    assert (Hc : compat (length (UnaryLinear.accumulator self)) (length k)).
    { unfold compat. rewrite Lk. destruct Hl as [Hl|Hl]; auto. }
    assert (HL : blen (length (UnaryLinear.accumulator self)) (length k) =
                 UnaryLinear.out_features self).
    { unfold blen. rewrite Lk.
      destruct Hl as [Hl|Hl]; rewrite Hl; [reflexivity|].
      destruct (Nat.eqb_spec (UnaryLinear.out_features self) 1); congruence. }
    destruct (bmap2_Ok Qplus (UnaryLinear.accumulator self) k Hc) as [acc1 Hacc].
    eexists. eexists. split; [apply (@UnaryLinear_forward_scaled _ _ _ _ _ Hs Hk Hacc)|].
    destruct (UnaryKernel_accumulation_frame _ _ _ _ Hk) as (_ & Fb & _).
    simpl. split; [exact Fb|].
    destruct (@scaled_lanes _ _ _ (UnaryLinear.acc_bound self) Hacc) as (H1 & H2 & H3).
    simpl in H1, H2, H3. rewrite HL in H1, H2, H3.
    split; [exact H1|]. split; [exact H2|].
    intros j Hj. specialize (H3 j Hj).
    rewrite (bget_nth k j 0), (Hval j Hj) in H3 by lia. exact H3.
Qed.

Lemma scaled_add_cycle_witness :
  (UnaryAdd.scaled (UnaryAdd.set_accumulator [2]
     (UnaryAdd.init "unipolar" true 0 torch_float)) = true /\
   exists out self',
     UnaryAdd.forward [[1; 0; 1; 1]]
       (UnaryAdd.set_accumulator [2] (UnaryAdd.init "unipolar" true 0 torch_float))
     = (Ok out, self')) /\
  (UnaryLinear.scaled linear21 = true /\
   UnaryLinear_shapes linear21 /\
   bit_vector (UnaryLinear.in_features linear21) [1; 1] /\
   lanes (UnaryLinear.out_features linear21) (UnaryLinear.accumulator linear21) /\
   exists out self', UnaryLinear.forward [1; 1] linear21 = (Ok out, self')).
Proof.
  assert (Hsh : UnaryLinear_shapes linear21).
  { unfold UnaryLinear_shapes, matrix. simpl.
    repeat split; try (repeat constructor); try discriminate. }
  assert (Hv : bit_vector (UnaryLinear.in_features linear21) [1; 1]).
  { split; [reflexivity|]. repeat constructor; right; reflexivity. }
  assert (Hl : lanes (UnaryLinear.out_features linear21)
                     (UnaryLinear.accumulator linear21))
    by (left; reflexivity).
  split; (split; [reflexivity|]); [|split; [exact Hsh|split; [exact Hv|split; [exact Hl|]]]].
  - destruct (proj1 scaled_add_cycle
                (UnaryAdd.set_accumulator [2] (UnaryAdd.init "unipolar" true 0 torch_float))
                [[1; 0; 1; 1]] eq_refl (or_introl eq_refl))
      as (out & self' & H & _).
    exists out, self'. exact H.
  - destruct (proj2 (proj2 scaled_add_cycle) linear21 [1; 1] eq_refl Hsh Hv Hl)
      as (out & self' & H & _).
    exists out, self'. exact H.
Defined.

(** ** Runs of the scaled adder *)

Lemma bmap2_Forall {A B C} (PA : A -> Prop) (PB : B -> Prop) (PC : C -> Prop)
  (f : A -> B -> C) (a : list A) (b : list B) c :
  (forall x y, PA x -> PB y -> PC (f x y)) ->
  Forall PA a -> Forall PB b -> bmap2 f a b = Ok c -> Forall PC c.
Proof.
  intros Hf Ha Hb H. destruct (bmap2_spec _ _ _ _ H) as [Hlen Hnth].
  apply Forall_forall. intros z Hz.
  destruct a as [|x0 a0].
  - destruct b as [|y0 [|y1 b0]]; simpl in H; try discriminate;
      injection H as <-; destruct Hz.
  - destruct b as [|y0 b0].
    + destruct a0; simpl in H; [|discriminate]. injection H as <-. destruct Hz.
    + destruct (In_nth _ _ (f x0 y0) Hz) as (j & Hj & <-).
      rewrite (Hnth j x0 y0 (f x0 y0) Hj). apply Hf.
      * destruct a0 as [|x1 a1]; [inversion Ha; assumption|].
        unfold bget. rewrite Forall_forall in Ha.
        destruct (Nat.lt_ge_cases j (length (x0 :: x1 :: a1))) as [Hlt|Hge].
        -- apply Ha, nth_In, Hlt.
        -- rewrite nth_overflow by exact Hge. apply Ha. now left.
      * destruct b0 as [|y1 b1]; [inversion Hb; assumption|].
        unfold bget. rewrite Forall_forall in Hb.
        destruct (Nat.lt_ge_cases j (length (y0 :: y1 :: b1))) as [Hlt|Hge].
        -- apply Hb, nth_In, Hlt.
        -- rewrite nth_overflow by exact Hge. apply Hb. now left.
Qed.

Lemma blen_lanes (la m : nat) : la = 1%nat \/ la = m -> blen la m = m.
Proof.
  unfold blen. intros [->| ->]; [reflexivity|].
  destruct (Nat.eqb m 1) eqn:E; reflexivity.
Qed.

Lemma compat_lanes (la m : nat) : la = 1%nat \/ la = m -> compat la m.
Proof. unfold compat. intros [H|H]; auto. Qed.

Lemma UnaryAdd_run_total (m : nat) (inputs : list Tensor2) :
  Forall (fun x => length x = m) inputs ->
  forall self, run_state m self ->
  exists cycles,
    UnaryAdd_run self inputs = Ok cycles /\
    map c_input cycles = inputs /\
    chained self cycles /\
    Forall (cycle_ok m) cycles.
Proof.
  induction 1 as [|x xs Hx _ IH]; intros self [Hs Hl].
  - exists []. simpl. auto.
  - destruct (UnaryAdd_scaled_lanes self x Hs) as (out & self' & Hf & Hs' & _ & _ & Hl' & _).
    { rewrite Hx. apply compat_lanes, Hl. }
    simpl in Hl'. rewrite Hx, (blen_lanes _ _ Hl) in Hl'.
    destruct (IH self') as (rest & Hr & Hi & Hc & Hok); [split; auto|].
    exists (mk_cycle self x out self' :: rest). simpl. rewrite Hf, Hr. simpl.
    repeat split; auto. rewrite Hi. reflexivity.
    constructor; [|exact Hok]. unfold cycle_ok, run_state. simpl. auto 10.
Qed.

Lemma Forall_window {A} (P : A -> Prop) (start len : nat) (l : list A) :
  Forall P l -> Forall P (window start len l).
Proof.
  intros H. unfold window.
  rewrite <- (firstn_skipn start l) in H. apply Forall_app in H as [_ H].
  rewrite <- (firstn_skipn len (skipn start l)) in H. apply Forall_app in H as [H _].
  exact H.
Qed.

Lemma Qsum_map_ext {A} (f g : A -> Q) (l : list A) :
  Forall (fun c => f c == g c) l -> Qsum (map f l) == Qsum (map g l).
Proof.
  induction 1 as [|c l Hc _ IH]; simpl; [reflexivity|].
  rewrite Hc, IH. reflexivity.
Qed.

(** In every lane the carry of one cycle accounts for exactly the bits that
    came in. *)
Lemma cycle_balance (m : nat) (c : cycle) (j : nat) :
  cycle_ok m c -> (j < m)%nat -> carried j c == input_bits j c.
Proof.
  intros ((Hs & Hl) & (_ & Hl') & Hx & Hf) Hj.
  destruct (UnaryAdd_scaled_lanes (c_pre c) (c_input c) Hs)
    as (out & self' & Hf' & _ & Hb & Ho & Ha & Hlanes).
  { rewrite Hx. apply compat_lanes, Hl. }
  rewrite Hf in Hf'. injection Hf' as <- <-.
  simpl in Ho, Ha, Hlanes. rewrite Hx, (blen_lanes _ _ Hl) in Ho, Ha, Hlanes.
  destruct (Hlanes j Hj) as [_ Hacc].
  unfold carried, input_bits.
  rewrite (bget_nth (UnaryAdd.accumulator (c_post c)) _ _) by lia.
  rewrite (bget_nth (c_out c) _ _) by lia.
  rewrite Hacc, Hb. ring.
Qed.

(** ** C2: conservation of bits by the scaled adder *)

(** C2.  Feed a scaled [UnaryAdd] any sequence of bit tensors of one shape
    ([m] output positions, [n] lanes along the reduction axis).  The run
    completes, and over every window of consecutive calls the sum of
    (accumulator delta + bound * output) equals, in every lane, the exact
    number of input bits of that window. *)
Theorem scaled_add_conservation :
  forall (n m : nat) (self : UnaryAdd.t) (inputs : list Tensor2),
    UnaryAdd.scaled self = true ->
    (length (UnaryAdd.accumulator self) = 1%nat \/
     length (UnaryAdd.accumulator self) = m) ->
    Forall (bit_tensor n m) inputs ->
    exists cycles,
      UnaryAdd_run self inputs = Ok cycles /\
      map c_input cycles = inputs /\
      chained self cycles /\
      forall start len j, (j < m)%nat ->
        Qsum (map (carried j) (window start len cycles))
        == Qsum (map (input_bits j) (window start len cycles)).
Proof.
  intros n m self inputs Hs Hl Hin.
  destruct (@UnaryAdd_run_total m inputs) with (self := self)
    as (cycles & Hr & Hi & Hc & Hok).
  { eapply Forall_impl; [|exact Hin]. intros x (Hx & _). exact Hx. }
  { split; assumption. }
  exists cycles. repeat split; auto.
  intros start len j Hj. apply Qsum_map_ext.
  apply Forall_window. eapply Forall_impl; [|exact Hok].
  intros c Hcok. apply (cycle_balance _ _ _ Hcok Hj).
Qed.

Lemma scaled_add_conservation_witness :
  let self := UnaryAdd.init "unipolar" true 0 torch_float in
  let inputs := [[[1; 0; 1; 1]]; [[1; 1; 1; 1]]; [[0; 0; 1; 0]]] in
  UnaryAdd.scaled self = true /\
  Forall (bit_tensor 4 1) inputs /\
  exists cycles,
    UnaryAdd_run self inputs = Ok cycles /\
    Qsum (map (carried 0) (window 1 2 cycles))
    == Qsum (map (input_bits 0) (window 1 2 cycles)).
Proof.
  intros self inputs.
  assert (Hb : Forall (bit_tensor 4 1) inputs).
  { unfold inputs. bit_tensors. }
  split; [reflexivity|]. split; [exact Hb|].
  destruct (@scaled_add_conservation 4 1 self inputs eq_refl (or_introl eq_refl) Hb)
    as (cycles & Hr & _ & _ & Hw).
  exists cycles. split; [exact Hr|]. apply Hw. lia.
Defined.

(** ** C9: the range of the scaled accumulator *)

Lemma bget_Forall {A} (P : A -> Prop) (v : list A) (j : nat) (d : A) :
  Forall P v -> (length v = 1%nat \/ j < length v)%nat -> P (bget v j d).
Proof.
  intros H Hj. rewrite Forall_forall in H.
  destruct v as [|x [|y v]].
  - simpl in Hj. lia.
  - apply H. now left.
  - unfold bget. apply H, nth_In. simpl in *. lia.
Qed.

Lemma UnaryAdd_step_range (n m : nat) (self : UnaryAdd.t) (x : Tensor2) out self' :
  (0 < n)%nat ->
  run_state m self ->
  in_range (inject_Z (Z.of_nat n)) (UnaryAdd.accumulator self) ->
  bit_tensor n m x ->
  UnaryAdd.forward x self = (Ok out, self') ->
  in_range (inject_Z (Z.of_nat n)) (UnaryAdd.accumulator self').
Proof.
  intros Hn (Hs & Hl) Hr (Hx & Hrect & Hbits) Hf.
  destruct (UnaryAdd_scaled_lanes self x Hs)
    as (out' & self'' & Hf' & _ & _ & Ho & Ha & Hlanes).
  { rewrite Hx. apply compat_lanes, Hl. }
  rewrite Hf in Hf'. injection Hf' as <- <-.
  simpl in Ho, Ha, Hlanes. rewrite Hx, (blen_lanes _ _ Hl) in Ho, Ha, Hlanes.
  unfold in_range. apply Forall_nth. intros j d Hj. rewrite Ha in Hj.
  rewrite (nth_indep _ d 0) by lia.
  destruct (Hlanes j Hj) as [Hout Hacc]. rewrite Hacc, Hout. clear Hacc Hout.
  assert (Hsz : size_acc x = n).
  { destruct x as [|r x']; [simpl in Hx; lia|]. simpl. now inversion Hrect. }
  rewrite Hsz.
  assert (Ha0 : 0 <= bget (UnaryAdd.accumulator self) j 0 /\
                bget (UnaryAdd.accumulator self) j 0 < inject_Z (Z.of_nat n)).
  { apply (@bget_Forall _ (fun a => 0 <= a /\ a < inject_Z (Z.of_nat n))); [exact Hr|].
    destruct Hl as [Hl|Hl]; [left; exact Hl | right; lia]. }
  assert (Hb0 : 0 <= Qsum (bget x j []) /\
                Qsum (bget x j []) <= inject_Z (Z.of_nat n)).
  { rewrite bget_nth by lia.
    assert (Hin : In (nth j x []) x) by (apply nth_In; lia).
    unfold rect, bits2 in *. rewrite Forall_forall in Hrect, Hbits.
    rewrite <- (Hrect _ Hin). apply Qsum_bits_range, Hbits, Hin. }
  destruct Ha0 as [A1 A2]. destruct Hb0 as [B1 B2].
  set (a := bget (UnaryAdd.accumulator self) j 0) in *.
  set (s := Qsum (bget x j [])) in *.
  set (b := inject_Z (Z.of_nat n)) in *.
  destruct (Qle_bool b (a + s)) eqn:E.
  - apply Qle_bool_iff in E. split; lra.
  - assert (Hlt : a + s < b).
    { apply Qnot_le_lt. intros Hle. apply Qle_bool_iff in Hle. congruence. }
    split; lra.
Qed.

Lemma UnaryAdd_run_range (n m : nat) (inputs : list Tensor2) :
  (0 < n)%nat ->
  Forall (bit_tensor n m) inputs ->
  forall self cycles,
    in_range (inject_Z (Z.of_nat n)) (UnaryAdd.accumulator self) ->
    chained self cycles ->
    Forall (cycle_ok m) cycles ->
    map c_input cycles = inputs ->
    Forall (fun c => in_range (inject_Z (Z.of_nat n))
                       (UnaryAdd.accumulator (c_post c))) cycles.
Proof.
  intros Hn Hin self cycles. revert self inputs Hin.
  induction cycles as [|c rest IH]; intros self inputs Hin Hr Hch Hok Hmap.
  - constructor.
  - destruct inputs as [|x xs]; [discriminate|].
    injection Hmap as Hx Hxs. inversion Hin; subst.
    inversion Hok as [|? ? Hc Hrest]; subst.
    destruct Hch as [Hpre Hch]. destruct Hc as (Hs & _ & _ & Hf).
    assert (Hpost : in_range (inject_Z (Z.of_nat n)) (UnaryAdd.accumulator (c_post c))).
    { apply (@UnaryAdd_step_range n m (c_pre c) (c_input c) (c_out c) (c_post c));
        auto. rewrite Hpre. exact Hr. }
    constructor; [exact Hpost|].
    apply (IH (c_post c) (map c_input rest)); auto.
Qed.

(** C9, as stated, fails on a tensor whose reduction axis is empty: for the
    1-D tensor with no entries the bound is 0, the sum is 0, the threshold
    [0 >= 0] holds, and the accumulator stays at 0, which is not in
    [[0, 0)]. *)
Lemma scaled_range_empty_axis : ~ scaled_range_any_shape.
Proof.
  intros H.
  assert (Hb : Forall (bit_tensor 0 1) [[[]]]) by bit_tensors.
  specialize (H "unipolar" 0%Z torch_float 0%nat 1%nat [[[]]]
                [mk_cycle (UnaryAdd.init "unipolar" true 0 torch_float) [[]] [1]
                   (UnaryAdd.mk "unipolar" true 0 torch_float 0 0 [0 - 1 * 0] None)]
                Hb eq_refl).
  inversion H as [|? ? Hc _]; subst. simpl in Hc.
  inversion Hc as [|? ? [_ Hlt] _]; subst.
  revert Hlt. vm_compute. discriminate.
Qed.

(** C9 (amended).  Feed a scaled [UnaryAdd], whose accumulator starts at 0,
    any sequence of bit tensors of one shape whose reduction axis is not
    empty ([n >= 1] lanes).  The run completes and after every call every lane
    of the accumulator lies in [[0, n)], [n] being the size of the reduction
    axis, which is also the bound register. *)
Theorem scaled_range :
  forall mode acc_dim stype (n m : nat) (inputs : list Tensor2),
    (0 < n)%nat ->
    Forall (bit_tensor n m) inputs ->
    exists cycles,
      UnaryAdd_run (UnaryAdd.init mode true acc_dim stype) inputs = Ok cycles /\
      map c_input cycles = inputs /\
      Forall (fun c =>
                in_range (inject_Z (Z.of_nat n)) (UnaryAdd.accumulator (c_post c)) /\
                (m <> 0%nat -> UnaryAdd.acc_bound (c_post c) = inject_Z (Z.of_nat n)))
             cycles.
Proof.
  intros mode acc_dim stype n m inputs Hn Hin.
  destruct (@UnaryAdd_run_total m inputs)
    with (self := UnaryAdd.init mode true acc_dim stype)
    as (cycles & Hr & Hi & Hc & Hok).
  { eapply Forall_impl; [|exact Hin]. intros x (Hx & _). exact Hx. }
  { split; [reflexivity | left; reflexivity]. }
  exists cycles. split; [exact Hr|]. split; [exact Hi|].
  assert (Hrange := @UnaryAdd_run_range n m inputs Hn Hin
                      (UnaryAdd.init mode true acc_dim stype) cycles).
  simpl in Hrange.
  assert (H0 : in_range (inject_Z (Z.of_nat n)) [0]).
  { constructor; [|constructor]. split; [apply Qle_refl|].
    change 0 with (inject_Z 0). rewrite <- Zlt_Qlt. lia. }
  specialize (Hrange H0 Hc Hok Hi).
  apply Forall_forall. intros c Hcin. rewrite Forall_forall in Hrange, Hok.
  split; [apply Hrange, Hcin|].
  intros Hm. destruct (Hok c Hcin) as ((Hs & Hl) & _ & Hx & Hf).
  destruct (UnaryAdd_scaled_lanes (c_pre c) (c_input c) Hs)
    as (out' & self'' & Hf' & _ & Hb & _).
  { rewrite Hx. apply compat_lanes, Hl. }
  rewrite Hf in Hf'. injection Hf' as <- <-. rewrite Hb.
  assert (Hbt : bit_tensor n m (c_input c)).
  { rewrite Forall_forall in Hin. apply Hin. rewrite <- Hi. apply in_map, Hcin. }
  destruct Hbt as (_ & Hrect & _).
  destruct (c_input c) as [|r x']; [simpl in Hx; lia|].
  simpl. inversion Hrect; subst. reflexivity.
Qed.

Lemma scaled_range_witness :
  let inputs := [[[1; 0; 1; 1]]; [[1; 1; 1; 1]]; [[0; 0; 1; 0]]] in
  (0 < 4)%nat /\ Forall (bit_tensor 4 1) inputs /\
  exists cycles,
    UnaryAdd_run (UnaryAdd.init "unipolar" true 0 torch_float) inputs = Ok cycles /\
    Forall (fun c => in_range 4 (UnaryAdd.accumulator (c_post c))) cycles.
Proof.
  intros inputs.
  assert (Hb : Forall (bit_tensor 4 1) inputs) by (unfold inputs; bit_tensors).
  split; [lia|]. split; [exact Hb|].
  destruct (@scaled_range "unipolar" 0%Z torch_float 4 1 inputs
              (Nat.lt_0_succ 3) Hb) as (cycles & Hr & _ & Hall).
  exists cycles. split; [exact Hr|].
  eapply Forall_impl; [|exact Hall]. intros c [Hc _]. exact Hc.
Defined.

(** ** C6: the Gaines MUX adder *)

Lemma py_getitem_in_range {A} (seq : list A) (i : Z) (d : A) :
  (0 <= i < Z.of_nat (length seq))%Z ->
  py_getitem seq i = Ok (nth (Z.to_nat i) seq d).
Proof.
  intros [H0 H1]. unfold py_getitem.
  destruct (Z.ltb_spec i 0); [lia|].
  destruct (Z.leb_spec 0 i); [|lia].
  destruct (Z.ltb_spec i (Z.of_nat (length seq))); [|lia]. simpl.
  rewrite (nth_error_nth' seq d) by lia. reflexivity.
Qed.

Lemma Qtrunc_nonneg (x : Q) : 0 <= x -> Qtrunc x = Qfloor x.
Proof.
  intros H. unfold Qtrunc. apply Qle_bool_iff in H. rewrite H. reflexivity.
Qed.

Lemma Qfloor_nonneg (x : Q) : 0 <= x -> (0 <= Qfloor x)%Z.
Proof.
  intros H. change 0%Z with (Qfloor 0). apply Qfloor_resp_le, H.
Qed.

Lemma Qfloor_lt_inject (x : Q) (k : Z) : x < inject_Z k -> (Qfloor x < k)%Z.
Proof.
  intros H. rewrite Zlt_Qlt. eapply Qle_lt_trans; [apply Qfloor_le | exact H].
Qed.

Lemma GainesAdd_forward_scaled (self : GainesAdd.t) (input : Tensor2) :
  GainesAdd.scaled self = true ->
  GainesAdd_wf self ->
  GainesAdd.forward input self =
  if lt (randNum self) (inject_Z (Z.of_nat (size_acc input)))
  then (Ok (map (astype (GainesAdd.stype self))
              (select_lane input (Z.to_nat (Qfloor (randNum self))))),
        GainesAdd.set_rng_idx
          ((GainesAdd.rng_idx self + 1)
             mod Z.of_nat (length (GainesAdd.rng self)))%Z self)
  else (Raise (AssertionError
          "randNum should be smaller than the dimension size of addition."),
        self).
Proof.
  intros Hs [Hidx Hrng]. unfold GainesAdd.forward. munfold. rewrite Hs.
  rewrite (py_getitem_in_range _ _ 0 Hidx). simpl. fold (randNum self).
  destruct (lt (randNum self) (inject_Z (Z.of_nat (size_acc input)))) eqn:E;
    simpl; [|reflexivity].
  apply lt_spec in E.
  assert (H0 : 0 <= randNum self).
  { rewrite Forall_forall in Hrng. apply Hrng, nth_In. lia. }
  unfold GainesAdd.index_select, to_long. rewrite (Qtrunc_nonneg _ H0).
  pose proof (Qfloor_nonneg _ H0) as H1.
  pose proof (Qfloor_lt_inject _ _ E) as H2.
  destruct (Z.leb_spec 0 (Qfloor (randNum self))); [|lia].
  destruct (Z.ltb_spec (Qfloor (randNum self)) (Z.of_nat (size_acc input))); [|lia].
  reflexivity.
Qed.

(** C6.  A scaled [GainesAdd.forward], on registers whose index sequence
    honours the contract of its source, outputs at every position the lane
    along the accumulation axis that the current random index selects, then
    advances the position in the sequence by 1 modulo the sequence's length;
    the call fails, with the assertion of line 83 and before any register is
    written, iff the random index is not strictly less than the size of the
    reduction axis. *)
Theorem gaines_mux_cycle :
  forall (self : GainesAdd.t) (input : Tensor2),
    GainesAdd.scaled self = true ->
    GainesAdd_wf self ->
    let size := inject_Z (Z.of_nat (size_acc input)) in
    let len := Z.of_nat (length (GainesAdd.rng self)) in
    (randNum self < size ->
       exists self',
         GainesAdd.forward input self =
           (Ok (map (astype (GainesAdd.stype self))
                  (select_lane input (Z.to_nat (Qfloor (randNum self))))), self') /\
         self' = GainesAdd.set_rng_idx ((GainesAdd.rng_idx self + 1) mod len)%Z self /\
         GainesAdd_wf self' /\
         (GainesAdd.stype self = torch_float ->
          fst (GainesAdd.forward input self) =
            Ok (select_lane input (Z.to_nat (Qfloor (randNum self)))))) /\
    (~ randNum self < size ->
       GainesAdd.forward input self =
         (Raise (AssertionError
            "randNum should be smaller than the dimension size of addition."),
          self)) /\
    ((exists e, fst (GainesAdd.forward input self) = Raise e) <->
     ~ randNum self < size).
Proof.
  intros self input Hs Hwf size len.
  pose proof (GainesAdd_forward_scaled self input Hs Hwf) as Hf. fold size in Hf.
  destruct (lt (randNum self) size) eqn:E.
  - apply lt_spec in E. split; [|split].
    + intros _. eexists. split; [exact Hf|]. split; [reflexivity|]. split.
      * destruct Hwf as [Hidx Hrng]. split; [|exact Hrng]. simpl.
        apply Z.mod_pos_bound. lia.
      * intros Ht. rewrite Hf, Ht. simpl. f_equal. apply map_id.
    + intros Hn. contradiction.
    + rewrite Hf. simpl. split; [intros [e He]; discriminate | intros Hn; contradiction].
  - assert (Hn : ~ randNum self < size).
    { intros Hlt. apply lt_spec in Hlt. congruence. }
    split; [|split].
    + intros Hlt. contradiction.
    + intros _. exact Hf.
    + rewrite Hf. simpl. split; [intros _; exact Hn | intros _; eexists; reflexivity].
Qed.

Lemma gaines_mux_cycle_witness :
  let self := GainesAdd.mk "unipolar" true 0 torch_float [0; 2; 1; 3] 1 in
  GainesAdd.scaled self = true /\ GainesAdd_wf self /\
  randNum self < inject_Z (Z.of_nat (size_acc [[1; 0; 1; 1]])) /\
  GainesAdd.forward [[1; 0; 1; 1]] self =
    (Ok [1], GainesAdd.mk "unipolar" true 0 torch_float [0; 2; 1; 3] 2).
Proof.
  intros self.
  assert (Hwf : GainesAdd_wf self).
  { split; [simpl; lia|]. repeat constructor; discriminate. }
  assert (Hlt : randNum self < inject_Z (Z.of_nat (size_acc [[1; 0; 1; 1]])))
    by reflexivity.
  split; [reflexivity|]. split; [exact Hwf|]. split; [exact Hlt|].
  destruct (proj1 (@gaines_mux_cycle self [[1; 0; 1; 1]] eq_refl Hwf) Hlt)
    as (self' & Hf & -> & _).
  exact Hf.
Defined.

(** ** Lanes under broadcasting *)

Lemma bmap2_lanes {A B C} (f : A -> B -> C) (m : nat) (a : list A) (b : list B) :
  lanes m a -> lanes m b ->
  exists c,
    bmap2 f a b = Ok c /\ lanes m c /\
    (length a = m \/ length b = m -> length c = m) /\
    forall j da db dc, (j < m)%nat ->
      bget c j dc = f (bget a j da) (bget b j db).
Proof.
  unfold lanes. intros Ha Hb.
  destruct (bmap2_Ok f a b) as [c Hc].
  { unfold compat. destruct Ha as [Ha|Ha]; destruct Hb as [Hb|Hb]; auto.
    right; right; congruence. }
  exists c. split; [exact Hc|].
  destruct (bmap2_spec _ _ _ _ Hc) as [Hlen Hnth]. unfold blen in Hlen.
  assert (Hl : length c = 1%nat \/ length c = m).
  { destruct (Nat.eqb (length a) 1) eqn:E.
    - rewrite Hlen. exact Hb.
    - apply Nat.eqb_neq in E. rewrite Hlen. destruct Ha; [contradiction | now right]. }
  assert (Hm : length a = m \/ length b = m -> length c = m).
  { intros H. destruct (Nat.eqb (length a) 1) eqn:E.
    - apply Nat.eqb_eq in E. rewrite Hlen.
      destruct H as [H|H]; [|exact H]. destruct Hb as [Hb|Hb]; congruence.
    - apply Nat.eqb_neq in E. rewrite Hlen. destruct Ha; [contradiction | assumption]. }
  split; [exact Hl|]. split; [exact Hm|].
  intros j da db dc Hj.
  destruct Hl as [Hl|Hl].
  - destruct (length_one _ Hl) as [z Hz]. subst c. simpl.
    assert (H0 := Hnth 0%nat da db dc). simpl in H0. rewrite H0 by lia. clear H0.
    assert (La : length a = 1%nat).
    { destruct (Nat.eqb (length a) 1) eqn:E; [now apply Nat.eqb_eq in E|].
      simpl in Hlen. congruence. }
    assert (Lb : length b = 1%nat).
    { rewrite La in Hlen. simpl in Hlen. congruence. }
    destruct (length_one _ La) as [x ->]. destruct (length_one _ Lb) as [y ->].
    reflexivity.
  - rewrite (bget_nth c _ _) by lia. apply Hnth. lia.
Qed.

Lemma lanes_map {A B} (f : A -> B) (m : nat) (v : list A) :
  lanes m v -> lanes m (map f v).
Proof. unfold lanes. rewrite length_map. auto. Qed.

Lemma bget_map_lanes {A B} (f : A -> B) (m : nat) (v : list A) j d d' :
  lanes m v -> (j < m)%nat -> bget (map f v) j d' = f (bget v j d).
Proof.
  intros [H|H] Hj.
  - destruct (length_one _ H) as [x ->]. reflexivity.
  - rewrite !bget_nth by (rewrite ?length_map; lia).
    apply nth_map_in. lia.
Qed.

Lemma lanes_exact {A} (m : nat) (v : list A) : length v = m -> lanes m v.
Proof. unfold lanes. auto. Qed.

(** ** FSUMul: one cycle, lane by lane *)

Lemma FSUMul_path_0_lanes (self : FSUMul.t) (input : list Q) (m : nat) :
  length input = m ->
  lanes m (FSUMul.source_gen self) -> lanes m (FSUMul.rng_idx self) ->
  exists p0,
    FSUMul.path_0 self input = Ok p0 /\ length p0 = m /\
    forall j, (j < m)%nat ->
      nth j p0 0%Z = path0_lane self (FSUMul.rng_idx self) (nth j input 0) j.
Proof.
  intros Hx Hsrc Hidx. unfold FSUMul.path_0, BSGen.
  destruct (bmap2_lanes (BSGen_bit (FSUMul.rng self)) m _ _ Hsrc Hidx)
    as (bs & Hbs & Lbs & _ & Nbs).
  rewrite Hbs. simpl.
  assert (Lx : lanes m (map to_int8 input)) by (apply lanes_exact; now rewrite length_map).
  destruct (bmap2_lanes Z.land m _ _ Lx Lbs) as (p0 & Hp0 & _ & Mp0 & Np0).
  exists p0. split; [exact Hp0|].
  assert (Lp0 : length p0 = m) by (apply Mp0; left; now rewrite length_map).
  split; [exact Lp0|].
  intros j Hj. rewrite <- (bget_nth p0 j 0%Z) by lia.
  rewrite (Np0 j 0%Z 0%Z 0%Z Hj), (Nbs j 0 0%Z 0%Z Hj).
  rewrite (@bget_map_lanes _ _ to_int8 m input j 0 0%Z) by (auto using lanes_exact).
  rewrite (bget_nth input _ _) by lia. reflexivity.
Qed.

Lemma FSUMul_path_1_lanes (self : FSUMul.t) (input : list Q) (m : nat) inv :
  length input = m ->
  lanes m (FSUMul.source_gen self) ->
  FSUMul.rng_idx_inv self = Some inv -> lanes m inv ->
  exists p1,
    FSUMul.path_1 self input = Ok p1 /\ length p1 = m /\
    forall j, (j < m)%nat ->
      nth j p1 0%Z = path1_lane self inv (nth j input 0) j.
Proof.
  intros Hx Hsrc Hinv Hidx. unfold FSUMul.path_1, BSGen. rewrite Hinv.
  destruct (bmap2_lanes (BSGen_bit (FSUMul.rng self)) m _ _ Hsrc Hidx)
    as (bs & Hbs & Lbs & _ & Nbs).
  rewrite Hbs. simpl.
  assert (Lx : lanes m (map (fun x => wrap8 (1 - to_int8 x)) input))
    by (apply lanes_exact; now rewrite length_map).
  destruct (bmap2_lanes Z.land m _ _ Lx (lanes_map (fun b => wrap8 (1 - b)) _ _ Lbs))
    as (p1 & Hp1 & _ & Mp1 & Np1).
  exists p1. split; [exact Hp1|].
  assert (Lp1 : length p1 = m) by (apply Mp1; left; now rewrite length_map).
  split; [exact Lp1|].
  intros j Hj. rewrite <- (bget_nth p1 j 0%Z) by lia.
  rewrite (Np1 j 0%Z 0%Z 0%Z Hj).
  rewrite (@bget_map_lanes _ _ (fun b => wrap8 (1 - b)) m bs j 0%Z 0%Z) by auto.
  rewrite (Nbs j 0 0%Z 0%Z Hj).
  rewrite (@bget_map_lanes _ _ (fun x => wrap8 (1 - to_int8 x)) m input j 0 0%Z)
    by (auto using lanes_exact).
  rewrite (bget_nth input _ _) by lia. reflexivity.
Qed.

(** The counter [idx] after it has advanced by [step x] in every lane. *)
Lemma counter_advance (step : Q -> Z) (idx : list Z) (input : list Q) (m : nat) :
  length input = m -> lanes m idx ->
  exists idx',
    bmap2 Z.add idx (map step input) = Ok idx' /\ length idx' = m /\
    forall j, (j < m)%nat ->
      nth j idx' 0%Z = (bget idx j 0 + step (nth j input 0%Q))%Z.
Proof.
  intros Hx Hidx.
  assert (Lx : lanes m (map step input)) by (apply lanes_exact; now rewrite length_map).
  destruct (bmap2_lanes Z.add m _ _ Hidx Lx) as (idx' & H & _ & Mi & Ni).
  exists idx'. split; [exact H|].
  assert (Li : length idx' = m) by (apply Mi; right; now rewrite length_map).
  split; [exact Li|].
  intros j Hj. rewrite <- (bget_nth idx' j 0%Z) by lia.
  rewrite (Ni j 0%Z 0%Z 0%Z Hj).
  rewrite (@bget_map_lanes _ _ step m input j 0 0%Z) by (auto using lanes_exact).
  rewrite (bget_nth input _ _) by lia. reflexivity.
Qed.

Lemma FSUMul_forward_unipolar (self : FSUMul.t) (input : list Q) (m : nat) :
  FSUMul.static self = true -> FSUMul.mode self = "unipolar" ->
  length input = m ->
  lanes m (FSUMul.source_gen self) -> lanes m (FSUMul.rng_idx self) ->
  exists p0 idx',
    FSUMul.forward input self =
      (Ok (map (fun b => astype (FSUMul.stype self) (to_float b)) p0),
       FSUMul.set_rng_idx idx' self) /\
    length p0 = m /\ length idx' = m /\
    forall j, (j < m)%nat ->
      nth j p0 0%Z = path0_lane self (FSUMul.rng_idx self) (nth j input 0) j /\
      nth j idx' 0%Z = (bget (FSUMul.rng_idx self) j 0 + to_long (nth j input 0%Q))%Z.
Proof.
  intros Hst Hmode Hx Hsrc Hidx.
  destruct (FSUMul_path_0_lanes self input m Hx Hsrc Hidx) as (p0 & Hp0 & Lp0 & Np0).
  destruct (counter_advance to_long _ input m Hx Hidx) as (idx' & Hi & Li & Ni).
  exists p0, idx'. split.
  - unfold FSUMul.forward, FSUMul.FSUMul_forward. munfold.
    rewrite Hst, Hp0. simpl. rewrite Hi. simpl. rewrite Hmode. reflexivity.
  - repeat split; auto.
Qed.

Lemma FSUMul_forward_bipolar (self : FSUMul.t) (input : list Q) (m : nat) inv :
  FSUMul.static self = true -> FSUMul.mode self = "bipolar" ->
  length input = m ->
  lanes m (FSUMul.source_gen self) -> lanes m (FSUMul.rng_idx self) ->
  FSUMul.rng_idx_inv self = Some inv -> lanes m inv ->
  exists out idx' inv',
    FSUMul.forward input self =
      (Ok (map (fun b => astype (FSUMul.stype self) (to_float b)) out),
       FSUMul.set_rng_idx_inv inv' (FSUMul.set_rng_idx idx' self)) /\
    length out = m /\ length idx' = m /\ length inv' = m /\
    forall j, (j < m)%nat ->
      nth j out 0%Z = Z.lor (path0_lane self (FSUMul.rng_idx self) (nth j input 0) j)
                            (path1_lane self inv (nth j input 0) j) /\
      nth j idx' 0%Z = (bget (FSUMul.rng_idx self) j 0 + to_long (nth j input 0%Q))%Z /\
      nth j inv' 0%Z = (bget inv j 0 + (1 - to_long (nth j input 0%Q)))%Z.
Proof.
  intros Hst Hmode Hx Hsrc Hidx Hinv Linv.
  destruct (FSUMul_path_0_lanes self input m Hx Hsrc Hidx) as (p0 & Hp0 & Lp0 & Np0).
  destruct (counter_advance to_long _ input m Hx Hidx) as (idx' & Hi & Li & Ni).
  destruct (FSUMul_path_1_lanes (FSUMul.set_rng_idx idx' self) input m inv Hx Hsrc Hinv Linv)
    as (p1 & Hp1 & Lp1 & Np1).
  destruct (counter_advance (fun x => (1 - to_long x)%Z) _ input m Hx Linv)
    as (inv' & Hv & Lv & Nv).
  destruct (bmap2_lanes Z.lor m p0 p1 (lanes_exact _ _ Lp0) (lanes_exact _ _ Lp1))
    as (out & Ho & _ & Mo & No).
  assert (Lo : length out = m) by (apply Mo; now left).
  exists out, idx', inv'. split.
  - unfold FSUMul.forward, FSUMul.FSUMul_forward. munfold.
    rewrite Hst, Hp0. simpl. rewrite Hi. simpl. rewrite Hmode. simpl.
    rewrite Hp1. simpl. rewrite Hinv, Hv. simpl. rewrite Ho. reflexivity.
  - repeat split; auto.
    rewrite <- (bget_nth out j 0%Z) by lia.
    rewrite (No j 0%Z 0%Z 0%Z H), !bget_nth by lia.
    rewrite (Np0 j H), (Np1 j H). reflexivity.
Qed.

(** ** Bits *)

Lemma bitZ_cases (x : Q) :
  is_bit x -> (x == 0 /\ bitZ x = 0%Z) \/ (x == 1 /\ bitZ x = 1%Z).
Proof.
  unfold bitZ. intros [H|H]; [left | right]; (split; [exact H|]); rewrite H; reflexivity.
Qed.

Lemma to_long_bit (x : Q) : is_bit x -> to_long x = bitZ x.
Proof.
  intros H. unfold to_long, bitZ. apply Qtrunc_nonneg.
  destruct H as [H|H]; rewrite H; discriminate.
Qed.

Lemma to_int8_bit (x : Q) : is_bit x -> to_int8 x = bitZ x.
Proof.
  intros H. unfold to_int8. fold (to_long x). rewrite (to_long_bit x H).
  destruct (bitZ_cases x H) as [[_ ->]|[_ ->]]; reflexivity.
Qed.

Lemma wrap8_compl_bit (b : Z) : is_bitZ b -> wrap8 (1 - b) = (1 - b)%Z.
Proof. intros [->| ->]; reflexivity. Qed.

Lemma bitZ_is_bit (x : Q) : is_bit x -> is_bitZ (bitZ x).
Proof. intros H. destruct (bitZ_cases x H) as [[_ ->]|[_ ->]]; [left | right]; reflexivity. Qed.

Lemma land_bits (a b : Z) : is_bitZ a -> is_bitZ b -> is_bitZ (Z.land a b).
Proof. intros [->| ->] [->| ->]; [left | left | left | right]; reflexivity. Qed.

Lemma lor_bits (a b : Z) : is_bitZ a -> is_bitZ b -> is_bitZ (Z.lor a b).
Proof. intros [->| ->] [->| ->]; [left | right | right | right]; reflexivity. Qed.

Lemma compl_bit (a : Z) : is_bitZ a -> is_bitZ (1 - a).
Proof. intros [->| ->]; [right | left]; reflexivity. Qed.

Lemma astype_to_float_bit t (b : Z) : is_bitZ b -> astype t (to_float b) = to_float b.
Proof. intros [->| ->]; destruct t; reflexivity. Qed.

Lemma path0_lane_bit self idx x j :
  is_bit x ->
  path0_lane self idx x j =
  Z.land (bitZ x) (BSGen_bit (FSUMul.rng self) (bget (FSUMul.source_gen self) j 0)
                             (bget idx j 0%Z)).
Proof. intros H. unfold path0_lane. rewrite (to_int8_bit x H). reflexivity. Qed.

Lemma path1_lane_bit self inv x j :
  is_bit x ->
  path1_lane self inv x j =
  Z.land (1 - bitZ x)
         (1 - BSGen_bit (FSUMul.rng self) (bget (FSUMul.source_gen self) j 0)
                        (bget inv j 0%Z)).
Proof.
  intros H. unfold path1_lane. rewrite (to_int8_bit x H).
  rewrite (wrap8_compl_bit _ (bitZ_is_bit x H)).
  rewrite (wrap8_compl_bit _ (BSGen_bit_is_bit _ _ _)). reflexivity.
Qed.

Lemma nth_bit (input : list Q) (j : nat) :
  Forall is_bit input -> (j < length input)%nat -> is_bit (nth j input 0).
Proof. intros H Hj. rewrite Forall_forall in H. apply H, nth_In, Hj. Qed.

(** ** C5: the static multiplier *)

(** C5.  A static [FSUMul] on a bit tensor of [m] lanes.  Unipolar: the
    output of lane [j] is the AND of the live bit and the bit the generator
    emits at the current counter position, and the counter advances by the
    live bit, so only on cycles where that bit is 1.  Bipolar: a second
    counter addresses the same generator, whose bit is complemented; it
    advances by the complement of the live bit, so only on cycles where that
    bit is 0; the output is the OR of the two path bits. *)
Theorem static_multiplier_cycle :
  forall (self : FSUMul.t) (input : list Q) (m : nat),
    FSUMul.static self = true ->
    length input = m -> Forall is_bit input ->
    lanes m (FSUMul.source_gen self) -> lanes m (FSUMul.rng_idx self) ->
    (FSUMul.mode self = "unipolar" ->
     exists out self',
       FSUMul.forward input self = (Ok out, self') /\
       length out = m /\ length (FSUMul.rng_idx self') = m /\
       forall j, (j < m)%nat ->
         let x := bitZ (nth j input 0) in
         nth j out 0 = to_float (Z.land x (gen_bit self (FSUMul.rng_idx self) j)) /\
         nth j (FSUMul.rng_idx self') 0%Z = (bget (FSUMul.rng_idx self) j 0 + x)%Z /\
         (x = 0%Z \/ x = 1%Z)) /\
    (FSUMul.mode self = "bipolar" ->
     forall inv, FSUMul.rng_idx_inv self = Some inv -> lanes m inv ->
     exists out self' inv',
       FSUMul.forward input self = (Ok out, self') /\
       FSUMul.rng_idx_inv self' = Some inv' /\
       length out = m /\ length (FSUMul.rng_idx self') = m /\ length inv' = m /\
       forall j, (j < m)%nat ->
         let x := bitZ (nth j input 0) in
         let path_0 := Z.land x (gen_bit self (FSUMul.rng_idx self) j) in
         let path_1 := Z.land (1 - x) (1 - gen_bit self inv j) in
         nth j out 0 = to_float (Z.lor path_0 path_1) /\
         nth j (FSUMul.rng_idx self') 0%Z = (bget (FSUMul.rng_idx self) j 0 + x)%Z /\
         nth j inv' 0%Z = (bget inv j 0 + (1 - x))%Z /\
         (x = 0%Z \/ x = 1%Z)).
Proof.
  intros self input m Hst Hx Hbits Hsrc Hidx. split.
  - intros Hmode.
    destruct (FSUMul_forward_unipolar self input m Hst Hmode Hx Hsrc Hidx)
      as (p0 & idx' & Hf & Lp & Li & Hl).
    eexists. eexists. split; [exact Hf|]. simpl.
    split; [now rewrite length_map|]. split; [exact Li|].
    intros j Hj. unfold gen_bit.
    assert (Hb : is_bit (nth j input 0)) by (apply nth_bit; [exact Hbits | lia]).
    destruct (Hl j Hj) as [H0 Hi].
    rewrite path0_lane_bit in H0 by exact Hb. rewrite to_long_bit in Hi by exact Hb.
    split; [|split; [exact Hi | apply bitZ_is_bit, Hb]].
    rewrite (nth_map_in _ _ _ 0%Z _) by lia. rewrite H0.
    apply astype_to_float_bit, land_bits;
      [apply bitZ_is_bit, Hb | apply BSGen_bit_is_bit].
  - intros Hmode inv Hinv Linv.
    destruct (FSUMul_forward_bipolar self input m inv Hst Hmode Hx Hsrc Hidx Hinv Linv)
      as (out & idx' & inv' & Hf & Lo & Li & Lv & Hl).
    eexists. eexists. exists inv'. split; [exact Hf|]. simpl.
    split; [reflexivity|]. split; [now rewrite length_map|].
    split; [exact Li|]. split; [exact Lv|].
    intros j Hj. unfold gen_bit.
    assert (Hb : is_bit (nth j input 0)) by (apply nth_bit; [exact Hbits | lia]).
    destruct (Hl j Hj) as (H0 & Hi & Hv).
    rewrite path0_lane_bit, path1_lane_bit in H0 by exact Hb.
    rewrite to_long_bit in Hi, Hv by exact Hb.
    split; [|split; [exact Hi | split; [exact Hv | apply bitZ_is_bit, Hb]]].
    rewrite (nth_map_in _ _ _ 0%Z _) by lia. rewrite H0.
    apply astype_to_float_bit, lor_bits; apply land_bits;
      try apply compl_bit; try apply BSGen_bit_is_bit; apply bitZ_is_bit, Hb.
Qed.

Lemma static_multiplier_cycle_witness :
  (FSUMul.static mul_unipolar = true /\ Forall is_bit [1] /\
   exists out self', FSUMul.forward [1] mul_unipolar = (Ok out, self')) /\
  (FSUMul.static mul_bipolar = true /\ Forall is_bit [0] /\
   exists out self', FSUMul.forward [0] mul_bipolar = (Ok out, self')).
Proof.
  assert (H1 : Forall is_bit [1]) by (repeat constructor; right; reflexivity).
  assert (H0 : Forall is_bit [0]) by (repeat constructor; left; reflexivity).
  split.
  - split; [reflexivity|]. split; [exact H1|].
    destruct (proj1 (static_multiplier_cycle mul_unipolar [1] 1 eq_refl eq_refl H1
                       (or_introl eq_refl) (or_introl eq_refl)) eq_refl)
      as (out & self' & Hf & _).
    exists out, self'. exact Hf.
  - split; [reflexivity|]. split; [exact H0|].
    destruct (proj2 (static_multiplier_cycle mul_bipolar [0] 1 eq_refl eq_refl H0
                       (or_introl eq_refl) (or_introl eq_refl))
                eq_refl [0%Z] eq_refl (or_introl eq_refl))
      as (out & self' & inv' & Hf & _).
    exists out, self'. exact Hf.
Defined.

(** ** C10: the two counters of the bipolar multiplier partition time *)

Lemma BSGen_scalar_idx (source rng_seq : list Q) (a : Z) :
  exists bs, BSGen source rng_seq [a] = Ok bs /\ length bs = length source.
Proof.
  unfold BSGen. destruct (Nat.eq_dec (length source) 1) as [H|H].
  - destruct (length_one _ H) as [s ->]. rewrite bmap2_left. eexists. split; reflexivity.
  - rewrite bmap2_right by exact H. eexists. split; [reflexivity | apply length_map].
Qed.

Lemma FSUMul_forward_scalar_bipolar (self : FSUMul.t) (x : Q) (a b : Z) :
  FSUMul.static self = true -> FSUMul.mode self = "bipolar" ->
  counters self a b ->
  exists out,
    FSUMul.forward [x] self =
      (Ok out,
       FSUMul.set_rng_idx_inv [(b + (1 - to_long x))%Z]
         (FSUMul.set_rng_idx [(a + to_long x)%Z] self)).
Proof.
  intros Hst Hmode [Ha Hb].
  destruct (BSGen_scalar_idx (FSUMul.source_gen self) (FSUMul.rng self) a)
    as (bs & Hbs & Lbs).
  destruct (BSGen_scalar_idx (FSUMul.source_gen self) (FSUMul.rng self) b)
    as (bsi & Hbsi & Lbsi).
  destruct (bmap2_Ok Z.lor
              (map (Z.land (to_int8 x)) bs)
              (map (Z.land (wrap8 (1 - to_int8 x))) (map (fun b => wrap8 (1 - b)) bsi)))
    as [out Hout].
  { right. right. rewrite !length_map. congruence. }
  eexists.
  unfold FSUMul.forward, FSUMul.FSUMul_forward, FSUMul.path_0, FSUMul.path_1.
  munfold. rewrite Hst, Ha, Hbs. simpl. rewrite Hmode. simpl.
  rewrite Hb, Hbsi. simpl. rewrite Hout. reflexivity.
Qed.

Lemma FSUMul_states_counters (inputs : list (list Q)) :
  Forall scalar_bit inputs ->
  forall (self : FSUMul.t) (a b : Z),
    FSUMul.static self = true -> FSUMul.mode self = "bipolar" ->
    counters self a b ->
    length (FSUMul_states inputs self) = length inputs /\
    forall k, (k < length inputs)%nat ->
      exists a' b',
        counters (nth k (FSUMul_states inputs self) self) a' b' /\
        (a' + b' = a + b + Z.of_nat (k + 1))%Z.
Proof.
  induction 1 as [|x xs (v & -> & Hv) _ IH]; intros self a b Hst Hmode Hc.
  - split; [reflexivity | simpl; intros; lia].
  - destruct (FSUMul_forward_scalar_bipolar self v a b Hst Hmode Hc) as [out Hf].
    simpl. rewrite Hf.
    set (self' := FSUMul.set_rng_idx_inv [(b + (1 - to_long v))%Z]
                    (FSUMul.set_rng_idx [(a + to_long v)%Z] self)).
    assert (Hc' : counters self' (a + to_long v) (b + (1 - to_long v)))
      by (split; reflexivity).
    destruct (IH self' _ _ Hst Hmode Hc') as [Hlen Hk].
    split; [simpl; now rewrite Hlen|].
    intros [|k] Hlt.
    + exists (a + to_long v)%Z, (b + (1 - to_long v))%Z. split; [exact Hc'|]. lia.
    + destruct (Hk k) as (a' & b' & Hck & Hsum); [simpl in Hlt; lia|].
      exists a', b'. split.
      * simpl. rewrite (nth_indep _ self self') by lia. exact Hck.
      * lia.
Qed.

(** C10.  Build a static bipolar [FSUMul] and feed it scalar bits.  Every
    call advances [rng_idx] by the live bit and [rng_idx_inv] by its
    complement, no call fails, and after the call number [k + 1] the two
    counters add up to [k + 1]. *)
Theorem counters_partition_time :
  forall (RNG : Z -> Z -> string -> list Q) (SourceGen : Q -> Z -> string -> Q)
         (bitwidth : Z) (input_prob_1 : list Q) (stype : dtype) (self0 : FSUMul.t),
    FSUMul.init RNG SourceGen bitwidth "bipolar" true input_prob_1 stype = Ok self0 ->
    (forall (self : FSUMul.t) (x : Q) (a b : Z),
       FSUMul.static self = true -> FSUMul.mode self = "bipolar" ->
       counters self a b -> is_bit x ->
       exists out self',
         FSUMul.forward [x] self = (Ok out, self') /\
         counters self' (a + bitZ x) (b + (1 - bitZ x))) /\
    (forall inputs : list (list Q),
       Forall scalar_bit inputs ->
       let states := FSUMul_states inputs self0 in
       length states = length inputs /\
       forall k, (k < length inputs)%nat ->
         exists a b,
           counters (nth k states self0) a b /\
           (a + b = Z.of_nat (k + 1))%Z).
Proof.
  intros RNG SourceGen bitwidth probs stype self0 Hinit.
  unfold FSUMul.init in Hinit. simpl in Hinit. injection Hinit as <-.
  split.
  - intros self x a b Hst Hmode Hc Hx.
    destruct (FSUMul_forward_scalar_bipolar self x a b Hst Hmode Hc) as [out Hf].
    eexists. eexists. split; [exact Hf|].
    rewrite <- (to_long_bit x Hx). split; reflexivity.
  - intros inputs Hin states.
    apply (FSUMul_states_counters inputs Hin _ 0%Z 0%Z); try reflexivity.
    split; reflexivity.
Qed.

Lemma counters_partition_time_witness :
  let self0 := FSUMul.mk 2 "bipolar" true torch_float [0; 2; 1; 3] [2] [0%Z] (Some [0%Z]) in
  let inputs := [[1]; [0]; [1]] in
  FSUMul.init rng4 src_id 2 "bipolar" true [2] torch_float = Ok self0 /\
  Forall scalar_bit inputs /\
  exists a b,
    counters (nth 2 (FSUMul_states inputs self0) self0) a b /\ (a + b = 3)%Z.
Proof.
  intros self0 inputs.
  assert (Hin : Forall scalar_bit inputs).
  { unfold inputs, scalar_bit.
    repeat constructor; eexists; (split; [reflexivity|]);
      ((left; reflexivity) || (right; reflexivity)). }
  split; [reflexivity|]. split; [exact Hin|].
  destruct (proj2 (counters_partition_time rng4 src_id 2 [2] torch_float self0 eq_refl)
              inputs Hin) as [_ Hk].
  apply (Hk 2%nat). simpl. lia.
Defined.

(** ** C7: configuration errors surface in the constructor *)

(** C7.  Each of the four unsupported configurations makes the constructor
    itself raise: bipolar non-scaled [GainesAdd]; [FSUMul] with
    [static=False]; [UnaryReLU] with a shift register of depth above 127;
    [FXPLinear] with [keep_res='output'], an odd integer bitwidth and a
    [more_res] that is neither ['input'] nor ['weight'].  The constructor
    returns no instance, so no [forward] call can precede the error. *)
Theorem configuration_errors_at_construction :
  (forall RNG acc_dim rng rng_dim rng_width stype,
     GainesAdd.init RNG "bipolar" false acc_dim rng rng_dim rng_width stype =
     Raise (ValueError
       "Non-scaled addition for biploar data is not supported in Gaines approach."))
  /\
  (forall RNG SourceGen bitwidth mode input_prob_1 stype,
     FSUMul.init RNG SourceGen bitwidth mode false input_prob_1 stype =
     Raise (ValueError "FSUMul in-stream mode is not implemented."))
  /\
  (forall depth bitwidth encode btype stype,
     (127 < depth)%Z ->
     UnaryReLU.init depth bitwidth encode true btype stype =
     Raise (AssertionError
       "When using shift register implementation, buffer depth should be less than 127."))
  /\
  (forall weight_init bias_init bias weight_ext bias_ext bitwidth more_res rounding,
     (bitwidth mod 2 <> 0)%Z ->
     more_res <> "input" -> more_res <> "weight" ->
     FXPLinear.init weight_init bias_init bias weight_ext bias_ext
       (FXPLinear.BwInt bitwidth) "output" more_res rounding =
     Raise (ValueError
       "more_res should be either 'input' or 'weight' when bitwidth is not a tuple and keep_res is 'output'.")).
Proof.
  split; [|split; [|split]].
  - reflexivity.
  - reflexivity.
  - intros depth bitwidth encode btype stype H. unfold UnaryReLU.init.
    destruct (Z.leb_spec depth 127); [lia | reflexivity].
  - intros w0 b0 bias wext bext bitwidth more_res rounding Hodd Hi Hw.
    unfold FXPLinear.init.
    change ("output" =? "input") with false. change ("output" =? "output") with true.
    simpl. destruct (Z.eqb_spec (bitwidth mod 2) 0); [contradiction|].
    apply String.eqb_neq in Hi, Hw. rewrite Hi, Hw. reflexivity.
Qed.

Lemma configuration_errors_at_construction_witness :
  ((127 < 128)%Z /\
   exists e, UnaryReLU.init 128 8 "RC" true torch_float torch_float = Raise e) /\
  ((7 mod 2 <> 0)%Z /\ "output" <> "input" /\ "output" <> "weight" /\
   exists e, FXPLinear.init [] [] false None None (FXPLinear.BwInt 7)
               "output" "output" "round" = Raise e).
Proof.
  split.
  - split; [reflexivity|]. eexists.
    apply (proj1 (proj2 (proj2 configuration_errors_at_construction))). reflexivity.
  - assert (H1 : (7 mod 2 <> 0)%Z) by discriminate.
    assert (H2 : "output" <> "input") by discriminate.
    assert (H3 : "output" <> "weight") by discriminate.
    split; [exact H1|]. split; [exact H2|]. split; [exact H3|]. eexists.
    apply (proj2 (proj2 (proj2 configuration_errors_at_construction))
             [] [] false None None 7%Z "output" "round" H1 H2 H3).
Defined.

(** ** C4: the weight counter policy of FSULinearPC *)

(** C4, the code at the failing input.  The test of line 149,
    [hwcfg["rng"].lower() == "race" or "tc"], is truthy for every rng kind,
    so every instance has [wtc = True]; constructed with the rate-coded kind
    ["Sobol"], [forward] on an input bit 0 still advances the weight counter
    from 0 to 1, where the rate-coded policy [FSULinear_PC_wrc] would have
    left it at 0. *)
Theorem weight_policy_always_temporal :
  (forall RNG BinGen weight_init bias_init in_features out_features bias
          weight_ext bias_ext width mode rng dimr stype,
     match FSULinearPC.init RNG BinGen weight_init bias_init in_features
             out_features bias weight_ext bias_ext width mode rng dimr stype with
     | Ok self => FSULinearPC.wtc self = true
     | Raise _ => True
     end) /\
  (exists self,
     FSULinearPC.init rng4 src_id [[2]] [] 1 1 false None None
       2 "unipolar" "Sobol" 1 torch_float = Ok self /\
     FSULinearPC.wtc self = true /\
     FSULinearPC.wrdx_i1 self = [[[0%Z]]] /\
     FSULinearPC.wrdx_i1 (snd (FSULinearPC.forward [[0]] self)) = [[[1%Z]]] /\
     FSULinearPC.wrdx_i1 (snd (FSULinearPC.FSULinear_PC_wrc [[0]] self)) = [[[0%Z]]]).
Proof.
  split.
  - intros. unfold FSULinearPC.init.
    change (truthy "tc") with true. rewrite orb_true_r.
    repeat match goal with
           | |- context [match ?x with _ => _ end] =>
               lazymatch x with
               | context [match _ with _ => _ end] => fail
               | _ => destruct x
               end; simpl; try exact I
           end; reflexivity.
  - eexists. split; [reflexivity|]. repeat split; reflexivity.
Qed.

(** ** The shift register *)

Lemma ShiftReg_forward_lanes (reg : ShiftReg.t) (output : list Q) (m : nat) :
  lanes m (ShiftReg.sr reg) -> length output = m ->
  exists sr' evicted,
    ShiftReg.forward output reg =
      (Ok (evicted, map Qsum sr'), ShiftReg.mk (ShiftReg.depth reg) sr') /\
    length sr' = m /\
    forall j, (j < m)%nat ->
      nth j sr' [] = ShiftReg.push (bget (ShiftReg.sr reg) j []) (nth j output 0).
Proof.
  intros Hsr Hout.
  destruct (bmap2_lanes ShiftReg.push m _ _ Hsr (lanes_exact _ _ Hout))
    as (sr' & Hp & _ & Mp & Np).
  destruct (bmap2_lanes (fun buf bit => last (bit :: buf) 0) m _ _ Hsr
              (lanes_exact _ _ Hout)) as (ev & He & _).
  assert (Lsr : length sr' = m) by (apply Mp; now right).
  exists sr', ev. split; [|split; [exact Lsr|]].
  - unfold ShiftReg.forward. munfold. rewrite Hp. simpl. rewrite He. reflexivity.
  - intros j Hj. rewrite <- (bget_nth sr' j []) by lia.
    rewrite (Np j [] 0 [] Hj), (bget_nth output) by lia. reflexivity.
Qed.

Lemma removelast_cons_repeat (x z : Q) (d : nat) :
  (0 < d)%nat -> removelast (x :: repeat z d) = x :: repeat z (d - 1).
Proof.
  intros Hd. destruct d as [|d]; [lia|].
  change (removelast (x :: repeat z (S d))) with (x :: removelast (repeat z (S d))).
  f_equal. replace (S d - 1)%nat with d by lia.
  replace (S d) with (d + 1)%nat by lia. rewrite repeat_app. simpl.
  apply removelast_last.
Qed.

Lemma Qsum_repeat_0 (d : nat) : Qsum (repeat 0 d) == 0.
Proof. induction d as [|d IH]; simpl; [reflexivity | rewrite IH; reflexivity]. Qed.

Lemma astype_one t : astype t 1 = 1.
Proof. apply (astype_flagQ t true). Qed.

(** ** C8: the smoothed rate-coded ReLU *)

(** The numbers of the constructor, depth by depth. *)
Lemma depth_cases (P : Z -> bool) (lo n : nat) (d : Z) :
  forallb (fun k => P (Z.of_nat k)) (seq lo n) = true ->
  (Z.of_nat lo <= d < Z.of_nat (lo + n))%Z -> P d = true.
Proof.
  intros Hall Hd. rewrite forallb_forall in Hall.
  specialize (Hall (Z.to_nat d)). rewrite Z2Nat.id in Hall by lia.
  apply Hall, in_seq. lia.
Qed.

Lemma fill_depth_half d btype :
  (1 <= d <= 64)%Z ->
  exists h, UnaryReLU.fill_ false (inject_Z d / 2) = Ok h /\
            astype btype h == depth_half_in btype d.
Proof.
  intros Hd. unfold UnaryReLU.fill_. simpl. eexists. split; [reflexivity|].
  pose (P := fun d : Z => Qeq_bool (f32 (inject_Z d / 2)) (inject_Z d / 2)
                        && Qeq_bool (astype torch_int8 (f32 (inject_Z d / 2)))
                                    (inject_Z (d / 2))
                        && Qeq_bool (astype torch_long (f32 (inject_Z d / 2)))
                                    (inject_Z (d / 2))).
  assert (H : P d = true)
    by (apply (depth_cases P 1 64); [vm_compute; reflexivity | lia]).
  unfold P in H. clear P. apply andb_prop in H as [H H3]. apply andb_prop in H as [H1 H2].
  destruct btype; apply Qeq_bool_iff; assumption.
Qed.

Lemma fill_buf_max d :
  (1 <= d <= 64)%Z ->
  UnaryReLU.fill_ (0 <=? d)%Z (Qpower 2 d - 1) = Ok (f32 (Qpower 2 d - 1)).
Proof.
  intros Hd. unfold UnaryReLU.fill_.
  pose (P := fun d : Z => negb ((0 <=? d)%Z &&
                 (Qle_bool (Qpower 2 64) (Qpower 2 d - 1)
                  || negb (Qle_bool (- Qpower 2 63) (Qpower 2 d - 1))))).
  assert (H : P d = true)
    by (apply (depth_cases P 1 64); [vm_compute; reflexivity | lia]).
  unfold P in H. clear P. apply negb_true_iff in H. rewrite H. reflexivity.
Qed.

Lemma fill_buf_max_overflow d :
  (65 <= d <= 127)%Z ->
  UnaryReLU.fill_ (0 <=? d)%Z (Qpower 2 d - 1) = Raise OverflowError.
Proof.
  intros Hd. unfold UnaryReLU.fill_.
  pose (P := fun d : Z => (0 <=? d)%Z &&
                 (Qle_bool (Qpower 2 64) (Qpower 2 d - 1)
                  || negb (Qle_bool (- Qpower 2 63) (Qpower 2 d - 1)))).
  assert (H : P d = true)
    by (apply (depth_cases P 65 63); [vm_compute; reflexivity | lia]).
  unfold P in H. clear P. rewrite H. reflexivity.
Qed.

Lemma fill_buf_half d :
  (1 <= d <= 64)%Z ->
  UnaryReLU.fill_ (0 <=? d - 1)%Z (Qpower 2 (d - 1)) = Ok (f32 (Qpower 2 (d - 1))).
Proof.
  intros Hd. unfold UnaryReLU.fill_.
  pose (P := fun d : Z => negb ((0 <=? d - 1)%Z &&
                 (Qle_bool (Qpower 2 64) (Qpower 2 (d - 1))
                  || negb (Qle_bool (- Qpower 2 63) (Qpower 2 (d - 1)))))).
  assert (H : P d = true)
    by (apply (depth_cases P 1 64); [vm_compute; reflexivity | lia]).
  unfold P in H. clear P. apply negb_true_iff in H. rewrite H. reflexivity.
Qed.

Lemma UnaryReLU_first_call depth bitwidth btype stype input :
  (1 <= depth <= 64)%Z ->
  exists self0 self1,
    UnaryReLU.init depth bitwidth "RC" true btype stype = Ok self0 /\
    UnaryReLU.forward input self0 = (Ok (map (fun _ => 1) input), self1) /\
    UnaryReLU.init_ self0 = true /\
    UnaryReLU.init_ self1 = false /\
    ShiftReg.sr (UnaryReLU.shiftreg self1) =
      map (fun _ => 1 :: repeat 0 (Z.to_nat depth - 1)) input /\
    length (UnaryReLU.sr_cnt self1) = length input /\
    Forall (fun c => c == 1) (UnaryReLU.sr_cnt self1) /\
    UnaryReLU.encode self1 = "RC" /\ UnaryReLU.sr self1 = true /\
    UnaryReLU.depth_half self1 == depth_half_in btype depth /\
    UnaryReLU.depth self1 = depth.
Proof.
  intros [Hd1 Hd2].
  destruct (fill_depth_half depth btype (conj Hd1 Hd2)) as (h & Hh & Hhalf).
  unfold UnaryReLU.init.
  destruct (Z.leb_spec depth 127) as [_|]; [|lia].
  rewrite Hh. simpl.
  change ("RC" =? "RC") with true. cbv iota.
  rewrite (fill_buf_max depth (conj Hd1 Hd2)). simpl.
  rewrite (fill_buf_half depth (conj Hd1 Hd2)). simpl.
  eexists. eexists. split; [reflexivity|]. split.
  { unfold UnaryReLU.forward, UnaryReLU.UnaryReLU_forward_rc_sr,
      UnaryReLU.rc_sr_output, ShiftReg.forward.
    munfold. change ("RC" =? "RC") with true. simpl.
    apply f_equal2; [|reflexivity]. f_equal.
    rewrite map_map. apply map_ext. intros _.
    rewrite !astype_one. reflexivity. }
  simpl. repeat split; try reflexivity.
  - rewrite !map_map. apply map_ext. intros _.
    rewrite astype_one. unfold ShiftReg.push.
    apply removelast_cons_repeat. lia.
  - now rewrite !length_map.
  - rewrite !map_map. apply Forall_forall. intros c Hc.
    apply in_map_iff in Hc as (x & <- & _).
    rewrite astype_one. unfold ShiftReg.push.
    rewrite removelast_cons_repeat by lia. simpl. rewrite Qsum_repeat_0. reflexivity.
  - exact Hhalf.
Qed.

Lemma map_id_on {A} (f : A -> A) (l : list A) :
  Forall (fun x => f x = x) l -> map f l = l.
Proof. induction 1 as [|x l Hx _ IH]; simpl; [reflexivity | now rewrite Hx, IH]. Qed.

Lemma UnaryReLU_later_call (self : UnaryReLU.t) (input : list Q) (m : nat) :
  UnaryReLU.encode self = "RC" -> UnaryReLU.sr self = true ->
  UnaryReLU.init_ self = false ->
  length input = m -> Forall is_bit input ->
  lanes m (UnaryReLU.sr_cnt self) ->
  lanes m (ShiftReg.sr (UnaryReLU.shiftreg self)) ->
  exists out self',
    UnaryReLU.forward input self = (Ok out, self') /\
    UnaryReLU.rc_sr_output self input = Ok out /\
    length out = m /\
    (forall j, (j < m)%nat ->
       nth j out 0 =
       to_float (Z.lor (flagZ (lt (bget (UnaryReLU.sr_cnt self) j 0)
                                  (UnaryReLU.depth_half self)))
                       (bitZ (nth j input 0)))) /\
    length (ShiftReg.sr (UnaryReLU.shiftreg self')) = m /\
    length (UnaryReLU.sr_cnt self') = m /\
    (forall j, (j < m)%nat ->
       nth j (ShiftReg.sr (UnaryReLU.shiftreg self')) [] =
         ShiftReg.push (bget (ShiftReg.sr (UnaryReLU.shiftreg self)) j [])
                       (nth j out 0) /\
       nth j (UnaryReLU.sr_cnt self') 0 =
         Qsum (nth j (ShiftReg.sr (UnaryReLU.shiftreg self')) [])) /\
    UnaryReLU.init_ self' = false /\
    UnaryReLU.encode self' = "RC" /\ UnaryReLU.sr self' = true /\
    UnaryReLU.depth_half self' = UnaryReLU.depth_half self /\
    UnaryReLU.depth self' = UnaryReLU.depth self.
Proof.
  intros He Hs Hi Hx Hbits Hcnt Hsr.
  set (f := fun c i => astype (UnaryReLU.stype self)
              (to_float (Z.lor (flagZ (lt c (UnaryReLU.depth_half self))) i))).
  assert (Lx : lanes m (map to_int8 input))
    by (apply lanes_exact; now rewrite length_map).
  destruct (bmap2_lanes f m _ _ Hcnt Lx) as (out & Ho & _ & Mo & No).
  assert (Lo : length out = m) by (apply Mo; right; now rewrite length_map).
  assert (Hout : forall j, (j < m)%nat ->
            nth j out 0 = to_float (Z.lor (flagZ (lt (bget (UnaryReLU.sr_cnt self) j 0)
                                                   (UnaryReLU.depth_half self)))
                                          (bitZ (nth j input 0)))).
  { intros j Hj. rewrite <- (bget_nth out j 0) by lia.
    rewrite (No j 0 0%Z 0 Hj). unfold f.
    rewrite (bget_map_lanes to_int8 m input j 0 0%Z) by (auto using lanes_exact).
    rewrite (bget_nth input _ _) by lia.
    assert (Hb : is_bit (nth j input 0)) by (apply nth_bit; [exact Hbits | lia]).
    rewrite (to_int8_bit _ Hb).
    apply astype_to_float_bit, lor_bits; [|apply bitZ_is_bit, Hb].
    unfold is_bitZ, flagZ. destruct (lt _ _); auto. }
  assert (Hcast : map (astype (UnaryReLU.stype self)) out = out).
  { apply map_id_on, Forall_forall. intros o Ho'.
    destruct (In_nth _ _ 0 Ho') as (j & Hj & <-). rewrite (Hout j) by lia.
    assert (Hb : is_bit (nth j input 0)) by (apply nth_bit; [exact Hbits | lia]).
    apply astype_to_float_bit, lor_bits; [|apply bitZ_is_bit, Hb].
    unfold is_bitZ, flagZ. destruct (lt _ _); auto. }
  destruct (ShiftReg_forward_lanes (UnaryReLU.shiftreg self) out m Hsr Lo)
    as (sr' & ev & Hf & Lsr & Nsr).
  assert (Hrule : UnaryReLU.rc_sr_output self input = Ok out).
  { unfold UnaryReLU.rc_sr_output. rewrite Hi. exact Ho. }
  eexists. eexists. split.
  { unfold UnaryReLU.forward, UnaryReLU.UnaryReLU_forward_rc_sr. munfold.
    rewrite He. change ("RC" =? "RC") with true. simpl. rewrite Hs. simpl.
    rewrite Hrule. simpl. rewrite Hi. simpl. rewrite Hf. simpl.
    rewrite Hcast. reflexivity. }
  simpl. repeat split; auto.
  - now rewrite length_map.
  - rewrite (nth_map_in Qsum sr' j [] 0) by lia. reflexivity.
Qed.

(** C8, as stated, fails for an integer [btype]: the constructor keeps
    [depth/2] in a register of type [btype], so with [torch.long] and depth
    5 the half is 2, not 2.5.  After two calls the population count is 2,
    and the third call on input 0 outputs 0, where input OR (2 < 2.5) is
    1. *)
Lemma smoothed_relu_truncated_half : ~ smoothed_relu_any_btype.
Proof.
  intros H.
  pose (s0 := UnaryReLU.mk 5 "RC" true torch_float torch_long (ShiftReg.init 5)
                2 [0] true 31 16 [16] 0 0).
  pose (xs := [[0]; [0]; [0]] : list (list Q)).
  assert (Hb : Forall (Forall is_bit) xs)
    by (repeat constructor; left; reflexivity).
  assert (Hk : (0 < 2 < length (run_calls UnaryReLU.forward xs s0))%nat)
    by (vm_compute; lia).
  assert (Hj : (0 < length (output_of UnaryReLU.forward xs s0 2 []))%nat)
    by (vm_compute; lia).
  specialize (H 5%Z 8%Z torch_long torch_float s0 xs 2%nat ltac:(lia) eq_refl
                Hb Hk 0%nat Hj).
  vm_compute in H. discriminate H.
Qed.

(** C8 (amended).  An [UnaryReLU] with [encode="RC"] and a shift register.
    For a depth between 1 and 64 the constructor succeeds and keeps
    [depth/2] as the type [btype] holds it (the half itself for
    [torch.float], its integer part for an integer type); the first
    [forward] outputs 1 in every element whatever the input, after which
    every ring buffer holds a leading 1 followed by zeros and every
    population count equals 1.  For a depth between 65 and 127 the
    constructor raises [OverflowError] (line 31 fills a tensor with
    [2^depth - 1]).  Every later [forward] on a bit tensor outputs, element
    by element, the input bit OR (population count < [depth_half]), the
    count being the one left by the previous call; the ring buffer then
    receives that output and the count becomes the number of 1s in the
    buffer. *)
Theorem smoothed_relu_cycles :
  (forall depth bitwidth btype stype input,
     (1 <= depth <= 64)%Z ->
     exists self0 self1,
       UnaryReLU.init depth bitwidth "RC" true btype stype = Ok self0 /\
       UnaryReLU.forward input self0 = (Ok (map (fun _ => 1) input), self1) /\
       UnaryReLU.init_ self1 = false /\
       ShiftReg.sr (UnaryReLU.shiftreg self1) =
         map (fun _ => 1 :: repeat 0 (Z.to_nat depth - 1)) input /\
       length (UnaryReLU.sr_cnt self1) = length input /\
       Forall (fun c => c == 1) (UnaryReLU.sr_cnt self1) /\
       UnaryReLU.encode self1 = "RC" /\ UnaryReLU.sr self1 = true /\
       UnaryReLU.depth self1 = depth /\
       UnaryReLU.depth_half self1 == depth_half_in btype depth) /\
  (forall depth bitwidth btype stype,
     (65 <= depth <= 127)%Z ->
     UnaryReLU.init depth bitwidth "RC" true btype stype = Raise OverflowError) /\
  (forall (self : UnaryReLU.t) (input : list Q) (m : nat),
     UnaryReLU.encode self = "RC" -> UnaryReLU.sr self = true ->
     UnaryReLU.init_ self = false ->
     length input = m -> Forall is_bit input ->
     lanes m (UnaryReLU.sr_cnt self) ->
     lanes m (ShiftReg.sr (UnaryReLU.shiftreg self)) ->
     exists out self',
       UnaryReLU.forward input self = (Ok out, self') /\
       UnaryReLU.rc_sr_output self input = Ok out /\
       length out = m /\
       (forall j, (j < m)%nat ->
          let count := bget (UnaryReLU.sr_cnt self) j 0 in
          nth j out 0 =
          to_float (Z.lor (flagZ (lt count (UnaryReLU.depth_half self)))
                          (bitZ (nth j input 0)))) /\
       length (ShiftReg.sr (UnaryReLU.shiftreg self')) = m /\
       length (UnaryReLU.sr_cnt self') = m /\
       (forall j, (j < m)%nat ->
          nth j (ShiftReg.sr (UnaryReLU.shiftreg self')) [] =
            ShiftReg.push (bget (ShiftReg.sr (UnaryReLU.shiftreg self)) j [])
                          (nth j out 0) /\
          nth j (UnaryReLU.sr_cnt self') 0 =
            Qsum (nth j (ShiftReg.sr (UnaryReLU.shiftreg self')) [])) /\
       UnaryReLU.init_ self' = false /\
       UnaryReLU.encode self' = "RC" /\ UnaryReLU.sr self' = true /\
       UnaryReLU.depth self' = UnaryReLU.depth self /\
       UnaryReLU.depth_half self' = UnaryReLU.depth_half self).
Proof.
  split; [|split].
  - intros depth bitwidth btype stype input Hd.
    destruct (UnaryReLU_first_call depth bitwidth btype stype input Hd)
      as (self0 & self1 & Hinit & Hf & _ & Hi & Hsr & Hl & Hc & He & Hs & Hh & Hdp).
    exists self0, self1. repeat split; auto.
  - intros depth bitwidth btype stype Hd. unfold UnaryReLU.init.
    destruct (Z.leb_spec depth 127) as [_|]; [|lia].
    unfold UnaryReLU.fill_ at 1. simpl.
    change ("RC" =? "RC") with true. cbv iota.
    rewrite (fill_buf_max_overflow depth Hd). reflexivity.
  - intros self input m He Hs Hi Hx Hbits Hcnt Hsr.
    destruct (UnaryReLU_later_call self input m He Hs Hi Hx Hbits Hcnt Hsr)
      as (out & self' & Hf & Hr & Lo & Hout & Lsr & Lc & Hupd & Hi' & He' & Hs' & Hh' & Hd').
    exists out, self'. repeat split; auto; apply Hupd; assumption.
Qed.

Lemma smoothed_relu_cycles_witness :
  (1 <= 4 <= 64)%Z /\
  exists self0 self1,
    UnaryReLU.init 4 8 "RC" true torch_float torch_float = Ok self0 /\
    UnaryReLU.forward [0] self0 = (Ok [1], self1) /\
    ShiftReg.sr (UnaryReLU.shiftreg self1) = [[1; 0; 0; 0]] /\
    Forall (fun c => c == 1) (UnaryReLU.sr_cnt self1) /\
    exists out self2, UnaryReLU.forward [0] self1 = (Ok out, self2).
Proof.
  assert (Hd : (1 <= 4 <= 64)%Z) by lia.
  split; [exact Hd|].
  destruct (proj1 smoothed_relu_cycles 4%Z 8%Z torch_float torch_float [0] Hd)
    as (self0 & self1 & Hinit & Hf & Hi & Hsr & Hl & Hc & He & Hs & Hdp & Hh).
  exists self0, self1. split; [exact Hinit|]. split; [exact Hf|].
  split; [exact Hsr|]. split; [exact Hc|].
  assert (Hbits : Forall is_bit [0]) by (repeat constructor; left; reflexivity).
  destruct (proj2 (proj2 smoothed_relu_cycles) self1 [0] 1%nat He Hs Hi eq_refl Hbits
              (or_intror Hl) (or_intror (f_equal (@length _) Hsr)))
    as (out & self2 & Hf2 & _).
  exists out, self2. exact Hf2.
Defined.

(** ** C3: the order of output and register update *)

Lemma GainesAdd_reads_previous :
  emits_from_previous_state GainesAdd.forward GainesAdd_rule GainesAdd_next.
Proof.
  intros self input out self' H. unfold GainesAdd.forward in H. munfold.
  unfold GainesAdd_rule, GainesAdd_next. minv; replay; split; reflexivity.
Qed.

Lemma FSUMul_reads_previous :
  emits_from_previous_state FSUMul.forward FSUMul_rule FSUMul_next.
Proof.
  intros self input out self' H.
  unfold FSUMul.forward, FSUMul.FSUMul_forward in H. munfold.
  unfold FSUMul_rule, FSUMul_next. minv; replay; try (split; reflexivity).
  change (FSUMul.path_1 self input)
    with (FSUMul.path_1 (FSUMul.set_rng_idx a0 self) input).
  replay. split; reflexivity.
Qed.

Lemma UnaryReLU_rc_reads_previous :
  emits_from_previous_state UnaryReLU.UnaryReLU_forward_rc UnaryReLU_rc_rule
    UnaryReLU_rc_next.
Proof.
  intros self input out self' H. unfold UnaryReLU.UnaryReLU_forward_rc in H. munfold.
  unfold UnaryReLU_rc_rule, UnaryReLU_rc_next. minv; replay; split; reflexivity.
Qed.

Lemma UnaryReLU_rc_sr_reads_previous :
  emits_from_previous_state UnaryReLU.UnaryReLU_forward_rc_sr UnaryReLU_rc_sr_rule
    UnaryReLU_rc_sr_next.
Proof.
  intros self input out self' H. unfold UnaryReLU.UnaryReLU_forward_rc_sr in H. munfold.
  unfold UnaryReLU_rc_sr_rule, UnaryReLU_rc_sr_next. minv; replay; split; reflexivity.
Qed.

Lemma UnaryReLU_tc_reads_updated :
  emits_from_updated_state UnaryReLU.UnaryReLU_forward_tc UnaryReLU_tc_update
    UnaryReLU_tc_rule UnaryReLU_tc_carry.
Proof.
  intros self input out self' H. unfold UnaryReLU.UnaryReLU_forward_tc in H. munfold.
  unfold UnaryReLU_tc_update, UnaryReLU_tc_rule, UnaryReLU_tc_carry. minv; replay.
  eexists. split; [reflexivity|]. simpl. replay. split; reflexivity.
Qed.

Lemma UnaryAdd_reads_updated :
  emits_from_updated_state UnaryAdd.forward UnaryAdd_update UnaryAdd_rule
    UnaryAdd_carry.
Proof.
  intros self input out self' H. unfold UnaryAdd.forward in H. munfold.
  unfold UnaryAdd_update, UnaryAdd_rule, UnaryAdd_carry. minv; replay;
    (eexists; split; [reflexivity|]; simpl; replay; split; reflexivity).
Qed.

Lemma UnaryLinear_reads_updated :
  emits_from_updated_state UnaryLinear.forward UnaryLinear_update UnaryLinear_rule
    UnaryLinear_carry.
Proof.
  intros self input out self' H. unfold UnaryLinear.forward in H. munfold.
  unfold UnaryLinear_update, UnaryLinear_rule, UnaryLinear_carry.
  destruct (UnaryLinear.UnaryKernel_accumulation input self) as [[k|e] s1] eqn:Hk;
    [|discriminate].
  minv; replay;
    (eexists; split; [reflexivity|]; simpl; replay; split; reflexivity).
Qed.

(** C3, as stated, fails on [UnaryAdd]: with the accumulator at 2 and the
    bound at 4 left by the previous cycle, the threshold on those registers
    gives 0, yet the cycle on the lanes 1, 0, 1, 1 outputs 1, because line 38
    adds the cycle's bits to the accumulator before line 41 compares it. *)
Lemma output_uses_updated_accumulator : ~ mutation_strictly_after_output.
Proof.
  intros (H & _).
  specialize (H adder_after_one_cycle [[1; 0; 1; 1]] [1]
                (snd (UnaryAdd.forward [[1; 0; 1; 1]] adder_after_one_cycle))
                eq_refl).
  vm_compute in H. discriminate H.
Qed.

(** The temporal-coded ReLU likewise: built with bitwidth 1 (threshold 1),
    after one cycle on input 0 the counters are at cycle 1 and accumulator 0;
    the output rule on those registers gives 1, the next cycle on input 0
    outputs 0, because line 62 advances the cycle counter first. *)
Example tc_output_uses_advanced_cycle :
  exists self0 self1 self2,
    UnaryReLU.init 8 1 "TC" false torch_float torch_float = Ok self0 /\
    UnaryReLU.forward [0] self0 = (Ok [1], self1) /\
    UnaryReLU_rule self1 [0] = Ok [1] /\
    UnaryReLU.forward [0] self1 = (Ok [0], self2).
Proof.
  eexists. eexists. eexists.
  split; [reflexivity|]. split; [vm_compute; reflexivity|].
  split; [vm_compute; reflexivity|]. vm_compute. reflexivity.
Qed.

(** In bipolar mode [FSUMul] writes [rng_idx] (line 55) before it computes
    [path_1] and the output (lines 61-64), which do not read it: a call that
    fails in [path_1], here on an inverse counter of two lanes against an
    input of three, leaves [rng_idx] advanced. *)
Example FSUMul_writes_rng_idx_before_path_1 :
  let self := FSUMul.mk 2 "bipolar" true torch_float [0; 2; 1; 3] [2] [0%Z]
                (Some [0%Z; 0%Z]) in
  FSUMul.forward [1; 1; 1] self =
  (Raise RuntimeError, FSUMul.set_rng_idx [1%Z; 1%Z; 1%Z] self).
Proof. vm_compute. reflexivity. Qed.

(** C3 (amended).  [GainesAdd], [FSUMul] and the two rate-coded paths of
    [UnaryReLU] read only what the previous cycle left: the output of a
    completed call is the output rule on the registers the call started
    from, and the call leaves the position in the index sequence advanced by
    one modulo its length ([GainesAdd_next]), the counters advanced by the
    input bit and by its complement ([FSUMul_next]), the accumulator moved
    by the output bit ([UnaryReLU_rc_next]), the output pushed into the
    shift register and counted ([UnaryReLU_rc_sr_next]).  [UnaryAdd],
    [UnaryLinear] and the temporal-coded [UnaryReLU] accumulate first: they
    add the cycle's bits to the accumulator (the kernel of [UnaryLinear]
    advancing its counters on the way, the temporal-coded ReLU its cycle
    counter), the output is the output rule on the registers so updated, and what they
    write after the output is the carry [bound * output] or the count of the
    output in [out_accumulator] ([UnaryAdd_carry], [UnaryLinear_carry]),
    respectively nothing ([UnaryReLU_tc_carry]).  In either case the output
    is a function of the registers left by the previous cycle and the inputs
    of the cycle. *)
Theorem output_and_update_order :
  emits_from_previous_state GainesAdd.forward GainesAdd_rule GainesAdd_next /\
  emits_from_previous_state FSUMul.forward FSUMul_rule FSUMul_next /\
  emits_from_previous_state UnaryReLU.UnaryReLU_forward_rc UnaryReLU_rc_rule
    UnaryReLU_rc_next /\
  emits_from_previous_state UnaryReLU.UnaryReLU_forward_rc_sr UnaryReLU_rc_sr_rule
    UnaryReLU_rc_sr_next /\
  emits_from_updated_state UnaryAdd.forward UnaryAdd_update UnaryAdd_rule
    UnaryAdd_carry /\
  emits_from_updated_state UnaryLinear.forward UnaryLinear_update UnaryLinear_rule
    UnaryLinear_carry /\
  emits_from_updated_state UnaryReLU.UnaryReLU_forward_tc UnaryReLU_tc_update
    UnaryReLU_tc_rule UnaryReLU_tc_carry.
Proof.
  split; [exact GainesAdd_reads_previous|].
  split; [exact FSUMul_reads_previous|].
  split; [exact UnaryReLU_rc_reads_previous|].
  split; [exact UnaryReLU_rc_sr_reads_previous|].
  split; [exact UnaryAdd_reads_updated|].
  split; [exact UnaryLinear_reads_updated|].
  exact UnaryReLU_tc_reads_updated.
Qed.

Lemma output_and_update_order_witness :
  let g := GainesAdd.mk "unipolar" true 0 torch_float [0; 2; 1; 3] 1 in
  let g' := GainesAdd.mk "unipolar" true 0 torch_float [0; 2; 1; 3] 2 in
  let a' := snd (UnaryAdd.forward [[1; 0; 1; 1]] adder_after_one_cycle) in
  (GainesAdd.forward [[1; 0; 1; 1]] g = (Ok [1], g') /\
   GainesAdd_rule g [[1; 0; 1; 1]] = Ok [1] /\
   GainesAdd_next [[1; 0; 1; 1]] g = Ok g') /\
  (UnaryAdd.forward [[1; 0; 1; 1]] adder_after_one_cycle = (Ok [1], a') /\
   exists mid,
     UnaryAdd_update [[1; 0; 1; 1]] adder_after_one_cycle = Ok mid /\
     UnaryAdd_rule mid [[1; 0; 1; 1]] = Ok [1] /\
     UnaryAdd_carry mid = Ok a').
Proof.
  intros g g' a'.
  assert (Hg : GainesAdd.forward [[1; 0; 1; 1]] g = (Ok [1], g')) by reflexivity.
  assert (Ha : UnaryAdd.forward [[1; 0; 1; 1]] adder_after_one_cycle = (Ok [1], a'))
    by reflexivity.
  split; (split; [assumption|]).
  - exact (proj1 output_and_update_order g [[1; 0; 1; 1]] [1] g' Hg).
  - exact (proj1 (proj2 (proj2 (proj2 (proj2 output_and_update_order))))
             adder_after_one_cycle [[1; 0; 1; 1]] [1] a' Ha).
Defined.

(* ===================================================================== *)
(** * Further properties of the kernels                                    *)
(* ===================================================================== *)

(** ** GainesMul: the gate multiplier *)

Lemma xnor_bits (a b : Z) :
  is_bitZ a -> is_bitZ b ->
  is_bitZ (wrap8 (1 - Z.lxor a b)) /\ (wrap8 (1 - Z.lxor a b) = 1%Z <-> a = b).
Proof.
  intros [->| ->] [->| ->]; vm_compute; (split; [auto|]); split; intros H;
    try reflexivity; try discriminate H.
Qed.

Lemma land_bits_one (a b : Z) :
  is_bitZ a -> is_bitZ b -> (Z.land a b = 1%Z <-> a = 1%Z /\ b = 1%Z).
Proof.
  intros [->| ->] [->| ->]; vm_compute; split; intros H;
    try reflexivity; try discriminate H; try (destruct H; discriminate); auto.
Qed.

Lemma to_float_bit_one (b : Z) : is_bitZ b -> (to_float b = 1 <-> b = 1%Z).
Proof.
  intros [->| ->]; split; intros H; try reflexivity; discriminate H.
Qed.

(** The gate multiplier on two bit tensors of [m] lanes: in unipolar mode
    the output bit is 1 iff both input bits are 1 (AND), in bipolar mode iff
    the two input bits are equal (XNOR); any other mode raises [ValueError]
    whatever the inputs. *)
Theorem GainesMul_truth_tables :
  forall (stype : dtype) (input_0 input_1 : list Q) (m : nat),
    length input_0 = m -> length input_1 = m ->
    Forall is_bit input_0 -> Forall is_bit input_1 ->
    (exists out,
       GainesMul.forward "unipolar" stype input_0 input_1 = Ok out /\
       length out = m /\
       forall j, (j < m)%nat ->
         is_bit (nth j out 0) /\
         (nth j out 0 = 1 <->
          bitZ (nth j input_0 0) = 1%Z /\ bitZ (nth j input_1 0) = 1%Z)) /\
    (exists out,
       GainesMul.forward "bipolar" stype input_0 input_1 = Ok out /\
       length out = m /\
       forall j, (j < m)%nat ->
         is_bit (nth j out 0) /\
         (nth j out 0 = 1 <-> bitZ (nth j input_0 0) = bitZ (nth j input_1 0))) /\
    (forall mode, mode <> "unipolar" -> mode <> "bipolar" ->
       GainesMul.forward mode stype input_0 input_1 =
       Raise (ValueError "GainesMul mode is not implemented.")).
Proof.
  intros stype i0 i1 m H0 H1 B0 B1.
  assert (L0 : lanes m (map to_int8 i0)) by (apply lanes_exact; now rewrite length_map).
  assert (L1 : lanes m (map to_int8 i1)) by (apply lanes_exact; now rewrite length_map).
  assert (Hlane : forall (f : Z -> Z -> Z) out j,
            (forall da db dc, bget out j dc =
                              f (bget (map to_int8 i0) j da) (bget (map to_int8 i1) j db)) ->
            length out = m -> (j < m)%nat ->
            nth j out 0%Z = f (bitZ (nth j i0 0)) (bitZ (nth j i1 0))).
  { intros f out j Hn Lo Hj. rewrite <- (bget_nth out j 0%Z) by lia.
    rewrite (Hn 0%Z 0%Z 0%Z).
    rewrite (bget_map_lanes to_int8 m i0 j 0 0%Z), (bget_map_lanes to_int8 m i1 j 0 0%Z)
      by (auto using lanes_exact).
    rewrite !bget_nth by lia.
    rewrite !to_int8_bit by (apply nth_bit; [assumption | lia]). reflexivity. }
  assert (Hb0 : forall j, (j < m)%nat -> is_bitZ (bitZ (nth j i0 0)))
    by (intros j Hj; apply bitZ_is_bit, nth_bit; [assumption | lia]).
  assert (Hb1 : forall j, (j < m)%nat -> is_bitZ (bitZ (nth j i1 0)))
    by (intros j Hj; apply bitZ_is_bit, nth_bit; [assumption | lia]).
  split; [|split].
  - destruct (bmap2_lanes Z.land m _ _ L0 L1) as (out & Ho & _ & Mo & No).
    assert (Lo : length out = m) by (apply Mo; left; now rewrite length_map).
    eexists. split.
    { unfold GainesMul.forward, GainesMul.GainesMul_forward.
      change ("unipolar" =? "unipolar") with true. simpl. rewrite Ho. reflexivity. }
    split; [now rewrite length_map|].
    intros j Hj. rewrite (nth_map_in _ _ _ 0%Z _) by lia.
    rewrite (Hlane Z.land out j) by (auto; intros; apply No; exact Hj).
    assert (Hl := land_bits _ _ (Hb0 j Hj) (Hb1 j Hj)).
    rewrite (astype_to_float_bit _ _ Hl). split.
    + destruct Hl as [-> | ->]; [left | right]; reflexivity.
    + rewrite (to_float_bit_one _ Hl). apply land_bits_one; auto.
  - destruct (bmap2_lanes (fun a b => wrap8 (1 - Z.lxor a b)) m _ _ L0 L1)
      as (out & Ho & _ & Mo & No).
    assert (Lo : length out = m) by (apply Mo; left; now rewrite length_map).
    eexists. split.
    { unfold GainesMul.forward, GainesMul.GainesMul_forward.
      change ("bipolar" =? "unipolar") with false.
      change ("bipolar" =? "bipolar") with true. simpl. rewrite Ho. reflexivity. }
    split; [now rewrite length_map|].
    intros j Hj. rewrite (nth_map_in _ _ _ 0%Z _) by lia.
    rewrite (Hlane (fun a b => wrap8 (1 - Z.lxor a b)) out j)
      by (auto; intros; apply No; exact Hj).
    destruct (xnor_bits _ _ (Hb0 j Hj) (Hb1 j Hj)) as [Hl Hx].
    rewrite (astype_to_float_bit _ _ Hl). split.
    + destruct Hl as [-> | ->]; [left | right]; reflexivity.
    + rewrite (to_float_bit_one _ Hl). exact Hx.
  - intros mode Hu Hb. unfold GainesMul.forward, GainesMul.GainesMul_forward.
    apply String.eqb_neq in Hu, Hb. rewrite Hu, Hb. reflexivity.
Qed.

Lemma GainesMul_truth_tables_witness :
  Forall is_bit [1; 0; 1] /\ Forall is_bit [0; 0; 1] /\
  GainesMul.forward "bipolar" torch_float [1; 0; 1] [0; 0; 1] = Ok [0; 1; 1].
Proof.
  assert (B0 : Forall is_bit [1; 0; 1])
    by (repeat constructor; ((left; reflexivity) || (right; reflexivity))).
  assert (B1 : Forall is_bit [0; 0; 1])
    by (repeat constructor; ((left; reflexivity) || (right; reflexivity))).
  split; [exact B0|]. split; [exact B1|].
  destruct (proj1 (proj2 (GainesMul_truth_tables torch_float [1; 0; 1] [0; 0; 1] 3
                            eq_refl eq_refl B0 B1))) as (out & Hf & _).
  rewrite Hf. f_equal. injection Hf as <-. reflexivity.
Defined.

(** ** float32: integers below 2^24 are held as they are *)

Lemma round_half_even_comp (x y : Q) : x == y -> round_half_even x = round_half_even y.
Proof.
  intros H. unfold round_half_even.
  rewrite (Qfloor_comp _ _ H).
  assert (E : Qcompare (x - inject_Z (Qfloor y)) (1 # 2) =
              Qcompare (y - inject_Z (Qfloor y)) (1 # 2)).
  { apply Qcompare_comp; [rewrite H; reflexivity | reflexivity]. }
  rewrite E. reflexivity.
Qed.

Lemma round_half_even_Z (m : Z) : round_half_even (inject_Z m) = m.
Proof.
  unfold round_half_even. rewrite Qfloor_Z.
  assert (E : Qcompare (inject_Z m - inject_Z m) (1 # 2) = Lt).
  { rewrite <- Qlt_alt. unfold Qlt, Qminus, Qplus, Qopp, inject_Z. simpl. lia. }
  rewrite E. reflexivity.
Qed.

Lemma Qred_Z (n : Z) : Qred (inject_Z n) = inject_Z n.
Proof.
  unfold Qred, inject_Z.
  pose proof (Z.ggcd_gcd n 1) as Hg.
  pose proof (Z.ggcd_correct_divisors n 1) as Hd.
  destruct (Z.ggcd n 1) as (g, (q1, q2)). simpl in *.
  rewrite Z.gcd_1_r in Hg. subst g. destruct Hd as [H1 H2].
  assert (Hq1 : q1 = n) by lia. assert (Hq2 : q2 = 1%Z) by lia.
  rewrite Hq1, Hq2. reflexivity.
Qed.

Lemma f32_int (n : Z) : (Z.abs n < 2 ^ 24)%Z -> f32 (inject_Z n) = inject_Z n.
Proof.
  intros Hn. unfold f32.
  destruct (Qeq_bool (inject_Z n) 0) eqn:E0.
  { apply Qeq_bool_iff in E0. unfold Qeq in E0. simpl in E0.
    assert (n = 0%Z) by lia. subst. reflexivity. }
  assert (Hnz : n <> 0%Z).
  { intros ->. discriminate E0. }
  set (a := Z.log2 (Z.abs n)).
  assert (Ha : (0 <= a < 24)%Z).
  { split; [apply Z.log2_nonneg|]. apply Z.log2_lt_pow2; lia. }
  assert (Hspec : (2 ^ a <= Z.abs n)%Z) by (apply Z.log2_spec; lia).
  assert (Hlog : ilog2 (inject_Z n) = a).
  { unfold ilog2. simpl Qnum. simpl Qden. change (Z.log2 1) with 0%Z.
    rewrite Z.sub_0_r. fold a.
    assert (Ht : Qle_bool (Qpower 2 a) (Qabs (inject_Z n)) = true).
    { apply Qle_bool_iff. change 2 with (inject_Z 2).
      rewrite <- Zpower_Qpower by lia.
      change (Qabs (inject_Z n)) with (inject_Z (Z.abs n)).
      rewrite <- Zle_Qle. exact Hspec. }
    rewrite Ht. reflexivity. }
  rewrite Hlog. rewrite Z.max_l by lia.
  set (ulp := Qpower 2 (a - 23)).
  assert (Hulp : ulp * inject_Z (2 ^ (23 - a)) == 1).
  { unfold ulp. rewrite Zpower_Qpower by lia. change (inject_Z 2) with 2.
    rewrite <- Qpower_plus by discriminate.
    replace (a - 23 + (23 - a))%Z with 0%Z by lia. reflexivity. }
  assert (Hpos : ~ ulp == 0).
  { intros H0. rewrite H0 in Hulp. ring_simplify in Hulp. discriminate Hulp. }
  assert (Hdiv : inject_Z n / ulp == inject_Z (n * 2 ^ (23 - a))).
  { rewrite inject_Z_mult. unfold Qdiv.
    apply Qmult_comp; [reflexivity|].
    apply (Qmult_inj_l _ _ ulp Hpos).
    rewrite Qmult_inv_r by exact Hpos. symmetry. exact Hulp. }
  rewrite (round_half_even_comp _ _ Hdiv), round_half_even_Z.
  rewrite <- (Qred_Z n). apply Qred_complete.
  rewrite inject_Z_mult. rewrite <- Qmult_assoc, (Qmult_comm _ ulp), Hulp. ring.
Qed.

Lemma f32_succ (z : Z) :
  (Z.abs (z + 1) < 2 ^ 24)%Z -> f32 (inject_Z z + 1) = inject_Z (z + 1).
Proof.
  intros H. rewrite <- (f32_int (z + 1) H). f_equal.
  unfold Qplus, inject_Z. cbn [Qnum Qden].
  apply f_equal2; [lia | reflexivity].
Qed.

Lemma f32_pred (z : Z) :
  (Z.abs (z - 1) < 2 ^ 24)%Z -> f32 (inject_Z z - 1) = inject_Z (z - 1).
Proof.
  intros H. rewrite <- (f32_int (z - 1) H). f_equal.
  unfold Qminus, Qplus, Qopp, inject_Z. cbn [Qnum Qden].
  apply f_equal2; [lia | reflexivity].
Qed.

(** ** UnaryReLU: the rate-coded paths *)

Lemma clamp_range (hi x : Q) : 0 <= hi -> 0 <= clamp 0 hi x /\ clamp 0 hi x <= hi.
Proof.
  intros H. unfold clamp.
  destruct (Q.min_spec (Qmax x 0) hi) as [[H1 H2]|[H1 H2]]; rewrite H2;
    destruct (Q.max_spec x 0) as [[H3 H4]|[H3 H4]]; rewrite ?H4 in *; split; lra.
Qed.

Lemma to_int8_one (x : Q) : x == 1 -> to_int8 x = 1%Z.
Proof.
  intros H. rewrite (to_int8_bit x (or_intror H)). unfold bitZ. rewrite H. reflexivity.
Qed.

Lemma lor_one_l (b : Z) : is_bitZ b -> Z.lor 1 b = 1%Z.
Proof. intros [->| ->]; reflexivity. Qed.

Lemma lor_one_r (b : Z) : is_bitZ b -> Z.lor b 1 = 1%Z.
Proof. intros [->| ->]; reflexivity. Qed.

Lemma flagZ_is_bit (b : bool) : is_bitZ (flagZ b).
Proof. destruct b; [right | left]; reflexivity. Qed.

Lemma astype_to_float_one t : astype t (to_float 1) = 1.
Proof. destruct t; reflexivity. Qed.

(** The step of the accumulator for an output bit: +1 or -1 in every
    [btype]. *)
Lemma rc_step_bit t (o : Z) :
  is_bitZ o ->
  astype t (to_float (wrap8 (wrap8 (o * 2) - 1))) = inject_Z (2 * o - 1).
Proof. intros [->| ->]; destruct t; reflexivity. Qed.

Lemma UnaryReLU_rc_lanes (self : UnaryReLU.t) (input : list Q) (m : nat) :
  UnaryReLU.encode self = "RC" -> UnaryReLU.sr self = false ->
  length input = m -> Forall is_bit input -> lanes m (UnaryReLU.acc self) ->
  exists o acc',
    UnaryReLU.forward input self =
      (Ok (map to_float o), UnaryReLU.set_acc acc' self) /\
    length o = m /\ length acc' = m /\
    forall j, (j < m)%nat ->
      nth j o 0%Z =
        Z.lor (bitZ (nth j input 0))
              (1 - flagZ (ge (bget (UnaryReLU.acc self) j 0) (UnaryReLU.buf_half self))) /\
      is_bitZ (nth j o 0%Z) /\
      nth j acc' 0 =
        clamp 0 (UnaryReLU.buf_max self)
          (store (UnaryReLU.btype self)
             (bget (UnaryReLU.acc self) j 0 + inject_Z (2 * nth j o 0%Z - 1))).
Proof.
  intros He Hs Hx Hbits Hacc.
  set (flags := map (fun a => flagZ (ge a (UnaryReLU.buf_half self))) (UnaryReLU.acc self)).
  assert (Lx : lanes m (map to_int8 input))
    by (apply lanes_exact; now rewrite length_map).
  assert (Lf : lanes m flags) by (apply lanes_map, Hacc).
  destruct (bmap2_lanes (fun i f => Z.lor i (wrap8 (1 - f))) m _ _ Lx Lf)
    as (o & Ho & _ & Mo & No).
  assert (Lo : length o = m) by (apply Mo; left; now rewrite length_map).
  assert (Hout : forall j, (j < m)%nat ->
            nth j o 0%Z =
              Z.lor (bitZ (nth j input 0))
                    (1 - flagZ (ge (bget (UnaryReLU.acc self) j 0)
                                   (UnaryReLU.buf_half self))) /\
            is_bitZ (nth j o 0%Z)).
  { intros j Hj. rewrite <- (bget_nth o j 0%Z) by lia.
    rewrite (No j 0%Z 0%Z 0%Z Hj).
    rewrite (bget_map_lanes to_int8 m input j 0 0%Z) by (auto using lanes_exact).
    unfold flags.
    rewrite (bget_map_lanes (fun a => flagZ (ge a (UnaryReLU.buf_half self)))
               m (UnaryReLU.acc self) j 0 0%Z) by auto.
    rewrite (bget_nth input _ _) by lia.
    assert (Hb : is_bit (nth j input 0)) by (apply nth_bit; [exact Hbits | lia]).
    rewrite (to_int8_bit _ Hb), (wrap8_compl_bit _ (flagZ_is_bit _)).
    split; [reflexivity|].
    apply lor_bits; [apply bitZ_is_bit, Hb | apply compl_bit, flagZ_is_bit]. }
  set (step := UnaryReLU.rc_acc self).
  destruct (bmap2_lanes step m _ _ Hacc (lanes_exact _ _ Lo))
    as (acc' & Ha & _ & Ma & Na).
  assert (La : length acc' = m) by (apply Ma; now right).
  exists o, acc'. split; [|split; [exact Lo | split; [exact La|]]].
  - unfold UnaryReLU.forward, UnaryReLU.UnaryReLU_forward_rc, UnaryReLU.rc_output.
    munfold. rewrite He. change ("RC" =? "RC") with true. simpl. rewrite Hs. simpl.
    fold flags. rewrite Ho. simpl. fold step. rewrite Ha. simpl.
    f_equal. f_equal. apply map_ext_in. intros b Hb.
    destruct (In_nth _ _ 0%Z Hb) as (j & Hj & <-).
    apply astype_to_float_bit, Hout. lia.
  - intros j Hj. destruct (Hout j Hj) as [H1 H2]. split; [exact H1|]. split; [exact H2|].
    rewrite <- (bget_nth acc' j 0) by lia. rewrite (Na j 0 0%Z 0 Hj).
    rewrite (bget_nth o _ _) by lia. unfold step, UnaryReLU.rc_acc.
    rewrite (rc_step_bit _ _ H2). reflexivity.
Qed.

Lemma bitZ_zero_iff (x : Q) : is_bit x -> (bitZ x = 0%Z <-> x == 0).
Proof.
  intros H. destruct (bitZ_cases x H) as [[Hx Hb]|[Hx Hb]]; rewrite Hb; split;
    intros H'; try reflexivity; try assumption; try discriminate.
  rewrite Hx in H'. discriminate H'.
Qed.

(** One cycle of the rate-coded ReLU without shift register, on a bit tensor
    of [m] lanes.  The output is a bit; it is 0 exactly where the input bit is
    0 and the accumulator has reached [buf_half]; the accumulator then moves
    by +1 for an output 1 and by -1 for an output 0, the sum being held as
    the type [btype] holds it (a float32 rounds it, an integer type wraps
    around: [store]), and is clamped to [[0, buf_max]]. *)
Theorem rate_coded_relu_cycle :
  forall (self : UnaryReLU.t) (input : list Q) (m : nat),
    UnaryReLU.encode self = "RC" -> UnaryReLU.sr self = false ->
    length input = m -> Forall is_bit input -> lanes m (UnaryReLU.acc self) ->
    0 <= UnaryReLU.buf_max self ->
    exists out self',
      UnaryReLU.forward input self = (Ok out, self') /\
      length out = m /\ length (UnaryReLU.acc self') = m /\
      UnaryReLU.buf_max self' = UnaryReLU.buf_max self /\
      UnaryReLU.buf_half self' = UnaryReLU.buf_half self /\
      forall j, (j < m)%nat ->
        let a := bget (UnaryReLU.acc self) j 0 in
        let a' := nth j (UnaryReLU.acc self') 0 in
        (nth j out 0 = 0 \/ nth j out 0 = 1) /\
        (nth j out 0 = 0 <-> nth j input 0 == 0 /\ UnaryReLU.buf_half self <= a) /\
        (nth j out 0 = 1 ->
         a' = clamp 0 (UnaryReLU.buf_max self)
                (store (UnaryReLU.btype self) (a + 1))) /\
        (nth j out 0 = 0 ->
         a' = clamp 0 (UnaryReLU.buf_max self)
                (store (UnaryReLU.btype self) (a - 1))) /\
        (UnaryReLU.btype self = torch_float ->
         forall z : Z, a = inject_Z z -> (Z.abs z < 2 ^ 24 - 1)%Z ->
           (nth j out 0 = 1 ->
            a' = clamp 0 (UnaryReLU.buf_max self) (inject_Z (z + 1))) /\
           (nth j out 0 = 0 ->
            a' = clamp 0 (UnaryReLU.buf_max self) (inject_Z (z - 1)))) /\
        0 <= a' /\ a' <= UnaryReLU.buf_max self.
Proof.
  intros self input m He Hs Hx Hbits Hacc Hmax.
  destruct (UnaryReLU_rc_lanes self input m He Hs Hx Hbits Hacc)
    as (o & acc' & Hf & Lo & La & Hl).
  eexists. eexists. split; [exact Hf|]. simpl.
  split; [now rewrite length_map|]. split; [exact La|].
  split; [reflexivity|]. split; [reflexivity|].
  intros j Hj. destruct (Hl j Hj) as (Ho & Hb & Ha).
  rewrite (nth_map_in _ _ _ 0%Z _) by lia.
  assert (Hin : is_bit (nth j input 0)) by (apply nth_bit; [exact Hbits | lia]).
  assert (Hzero : nth j o 0%Z = 0%Z <->
                  nth j input 0 == 0 /\
                  UnaryReLU.buf_half self <= bget (UnaryReLU.acc self) j 0).
  { rewrite Ho, <- (bitZ_zero_iff _ Hin), <- ge_spec.
    destruct (bitZ_is_bit _ Hin) as [-> | ->];
      destruct (ge (bget (UnaryReLU.acc self) j 0) (UnaryReLU.buf_half self));
      vm_compute; split; intros H; try reflexivity; try discriminate H;
      try (destruct H; discriminate); auto. }
  split; [destruct Hb as [-> | ->]; [left | right]; reflexivity|].
  split.
  { rewrite <- Hzero. destruct Hb as [-> | ->]; split; intros H;
      try reflexivity; discriminate H. }
  assert (Hup : to_float (nth j o 0%Z) = 1 ->
                nth j acc' 0 =
                clamp 0 (UnaryReLU.buf_max self)
                  (store (UnaryReLU.btype self)
                     (bget (UnaryReLU.acc self) j 0 + 1))).
  { intros H1. rewrite Ha. destruct Hb as [Hb | Hb]; rewrite Hb in *;
      [discriminate H1 | reflexivity]. }
  assert (Hdown : to_float (nth j o 0%Z) = 0 ->
                  nth j acc' 0 =
                  clamp 0 (UnaryReLU.buf_max self)
                    (store (UnaryReLU.btype self)
                       (bget (UnaryReLU.acc self) j 0 - 1))).
  { intros H0. rewrite Ha. destruct Hb as [Hb | Hb]; rewrite Hb in *;
      [reflexivity | discriminate H0]. }
  split; [exact Hup|]. split; [exact Hdown|]. split.
  - intros Hbt z Hz Hsmall. split; intros Ho'.
    + rewrite (Hup Ho'), Hbt, Hz. unfold store.
      rewrite f32_succ by lia. reflexivity.
    + rewrite (Hdown Ho'), Hbt, Hz. unfold store.
      rewrite f32_pred by lia. reflexivity.
  - rewrite Ha. apply clamp_range, Hmax.
Qed.

(** At depth 25 the accumulator starts at 2^24, and a float32 does not hold
    2^24 + 1: a call on input 1 outputs 1 and leaves the accumulator where
    it was.  An [int8] accumulator at 127 wraps to -128 on an output 1 and
    is clamped to 0. *)
Example rc_acc_rounds_and_wraps :
  (exists self,
     UnaryReLU.init 25 8 "RC" false torch_float torch_float = Ok self /\
     UnaryReLU.acc self = [16777216] /\
     UnaryReLU.forward [1] self = (Ok [1], self)) /\
  UnaryReLU.rc_acc
    (UnaryReLU.mk 8 "RC" false torch_float torch_int8 (ShiftReg.init 0)
       0 [] false 127 64 [127] 0 0) 127 1 = 0.
Proof.
  split; [|vm_compute; reflexivity].
  eexists. split; [vm_compute; reflexivity|]. split; vm_compute; reflexivity.
Qed.

Lemma rate_coded_relu_cycle_witness :
  let self :=
    match UnaryReLU.init 3 8 "RC" false torch_float torch_float with
    | Ok s => s
    | Raise _ => UnaryReLU.mk 0 "" false torch_float torch_float (ShiftReg.init 0)
                   0 [] false 0 0 [] 0 0
    end in
  UnaryReLU.encode self = "RC" /\ UnaryReLU.sr self = false /\
  Forall is_bit [0; 1] /\ 0 <= UnaryReLU.buf_max self /\
  exists out self', UnaryReLU.forward [0; 1] self = (Ok out, self').
Proof.
  intros self.
  assert (Hbits : Forall is_bit [0; 1])
    by (repeat constructor; ((left; reflexivity) || (right; reflexivity))).
  assert (Hmax : 0 <= UnaryReLU.buf_max self) by discriminate.
  split; [reflexivity|]. split; [reflexivity|]. split; [exact Hbits|].
  split; [exact Hmax|].
  destruct (rate_coded_relu_cycle self [0; 1] 2 eq_refl eq_refl eq_refl Hbits
              (or_introl eq_refl) Hmax) as (out & self' & Hf & _).
  exists out, self'. exact Hf.
Defined.

Lemma bget_map_default {A B} (f : A -> B) (l : list A) j d d' :
  (length l = 1%nat \/ j < length l)%nat -> bget (map f l) j d' = f (bget l j d).
Proof.
  intros [H|H].
  - destruct (length_one _ H) as [x ->]. reflexivity.
  - rewrite !bget_nth by (rewrite ?length_map; lia). apply nth_map_in. exact H.
Qed.

Lemma nth_map_const {A B} (c : B) (l : list A) j d :
  (j < length l)%nat -> nth j (map (fun _ => c) l) d = c.
Proof.
  revert j. induction l as [|x l IH]; intros j Hj; simpl in *; [lia|].
  destruct j; [reflexivity | apply IH; lia].
Qed.

(** A lane of a broadcast result reads an existing lane of each operand. *)
Lemma bmap2_lane_in {A B C} (f : A -> B -> C) a b c j :
  bmap2 f a b = Ok c -> (j < length c)%nat ->
  (length a = 1%nat \/ j < length a)%nat /\ (length b = 1%nat \/ j < length b)%nat.
Proof.
  intros H Hj. destruct (bmap2_spec _ _ _ _ H) as [Hlen _]. unfold blen in Hlen.
  destruct (Nat.eq_dec (length a) 1) as [Ha|Ha].
  - rewrite Ha in Hlen. simpl in Hlen. split; [now left | right; lia].
  - apply Nat.eqb_neq in Ha as Ha'. rewrite Ha' in Hlen. split; [right; lia|].
    destruct (Nat.eq_dec (length b) 1) as [Hb|Hb]; [now left|].
    rewrite bmap2_same in H by assumption.
    destruct (Nat.eqb (length a) (length b)) eqn:E; [|discriminate].
    apply Nat.eqb_eq in E. right. lia.
Qed.

(** A rate-coded ReLU, with or without shift register, never turns an input
    bit 1 into an output 0: whenever a call completes, every lane whose
    input bit is 1 outputs 1. *)
Theorem rate_coded_relu_passes_ones :
  forall (self : UnaryReLU.t) (input out : list Q) (self' : UnaryReLU.t),
    UnaryReLU.encode self = "RC" ->
    UnaryReLU.forward input self = (Ok out, self') ->
    forall j, (j < length out)%nat -> bget input j 0 == 1 -> nth j out 0 = 1.
Proof.
  intros self input out self' He Hf j Hj H1.
  unfold UnaryReLU.forward in Hf. munfold. rewrite He in Hf.
  change ("RC" =? "RC") with true in Hf. simpl in Hf.
  destruct (UnaryReLU.sr self) eqn:Hs; simpl in Hf.
  - unfold UnaryReLU.UnaryReLU_forward_rc_sr, UnaryReLU.rc_sr_output in Hf. munfold.
    destruct (UnaryReLU.init_ self) eqn:Hi; simpl in Hf.
    + minv. rewrite map_map in *. rewrite length_map in Hj.
      rewrite (nth_map_const _ _ _ _ Hj). now rewrite !astype_one.
    + destruct (bmap2 _ (UnaryReLU.sr_cnt self) (map to_int8 input)) as [o|e] eqn:Ho;
        simpl in Hf; [|discriminate].
      minv. rewrite length_map in Hj.
      rewrite (nth_map_in _ _ _ 0 _) by exact Hj.
      destruct (bmap2_spec _ _ _ _ Ho) as [_ Hn].
      destruct (bmap2_lane_in _ _ _ _ j Ho Hj) as [_ Hin].
      rewrite length_map in Hin.
      rewrite (Hn j 0 0%Z 0 Hj), (bget_map_default to_int8 input j 0 0%Z Hin).
      rewrite (to_int8_one _ H1), (lor_one_r _ (flagZ_is_bit _)).
      rewrite ?astype_to_float_one, ?astype_one. reflexivity.
  - unfold UnaryReLU.UnaryReLU_forward_rc, UnaryReLU.rc_output in Hf. munfold.
    destruct (bmap2 _ (map to_int8 input) _) as [o|e] eqn:Ho; simpl in Hf;
      [|discriminate].
    minv. rewrite length_map in Hj.
    rewrite (nth_map_in _ _ _ 0%Z _) by exact Hj.
    destruct (bmap2_spec _ _ _ _ Ho) as [_ Hn].
    destruct (bmap2_lane_in _ _ _ _ j Ho Hj) as [Hin Hfl].
    rewrite length_map in Hin, Hfl.
    rewrite (Hn j 0%Z 0%Z 0%Z Hj), (bget_map_default to_int8 input j 0 0%Z Hin).
    rewrite (bget_map_default (fun a => flagZ (ge a (UnaryReLU.buf_half self)))
               (UnaryReLU.acc self) j 0 0%Z Hfl).
    rewrite (to_int8_one _ H1), (wrap8_compl_bit _ (flagZ_is_bit _)).
    rewrite (lor_one_l _ (compl_bit _ (flagZ_is_bit _))).
    apply astype_to_float_one.
Qed.

Lemma rate_coded_relu_passes_ones_witness :
  let self :=
    match UnaryReLU.init 3 8 "RC" true torch_float torch_float with
    | Ok s => s
    | Raise _ => UnaryReLU.mk 0 "" false torch_float torch_float (ShiftReg.init 0)
                   0 [] false 0 0 [] 0 0
    end in
  let s1 := snd (UnaryReLU.forward [0; 0] self) in
  let s2 := snd (UnaryReLU.forward [0; 0] s1) in
  let s3 := snd (UnaryReLU.forward [0; 0] s2) in
  UnaryReLU.encode s3 = "RC" /\
  UnaryReLU.forward [0; 1] s3 = (Ok [0; 1], snd (UnaryReLU.forward [0; 1] s3)) /\
  bget [0; 1] 1 0 == 1 /\ nth 1 [0; 1] 0 = 1.
Proof.
  intros self s1 s2 s3.
  assert (Hf : UnaryReLU.forward [0; 1] s3 =
               (Ok [0; 1], snd (UnaryReLU.forward [0; 1] s3))) by reflexivity.
  assert (H1 : bget [0; 1] 1 0 == 1) by reflexivity.
  split; [reflexivity|]. split; [exact Hf|]. split; [exact H1|].
  exact (rate_coded_relu_passes_ones s3 [0; 1] [0; 1] _ eq_refl Hf 1%nat
           (Nat.lt_succ_diag_r 1) H1).
Defined.

(** ** UnaryReLU: the temporal-coded path *)



(** ** GainesAdd: the OR gate and the walk through the index sequence *)

Lemma Qsum_bits_pos (l : list Q) :
  Forall is_bit l -> (0 < Qsum l <-> Exists (fun x => x == 1) l).
Proof.
  induction 1 as [|x l Hx Hl IH]; simpl.
  - split; [intros H; discriminate H | intros H; inversion H].
  - destruct (Qsum_bits_range l Hl) as [H0 _]. split.
    + intros Hpos. destruct Hx as [Hx|Hx].
      * right. apply IH. rewrite Hx in Hpos. lra.
      * left. exact Hx.
    + intros Hex. inversion Hex as [? ? H1|? ? H1]; subst.
      * rewrite H1. lra.
      * apply IH in H1. destruct Hx as [Hx|Hx]; rewrite Hx; lra.
Qed.

(** The non-scaled [GainesAdd] is an OR gate without memory: on a bit tensor
    the call never raises, leaves every register as it was, and outputs at
    each position 1 iff at least one lane along the reduction axis carries a
    1. *)
Theorem gaines_or_gate :
  forall (self : GainesAdd.t) (input : Tensor2),
    GainesAdd.scaled self = false -> bits2 input ->
    exists out,
      GainesAdd.forward input self = (Ok out, self) /\
      length out = length input /\
      forall j, (j < length input)%nat ->
        (nth j out 0 = 0 \/ nth j out 0 = 1) /\
        (nth j out 0 = 1 <-> Exists (fun x => x == 1) (nth j input [])).
Proof.
  intros self input Hs Hbits. eexists. split.
  { unfold GainesAdd.forward. munfold. rewrite Hs. reflexivity. }
  unfold sum_acc. rewrite !map_map, length_map. split; [reflexivity|].
  intros j Hj.
  rewrite (nth_map_in _ _ _ [] _) by exact Hj.
  rewrite astype_flagQ.
  assert (Hb : Forall is_bit (nth j input [])).
  { unfold bits2 in Hbits. rewrite Forall_forall in Hbits.
    apply Hbits, nth_In, Hj. }
  rewrite <- (Qsum_bits_pos _ Hb), <- gt_spec.
  destruct (gt (Qsum (nth j input [])) 0); simpl.
  - split; [now right|]. split; reflexivity.
  - split; [now left|]. split; intros H; discriminate H.
Qed.

Lemma gaines_or_gate_witness :
  let self := GainesAdd.mk "unipolar" false 0 torch_float [0; 2; 1; 3] 0 in
  GainesAdd.scaled self = false /\ bits2 [[0; 0; 1]; [0; 0; 0]] /\
  GainesAdd.forward [[0; 0; 1]; [0; 0; 0]] self = (Ok [1; 0], self).
Proof.
  intros self.
  assert (Hb : bits2 [[0; 0; 1]; [0; 0; 0]])
    by (unfold bits2; repeat constructor; ((left; reflexivity) || (right; reflexivity))).
  split; [reflexivity|]. split; [exact Hb|].
  destruct (gaines_or_gate self [[0; 0; 1]; [0; 0; 0]] eq_refl Hb) as (out & Hf & _).
  rewrite Hf. f_equal. injection Hf as <-. reflexivity.
Defined.

Lemma nth_run_calls_cons {S I O} (forward : I -> M S O) x xs (self self' : S) out k :
  forward x self = (Ok out, self') ->
  state_after forward (x :: xs) self (Datatypes.S k) = 
  nth k (map snd (run_calls forward xs self')) self.
Proof. intros H. unfold state_after. simpl. rewrite H. reflexivity. Qed.

(** A scaled [GainesAdd] whose index sequence stays below the size [n] of
    the reduction axis never raises on inputs of that size, and walks through
    the sequence: after call number [k] the position register is the start
    position plus [k + 1], modulo the length of the sequence. *)
Theorem gaines_index_walk :
  forall (inputs : list Tensor2) (self : GainesAdd.t) (n : nat),
    GainesAdd.scaled self = true ->
    GainesAdd_wf self ->
    Forall (fun r => r < inject_Z (Z.of_nat n)) (GainesAdd.rng self) ->
    Forall (fun x => size_acc x = n) inputs ->
    length (run_calls GainesAdd.forward inputs self) = length inputs /\
    forall k, (k < length inputs)%nat ->
      GainesAdd.rng_idx (state_after GainesAdd.forward inputs self k) =
      ((GainesAdd.rng_idx self + Z.of_nat (k + 1))
         mod Z.of_nat (length (GainesAdd.rng self)))%Z.
Proof.
  induction inputs as [|x xs IH]; intros self n Hs Hwf Hlt Hin.
  - split; [reflexivity | simpl; intros; lia].
  - inversion Hin as [|? ? Hx Hxs]; subst.
    pose proof (GainesAdd_forward_scaled self x Hs Hwf) as Hf.
    assert (Hr : randNum self < inject_Z (Z.of_nat (size_acc x))).
    { rewrite Forall_forall in Hlt. apply Hlt. unfold randNum.
      destruct Hwf as [Hidx _]. apply nth_In. lia. }
    apply lt_spec in Hr. rewrite Hr in Hf.
    set (self' := GainesAdd.set_rng_idx
                    ((GainesAdd.rng_idx self + 1)
                       mod Z.of_nat (length (GainesAdd.rng self)))%Z self) in *.
    assert (Hwf' : GainesAdd_wf self').
    { destruct Hwf as [Hidx Hrng]. split; [|exact Hrng]. simpl.
      apply Z.mod_pos_bound. lia. }
    destruct (IH self' (size_acc x) Hs Hwf' Hlt Hxs) as [Hlen Hk].
    split; [simpl; rewrite Hf; simpl; now rewrite Hlen|].
    intros [|k] Hlt'.
    + unfold state_after. simpl. rewrite Hf. simpl. reflexivity.
    + rewrite (nth_run_calls_cons _ _ _ _ _ _ _ Hf).
      assert (Hk' := Hk k ltac:(simpl in Hlt'; lia)).
      unfold state_after in Hk'.
      rewrite (nth_indep _ self self')
        by (rewrite length_map, Hlen; simpl in Hlt'; lia).
      rewrite Hk'. simpl.
      rewrite Zplus_mod_idemp_l. f_equal. lia.
Qed.

Lemma gaines_index_walk_witness :
  let self := GainesAdd.mk "unipolar" true 0 torch_float [0; 2; 1; 3] 0 in
  let x := [[1; 0; 1; 1]] in
  GainesAdd.scaled self = true /\ GainesAdd_wf self /\
  Forall (fun r => r < inject_Z (Z.of_nat 4)) (GainesAdd.rng self) /\
  Forall (fun x => size_acc x = 4%nat) [x; x; x; x; x] /\
  GainesAdd.rng_idx (state_after GainesAdd.forward [x; x; x; x; x] self 4) = 1%Z.
Proof.
  intros self x.
  assert (Hwf : GainesAdd_wf self).
  { split; [simpl; lia|]. repeat constructor; discriminate. }
  assert (Hlt : Forall (fun r => r < inject_Z (Z.of_nat 4)) (GainesAdd.rng self))
    by (repeat constructor).
  assert (Hin : Forall (fun x => size_acc x = 4%nat) [x; x; x; x; x])
    by (repeat constructor).
  split; [reflexivity|]. split; [exact Hwf|]. split; [exact Hlt|]. split; [exact Hin|].
  rewrite (proj2 (gaines_index_walk [x; x; x; x; x] self 4 eq_refl Hwf Hlt Hin) 4%nat)
    by (simpl; lia).
  reflexivity.
Defined.

(** ** UnaryAdd: the accumulator keeps the shape of its first tensor *)

Lemma UnaryAdd_forward_mismatch (self : UnaryAdd.t) (input : Tensor2) :
  length (UnaryAdd.accumulator self) <> 1%nat ->
  length input <> 1%nat ->
  length (UnaryAdd.accumulator self) <> length input ->
  exists self',
    UnaryAdd.forward input self = (Raise RuntimeError, self') /\
    UnaryAdd.accumulator self' = UnaryAdd.accumulator self /\
    UnaryAdd.out_accumulator self' = UnaryAdd.out_accumulator self /\
    UnaryAdd.acc_bound self' = inject_Z (Z.of_nat (size_acc input)).
Proof.
  intros Ha Hx Hne.
  assert (Hr : bmap2 Qplus (UnaryAdd.accumulator self) (sum_acc input) =
               Raise RuntimeError).
  { rewrite bmap2_same by (unfold sum_acc; rewrite ?length_map; assumption).
    unfold sum_acc. rewrite length_map.
    apply Nat.eqb_neq in Hne. rewrite Hne. reflexivity. }
  unfold UnaryAdd.forward. munfold.
  destruct (UnaryAdd.mode self =? "bipolar"); simpl; rewrite Hr; simpl;
    eexists; (split; [reflexivity|]); simpl; auto.
Qed.

(** Tensors of rank 2.  A scaled [UnaryAdd] that has completed a call on a
    tensor of shape [(m1, n1)] with [m1 > 1] holds an accumulator of [m1]
    lanes, and a following call on a tensor of shape [(m2, n2)] with
    [m2 > 1] and [m2 <> m1] raises torch's [RuntimeError], the two 1-D
    tensors of [m1] and of [m2] entries not being broadcastable; the failed
    call has already overwritten the bound register with [n2] and leaves the
    accumulator as the first call left it. *)
Theorem scaled_add_shape_change_raises :
  forall (self : UnaryAdd.t) (x1 x2 : Tensor2) (m1 n1 m2 n2 : nat),
    UnaryAdd.scaled self = true ->
    shape2 m1 n1 x1 -> shape2 m2 n2 x2 ->
    lanes m1 (UnaryAdd.accumulator self) ->
    (1 < m1)%nat -> (1 < m2)%nat -> m2 <> m1 ->
    exists out self1 self2,
      UnaryAdd.forward x1 self = (Ok out, self1) /\
      length (UnaryAdd.accumulator self1) = m1 /\
      UnaryAdd.forward x2 self1 = (Raise RuntimeError, self2) /\
      UnaryAdd.accumulator self2 = UnaryAdd.accumulator self1 /\
      UnaryAdd.acc_bound self2 = inject_Z (Z.of_nat n2).
Proof.
  intros self x1 x2 m1 n1 m2 n2 Hs [L1 _] [L2 R2] Hl H1 H2 Hne.
  unfold lanes in Hl. rewrite <- L1 in Hl.
  destruct (UnaryAdd_scaled_lanes self x1 Hs (compat_lanes _ _ Hl))
    as (out & self1 & Hf & _ & _ & _ & La & _).
  simpl in La. rewrite (blen_lanes _ _ Hl) in La.
  assert (Hn1 : length (UnaryAdd.accumulator self1) <> 1%nat) by lia.
  assert (Hx2 : length x2 <> 1%nat) by lia.
  assert (Hn2 : length (UnaryAdd.accumulator self1) <> length x2) by lia.
  destruct (UnaryAdd_forward_mismatch self1 x2 Hn1 Hx2 Hn2)
    as (self2 & Hf2 & Ha & _ & Hb).
  assert (Hsz : size_acc x2 = n2).
  { destruct x2 as [|r x2']; [simpl in L2; lia|]. simpl. now inversion R2. }
  exists out, self1, self2. rewrite <- Hsz, <- L1. auto.
Qed.

Lemma scaled_add_shape_change_raises_witness :
  let self := UnaryAdd.init "unipolar" true 0 torch_float in
  let x1 := [[1; 0]; [1; 1]] in
  let x2 := [[1; 0]; [1; 1]; [0; 0]] in
  UnaryAdd.scaled self = true /\ shape2 2 2 x1 /\ shape2 3 2 x2 /\
  exists out self1 self2,
    UnaryAdd.forward x1 self = (Ok out, self1) /\
    UnaryAdd.forward x2 self1 = (Raise RuntimeError, self2).
Proof.
  intros self x1 x2.
  assert (S1 : shape2 2 2 x1) by (split; [reflexivity | repeat constructor]).
  assert (S2 : shape2 3 2 x2) by (split; [reflexivity | repeat constructor]).
  split; [reflexivity|]. split; [exact S1|]. split; [exact S2|].
  destruct (scaled_add_shape_change_raises self x1 x2 2 2 3 2 eq_refl S1 S2
              (or_introl eq_refl) ltac:(lia) ltac:(lia) ltac:(lia))
    as (out & self1 & self2 & Hf1 & _ & Hf2 & _).
  exists out, self1, self2. auto.
Defined.

(** ** UnaryAdd: the rate-coded (non-scaled) mode *)







(** ** FXPLinear: the bit budget of the constructor *)

Lemma Qtrunc_inject_Z (x : Q) (z : Z) : x == inject_Z z -> Qtrunc x = z.
Proof.
  intros H. unfold Qtrunc.
  destruct (Qle_bool 0 x).
  - rewrite H. apply Qfloor_Z.
  - rewrite H. apply Qceiling_Z.
Qed.

Lemma half_even (b k : Z) : b = (2 * k)%Z -> inject_Z b / 2 - 1 == inject_Z (k - 1).
Proof.
  intros ->. replace (k - 1)%Z with (k + -1)%Z by lia.
  rewrite inject_Z_plus, inject_Z_mult.
  change (inject_Z 2) with 2. change (inject_Z (-1)) with (-(1)).
  generalize (inject_Z k). intros q. field.
Qed.

Lemma half_odd_up (b k : Z) :
  b = (2 * k + 1)%Z -> (inject_Z b + 1) / 2 - 1 == inject_Z k.
Proof.
  intros ->. rewrite inject_Z_plus, inject_Z_mult.
  change (inject_Z 2) with 2. change (inject_Z 1) with 1.
  generalize (inject_Z k). intros q. field.
Qed.

Lemma half_odd_down (b k : Z) :
  b = (2 * k + 1)%Z -> (inject_Z b - 1) / 2 - 1 == inject_Z (k - 1).
Proof.
  intros ->. replace (k - 1)%Z with (k + -1)%Z by lia.
  rewrite !inject_Z_plus, inject_Z_mult.
  change (inject_Z 2) with 2. change (inject_Z 1) with 1.
  change (inject_Z (-1)) with (-(1)).
  generalize (inject_Z k). intros q. field.
Qed.

(** The widths that [FXPLinear.__init__] gives the input and the weight
    magnitudes for an integer [bitwidth].  With [keep_res="input"] both are
    [bitwidth - 1].  With [keep_res="output"] the two widths and the two sign
    bits add up to [bitwidth] exactly: an even [bitwidth] is split evenly,
    an odd one gives the extra bit to the side named by [more_res].  Any
    other [keep_res] raises [ValueError]. *)
Theorem FXPLinear_bit_budget :
  forall weight_init bias_init bias weight_ext bias_ext (bitwidth : Z)
         (more_res rounding : string),
    (exists s,
       FXPLinear.init weight_init bias_init bias weight_ext bias_ext
         (FXPLinear.BwInt bitwidth) "input" more_res rounding = Ok s /\
       FXPLinear.bw_input s = (bitwidth - 1)%Z /\
       FXPLinear.bw_wght s = (bitwidth - 1)%Z) /\
    ((bitwidth mod 2 = 0)%Z ->
     exists s,
       FXPLinear.init weight_init bias_init bias weight_ext bias_ext
         (FXPLinear.BwInt bitwidth) "output" more_res rounding = Ok s /\
       FXPLinear.bw_input s = FXPLinear.bw_wght s /\
       (FXPLinear.bw_input s + FXPLinear.bw_wght s + 2 = bitwidth)%Z) /\
    ((bitwidth mod 2 <> 0)%Z ->
     (exists s,
        FXPLinear.init weight_init bias_init bias weight_ext bias_ext
          (FXPLinear.BwInt bitwidth) "output" "input" rounding = Ok s /\
        FXPLinear.bw_input s = (FXPLinear.bw_wght s + 1)%Z /\
        (FXPLinear.bw_input s + FXPLinear.bw_wght s + 2 = bitwidth)%Z) /\
     (exists s,
        FXPLinear.init weight_init bias_init bias weight_ext bias_ext
          (FXPLinear.BwInt bitwidth) "output" "weight" rounding = Ok s /\
        FXPLinear.bw_wght s = (FXPLinear.bw_input s + 1)%Z /\
        (FXPLinear.bw_input s + FXPLinear.bw_wght s + 2 = bitwidth)%Z)) /\
    (forall keep_res, keep_res <> "input" -> keep_res <> "output" ->
       FXPLinear.init weight_init bias_init bias weight_ext bias_ext
         (FXPLinear.BwInt bitwidth) keep_res more_res rounding =
       Raise (ValueError
         "keep_res should be either 'input' or 'output' when bitwidth is not a tuple.")).
Proof.
  intros w0 b0 bias wext bext b more_res rounding.
  split; [|split; [|split]].
  - eexists. split; [reflexivity|]. split; reflexivity.
  - intros Heven. unfold FXPLinear.init.
    change ("output" =? "input") with false. change ("output" =? "output") with true.
    simpl. apply Z.eqb_eq in Heven as Hb. rewrite Hb. simpl.
    eexists. split; [reflexivity|]. simpl. split; [reflexivity|].
    unfold FXPLinear.py_int.
    assert (Hk : b = (2 * (b / 2))%Z).
    { rewrite (Z.div_mod b 2) at 1 by lia. rewrite Heven. lia. }
    rewrite (Qtrunc_inject_Z _ _ (half_even b (b / 2) Hk)). lia.
  - intros Hodd.
    assert (Hb : (b mod 2 =? 0)%Z = false) by (apply Z.eqb_neq, Hodd).
    assert (Hk : b = (2 * (b / 2) + 1)%Z).
    { rewrite (Z.div_mod b 2) at 1 by lia.
      pose proof (Z.mod_pos_bound b 2 ltac:(lia)). lia. }
    split.
    + unfold FXPLinear.init.
      change ("output" =? "input") with false. change ("output" =? "output") with true.
      simpl. rewrite Hb. change ("input" =? "input") with true. simpl.
      eexists. split; [reflexivity|]. simpl. unfold FXPLinear.py_int.
      rewrite (Qtrunc_inject_Z _ _ (half_odd_up b (b / 2) Hk)).
      rewrite (Qtrunc_inject_Z _ _ (half_odd_down b (b / 2) Hk)). lia.
    + unfold FXPLinear.init.
      change ("output" =? "input") with false. change ("output" =? "output") with true.
      simpl. rewrite Hb. change ("weight" =? "input") with false.
      change ("weight" =? "weight") with true. simpl.
      eexists. split; [reflexivity|]. simpl. unfold FXPLinear.py_int.
      rewrite (Qtrunc_inject_Z _ _ (half_odd_up b (b / 2) Hk)).
      rewrite (Qtrunc_inject_Z _ _ (half_odd_down b (b / 2) Hk)). lia.
  - intros keep_res Hi Ho. unfold FXPLinear.init.
    apply String.eqb_neq in Hi, Ho. rewrite Hi, Ho. reflexivity.
Qed.

Lemma FXPLinear_bit_budget_witness :
  (7 mod 2 <> 0)%Z /\
  exists s,
    FXPLinear.init [] [] false None None (FXPLinear.BwInt 7)
      "output" "weight" "round" = Ok s /\
    FXPLinear.bw_input s = 2%Z /\ FXPLinear.bw_wght s = 3%Z.
Proof.
  assert (H : (7 mod 2 <> 0)%Z) by discriminate.
  split; [exact H|].
  destruct (proj2 (proj1 (proj2 (proj2 (FXPLinear_bit_budget [] [] false None None
                                          7%Z "weight" "round"))) H))
    as (s & Hinit & _).
  exists s. split; [exact Hinit|]. injection Hinit as <-. split; reflexivity.
Defined.

(** ** FSULinearPC: what the constructor accepts *)

(** [FSULinearPC.__init__] with a valid mode and no external weight.  With
    [bias=True] and no external bias (the defaults) the constructor raises
    [AttributeError]: the bias index sequence [brng] is only created together
    with an external bias (lines 160-170), and line 176 reads it whenever
    there is a bias.  Without a bias, or with an external bias of
    [out_features] entries, the constructor succeeds, with every cycle
    counter at 0. *)
Theorem FSULinearPC_constructor_bias :
  forall RNG BinGen (weight_init : list (list Q)) (bias_init : list Q)
         (in_features out_features : nat) (width : Z) (mode rng : string)
         (dimr : Z) (stype : dtype),
    lower mode = "unipolar" \/ lower mode = "bipolar" ->
    FSULinearPC.init RNG BinGen weight_init bias_init in_features out_features
      true None None width mode rng dimr stype = Raise AttributeError /\
    (exists self,
       FSULinearPC.init RNG BinGen weight_init bias_init in_features out_features
         false None None width mode rng dimr stype = Ok self /\
       FSULinearPC.has_bias self = false /\
       FSULinearPC.weight self = weight_init /\
       FSULinearPC.wrdx_i1 self = [map (map (fun _ => 0%Z)) weight_init]) /\
    (forall bias_ext, length bias_ext = out_features ->
       exists self,
         FSULinearPC.init RNG BinGen weight_init bias_init in_features out_features
           true None (Some bias_ext) width mode rng dimr stype = Ok self /\
         FSULinearPC.has_bias self = true /\
         FSULinearPC.brng self = Some (RNG width dimr "sobol") /\
         FSULinearPC.bias self = map (fun x => BinGen x width (lower mode)) bias_ext /\
         FSULinearPC.brdx self = map (fun _ => 0%Z) bias_ext) /\
    (forall bias_ext, length bias_ext <> out_features ->
       exists e,
         FSULinearPC.init RNG BinGen weight_init bias_init in_features out_features
           true None (Some bias_ext) width mode rng dimr stype = Raise e).
Proof.
  intros RNG BinGen w0 b0 inf outf width mode rng dimr stype Hmode.
  assert (Hm : negb ((lower mode =? "unipolar") || (lower mode =? "bipolar")) = false).
  { destruct Hmode as [-> | ->]; reflexivity. }
  unfold FSULinearPC.init. rewrite Hm. simpl.
  split; [reflexivity|]. split; [|split].
  - eexists. split; [reflexivity|]. simpl. auto.
  - intros bias_ext Hlen. apply Nat.eqb_eq in Hlen. rewrite Hlen. simpl.
    eexists. split; [reflexivity|]. simpl. rewrite map_map. auto.
  - intros bias_ext Hlen. apply Nat.eqb_neq in Hlen. rewrite Hlen. simpl.
    eexists. reflexivity.
Qed.

Lemma FSULinearPC_constructor_bias_witness :
  (lower "Bipolar" = "unipolar" \/ lower "Bipolar" = "bipolar") /\
  FSULinearPC.init rng4 src_id [[2]] [5] 1 1 true None None 2 "Bipolar" "Sobol" 1
    torch_float = Raise AttributeError.
Proof.
  assert (H : lower "Bipolar" = "unipolar" \/ lower "Bipolar" = "bipolar")
    by (right; reflexivity).
  split; [exact H|].
  exact (proj1 (FSULinearPC_constructor_bias rng4 src_id [[2]] [5] 1 1 2%Z
                  "Bipolar" "Sobol" 1%Z torch_float H)).
Defined.

(** ** UnaryLinear: runs of the scaled layer *)

Lemma UnaryLinear_scaled_step (self : UnaryLinear.t) (input : list Q) :
  UnaryLinear_run_state self ->
  bit_vector (UnaryLinear.in_features self) input ->
  exists out self',
    UnaryLinear.forward input self = (Ok out, self') /\
    length out = UnaryLinear.out_features self /\
    Forall is_bit out /\
    UnaryLinear_run_state self' /\
    UnaryLinear.in_features self' = UnaryLinear.in_features self /\
    UnaryLinear.out_features self' = UnaryLinear.out_features self /\
    UnaryLinear.acc_bound self' = UnaryLinear.acc_bound self.
Proof.
  intros (Hsh & Hsc & Hb & Hl & Hr) Hin.
  destruct (UnaryKernel_accumulation_ok self input Hsh Hin)
    as (k & self1 & Hk & Lk & Rk & Hsh1 & Fi & Fo & Fb & Fm & _).
  destruct (UnaryKernel_accumulation_frame _ _ _ _ Hk) as (Fa & Fbd & Fs & Ft & _).
  destruct (bmap2_lanes Qplus (UnaryLinear.out_features self)
              (UnaryLinear.accumulator self) k Hl (lanes_exact _ _ Lk))
    as (acc1 & Hacc & _ & Hlen & _).
  pose proof (UnaryLinear_forward_scaled input self k self1 acc1 Hsc Hk Hacc) as Hf.
  cbv zeta in Hf.
  assert (R1 : Forall (fun c => 0 <= c /\ c < UnaryLinear.acc_bound self +
                                              UnaryLinear.acc_bound self) acc1).
  { eapply bmap2_Forall; [ | exact Hr | exact Rk | exact Hacc].
    cbv beta. intros x y [? ?] [? ?]. rewrite <- Hb in *. split; lra. }
  eexists; eexists; split; [exact Hf|].
  split; [rewrite length_map; auto|].
  split.
  { apply Forall_map, Forall_forall. intros a _.
    destruct (ge a _); [right | left]; reflexivity. }
  split; [|destruct self1; simpl in *; auto].
  unfold UnaryLinear_run_state, UnaryLinear_shapes, UnaryLinear_terms, lanes,
    in_range in *.
  destruct self1; simpl in *. subst.
  split; [exact Hsh1|]. split; [exact Hsc|]. split; [exact Hb|].
  split; [right; rewrite length_map; auto|].
  apply Forall_map. revert R1. apply Forall_impl. cbv beta. intros a [A0 A1].
  unfold flagQ, ge.
  destruct (Qle_bool (UnaryLinear.acc_bound self) a) eqn:E.
  - apply Qle_bool_iff in E. split; lra.
  - assert (Hlt : a < UnaryLinear.acc_bound self).
    { apply Qnot_le_lt. intros Hle. apply Qle_bool_iff in Hle. congruence. }
    split; lra.
Qed.

Lemma UnaryLinear_scaled_steps (inputs : list (list Q)) (self : UnaryLinear.t) :
  UnaryLinear_run_state self ->
  Forall (bit_vector (UnaryLinear.in_features self)) inputs ->
  length (run_calls UnaryLinear.forward inputs self) = length inputs /\
  Forall (fun c : list Q * UnaryLinear.t =>
            length (fst c) = UnaryLinear.out_features self /\
            Forall is_bit (fst c) /\
            UnaryLinear.acc_bound (snd c) = UnaryLinear.acc_bound self /\
            UnaryLinear_run_state (snd c))
         (run_calls UnaryLinear.forward inputs self).
Proof.
  revert self. induction inputs as [|x xs IH]; intros self Hs Hin; simpl.
  - split; [reflexivity | constructor].
  - inversion Hin as [|? ? Hx Hxs]; subst.
    destruct (UnaryLinear_scaled_step self x Hs Hx)
      as (out & self' & Hf & Lo & Bo & Hs' & Fi & Fo & Fb).
    rewrite Hf. rewrite <- Fi in Hxs. destruct (IH self' Hs' Hxs) as [IL IF].
    simpl. split; [now rewrite IL|].
    constructor; [simpl; auto|].
    rewrite Fo, Fb in IF. exact IF.
Qed.

Lemma nth_add_rows (rows cols : nat) (m : list (list Z)) (v : list Z) r c :
  matrix rows cols m -> length v = cols -> (r < rows)%nat -> (c < cols)%nat ->
  nth c (nth r (map (fun row => map2 Z.add row v) m) []) 0%Z =
  (nth c (nth r m []) 0 + nth c v 0)%Z.
Proof.
  intros [Hl Hr] Hv Hlt Hc.
  rewrite (nth_map_in (fun row => map2 Z.add row v) m r [] []) by lia.
  assert (Hrow : length (nth r m []) = cols).
  { rewrite Forall_forall in Hr. apply Hr, nth_In. lia. }
  apply nth_map2; lia.
Qed.

Lemma inject_Z_of_nat_pos (n : nat) : (0 < n)%nat -> 0 < inject_Z (Z.of_nat n).
Proof. intros H. unfold Qlt. simpl. lia. Qed.

(** One cycle of the kernel of [UnaryLinear] on a layer whose registers have
    the shapes of the constructor, for an input vector of [in_features] bits.
    The call completes and returns [out_features] values, each between 0 and
    the number of products of a row (one per input feature plus one for the
    bias); the shapes are kept.  The counter of weight [(r, c)] advances by
    input bit [c], in bipolar mode its inverse counter advances by the
    complement of that bit, so that together they advance by one; with a bias
    every bias counter advances by one. *)
Theorem UnaryLinear_kernel_cycle (self : UnaryLinear.t) (input : list Q) :
  UnaryLinear_shapes self ->
  bit_vector (UnaryLinear.in_features self) input ->
  exists k self1,
    UnaryLinear.UnaryKernel_accumulation input self = (Ok k, self1) /\
    length k = UnaryLinear.out_features self /\
    Forall (fun v => 0 <= v /\ v <= UnaryLinear_terms self) k /\
    UnaryLinear_shapes self1 /\
    (forall r c, (r < UnaryLinear.out_features self)%nat ->
                 (c < UnaryLinear.in_features self)%nat ->
       let at_ (m : list (list Z)) := nth c (nth r m []) 0%Z in
       let bit := bitZ (nth c input 0) in
       at_ (UnaryLinear.rng_wght_idx self1) =
         (at_ (UnaryLinear.rng_wght_idx self) + bit)%Z /\
       (UnaryLinear.mode self = "bipolar" ->
        at_ (UnaryLinear.rng_wght_idx_inv self1) =
          (at_ (UnaryLinear.rng_wght_idx_inv self) + (1 - bit))%Z) /\
       (UnaryLinear.mode self = "unipolar" ->
        UnaryLinear.rng_wght_idx_inv self1 = UnaryLinear.rng_wght_idx_inv self)) /\
    (UnaryLinear.has_bias self = true ->
     UnaryLinear.rng_bias_idx self1 =
       map (fun i => (i + 1)%Z) (UnaryLinear.rng_bias_idx self)).
Proof.
  intros Hsh Hin.
  destruct (UnaryKernel_accumulation_ok self input Hsh Hin)
    as (k & self1 & Hk & Lk & Rk & Hsh1 & Fi & Fo & Fb & Fm & Ei & Eb & Ev & _).
  exists k, self1.
  split; [exact Hk|]. split; [exact Lk|]. split; [exact Rk|]. split; [exact Hsh1|].
  destruct Hin as [Hx Hxb].
  destruct Hsh as (_ & Hidx & _ & Hmode).
  split.
  - intros r c Hr Hc. cbv zeta.
    assert (Hbit : to_long (nth c input 0) = bitZ (nth c input 0)).
    { apply to_long_bit, nth_bit; [exact Hxb | lia]. }
    split; [|split].
    + rewrite Ei.
      rewrite (nth_add_rows _ _ _ _ r c Hidx) by (rewrite ?length_map; lia).
      rewrite (nth_map_in to_long input c 0 0%Z) by lia.
      rewrite Hbit. reflexivity.
    + intros Hm. rewrite Ev, Hm.
      change ("bipolar" =? "bipolar") with true. cbv iota.
      destruct Hmode as [Hu | [_ Hinv]]; [rewrite Hu in Hm; discriminate Hm|].
      rewrite (nth_add_rows _ _ _ _ r c Hinv) by (rewrite ?length_map; lia).
      rewrite (nth_map_in (fun x => (1 - to_long x)%Z) input c 0 0%Z) by lia.
      rewrite Hbit. reflexivity.
    + intros Hm. rewrite Ev, Hm. reflexivity.
  - intros Hb. rewrite Eb, Hb. reflexivity.
Qed.

Lemma UnaryLinear_kernel_cycle_witness :
  UnaryLinear_shapes linear21 /\
  bit_vector (UnaryLinear.in_features linear21) [1; 0] /\
  exists k self1,
    UnaryLinear.UnaryKernel_accumulation [1; 0] linear21 = (Ok k, self1) /\
    length k = 1%nat.
Proof.
  assert (Hs : UnaryLinear_shapes linear21).
  { unfold UnaryLinear_shapes, matrix. simpl.
    repeat split; try (repeat constructor); try discriminate. }
  assert (Hv : bit_vector (UnaryLinear.in_features linear21) [1; 0]).
  { split; [reflexivity|].
    repeat constructor; ((left; reflexivity) || (right; reflexivity)). }
  split; [exact Hs|]. split; [exact Hv|].
  destruct (UnaryLinear_kernel_cycle linear21 [1; 0] Hs Hv)
    as (k & self1 & Hk & Lk & _).
  exists k, self1. split; [exact Hk | exact Lk].
Defined.

(** A scaled [UnaryLinear] built by the constructor from a weight matrix of
    [out_features] by [in_features] entries (and a bias of [out_features]
    entries, if any), with at least one product per row: every call of a run
    on input vectors of [in_features] bits completes, returns [out_features]
    bits, and leaves every lane of the accumulator in [[0, bound)], where
    [bound] is the number of products of a row. *)
Theorem UnaryLinear_scaled_run
  (RNG : Z -> Z -> string -> list Q) (SourceGen : Q -> Z -> string -> Q)
  (i o : nat) (binary_weight : list (list Q)) (binary_bias : list Q) (bw : Z)
  (bias : bool) (mode : string) (stype : dtype) (inputs : list (list Q)) :
  matrix o i binary_weight ->
  (bias = true -> length binary_bias = o) ->
  mode = "unipolar" \/ mode = "bipolar" ->
  (0 < i)%nat \/ bias = true ->
  Forall (bit_vector i) inputs ->
  exists self,
    UnaryLinear.init RNG SourceGen i o binary_weight binary_bias bw bias mode
      true stype = Ok self /\
    length (run_calls UnaryLinear.forward inputs self) = length inputs /\
    Forall (fun c : list Q * UnaryLinear.t =>
              length (fst c) = o /\ Forall is_bit (fst c) /\
              in_range (inject_Z (Z.of_nat i) + (if bias then 1 else 0))
                       (UnaryLinear.accumulator (snd c)))
           (run_calls UnaryLinear.forward inputs self).
Proof.
  intros HW HB Hmode Hpos Hin.
  assert (Hoff : exists off,
    (if mode =? "unipolar" then Ok 0
     else if mode =? "bipolar" then
       Ok (if bias then 0 + (inject_Z (Z.of_nat i) - 1) / 2 + 1 / 2
           else 0 + (inject_Z (Z.of_nat i) - 1) / 2)
     else Raise (ValueError "UnaryLinear mode is not implemented.")) = Ok off).
  { destruct Hmode as [->| ->]; eexists; reflexivity. }
  destruct Hoff as [off Hoff].
  unfold UnaryLinear.init. rewrite Hoff. simpl. eexists. split; [reflexivity|].
  match goal with
  | |- context [run_calls UnaryLinear.forward inputs ?s] => set (self := s)
  end.
  assert (Hpos' : 0 < inject_Z (Z.of_nat i) + (if bias then 1 else 0)).
  { pose proof (Nat2Z.is_nonneg i) as Hn.
    assert (0 <= inject_Z (Z.of_nat i)) by (unfold Qle; simpl; lia).
    destruct Hpos as [Hp | ->].
    - pose proof (inject_Z_of_nat_pos i Hp). destruct bias; lra.
    - lra. }
  assert (Hbound : UnaryLinear.acc_bound self ==
                   inject_Z (Z.of_nat i) + (if bias then 1 else 0)).
  { unfold self. simpl. destruct bias; ring. }
  assert (Hs : UnaryLinear_run_state self).
  { unfold UnaryLinear_run_state, UnaryLinear_shapes, UnaryLinear_terms.
    split; [|split; [reflexivity|split; [exact Hbound|split]]].
    - unfold self. simpl. split; [apply matrix_map, HW|].
      split; [apply matrix_zeros|]. split.
      + intros ->. rewrite length_map, repeat_length. auto.
      + destruct Hmode as [->| ->]; [left; reflexivity|].
        right. split; [reflexivity|].
        change ("bipolar" =? "bipolar") with true. apply matrix_zeros.
    - left. reflexivity.
    - unfold in_range. constructor; [|constructor].
      split; [apply Qle_refl|].
      change (0 < UnaryLinear.acc_bound self). rewrite Hbound. exact Hpos'. }
  destruct (UnaryLinear_scaled_steps inputs self Hs Hin) as [HL HF].
  split; [exact HL|].
  revert HF. apply Forall_impl. intros c (Hc1 & Hc2 & Hc3 & Hc4).
  split; [exact Hc1|]. split; [exact Hc2|].
  destruct Hc4 as (_ & _ & _ & _ & Hr). rewrite Hc3 in Hr.
  revert Hr. unfold in_range. apply Forall_impl. intros a [A0 A1].
  rewrite Hbound in A1. split; assumption.
Qed.

Lemma UnaryLinear_scaled_run_witness :
  matrix 1 2 [[2; 4]] /\
  exists self,
    UnaryLinear.init rng4 src_id 2 1 [[2; 4]] [] 2 false "unipolar" true
      torch_float = Ok self /\
    length (run_calls UnaryLinear.forward [[1; 0]; [1; 1]; [0; 1]] self) = 3%nat.
Proof.
  assert (HW : matrix 1 2 [[2; 4]]) by (split; repeat constructor).
  assert (Hin : Forall (bit_vector 2) [[1; 0]; [1; 1]; [0; 1]]).
  { repeat constructor; ((left; reflexivity) || (right; reflexivity)). }
  split; [exact HW|].
  destruct (UnaryLinear_scaled_run rng4 src_id 2 1 [[2; 4]] [] 2 false "unipolar"
              torch_float [[1; 0]; [1; 1]; [0; 1]] HW
              (fun H : false = true => False_ind _ (diff_false_true H))
              (or_introl eq_refl) (or_introl (Nat.lt_0_succ 1)) Hin)
    as (self & Hi & HL & _).
  exists self. split; [exact Hi | exact HL].
Defined.
